(** * Louvain community detection (louvain.hxx): a shallow embedding

    The sequential routines of [src/louvain.hxx] are embedded as pure
    functions over lists, one function per C++ routine and with the C++
    names.  A [vector<T>] is a [list T]; reading [a[i]] is [vget], writing
    [a[i] = v] is stdpp's [<[i:=v]> a].  Indexing a vector out of range is
    undefined behaviour in C++; the embedding reads the value-initialised
    default there and leaves the vector alone on a write, and the theorems
    carry the range conditions that the C++ code relies on.

    The routines are templates over the key type [K], the weight type [W]
    and the graph type [G].  Keys are [nat].  Weights are any type with the
    operations of the class [Weight]; the driver instantiates them with
    IEEE doubles ([FloatWeight]), and the algebraic statements hold for
    every weight type whose arithmetic is exact ([ExactWeight], for
    instance [Z]).  Graphs are any type with the operations of the class
    [Graph].  The parallel driver [louvainOmp] is embedded as it runs on
    one thread. *)

From Stdlib Require Import ZArith Lia.
From Corelib Require Import PrimFloat FloatOps FloatAxioms SpecFloat.
From stdpp Require Import base list.

(** ** Vectors *)

(** [a[i]] for [vector<T> a]; [d] is the value-initialised [T()]. *)
Definition vget {A : Type} (d : A) (a : list A) (i : nat) : A :=
  default d (a !! i).

(** Modelled from the spec: [fillValueU(a, v)] of _main.hxx, which sets
    every entry of [a] to [v] (section 3, "reset (not reallocated) at each
    pass"). *)
Definition fillValueU {A : Type} (a : list A) (v : A) : list A :=
  replicate (length a) v.

(** [vector::resize(n)] with value-initialised new entries. *)
Definition vresize {A : Type} (d : A) (n : nat) (a : list A) : list A :=
  take n a ++ replicate (n - length a) d.

(** ** Weights *)

(** The operations the routines use on the weight type [W]. *)
Class Weight (W : Type) := {
  wzero : W;                 (* W() *)
  wadd : W -> W -> W;        (* a + b *)
  wsub : W -> W -> W;        (* a - b *)
  wdiv : W -> W -> W;        (* a / b *)
  wofnat : nat -> W;         (* double(n) *)
  wtruthy : W -> bool;       (* conversion to bool, as in [if (a)] and [!a] *)
  wltb : W -> W -> bool;     (* a < b *)
  wleb : W -> W -> bool;     (* a <= b *)
  wtruthy_zero : wtruthy wzero = false;   (* [!W()] holds *)
}.

(** Weight arithmetic without rounding: addition is a commutative group
    operation with unit [wzero] and subtraction is its inverse. *)
Class ExactWeight (W : Type) `{Weight W} : Prop := {
  wadd_comm : forall a b : W, wadd a b = wadd b a;
  wadd_assoc : forall a b c : W, wadd a (wadd b c) = wadd (wadd a b) c;
  wadd_zero_l : forall a : W, wadd wzero a = a;
  wsub_add : forall a b : W, wsub (wadd a b) b = a;
}.

(** Strictly positive weights: [0 < a]. *)
Definition wpos {W : Type} `{Weight W} (a : W) : Prop := wltb wzero a = true.

(** Positive weights stay positive under addition and convert to [true]. *)
Class PositiveWeight (W : Type) `{Weight W} : Prop := {
  wpos_add : forall a b : W, wpos a -> wpos b -> wpos (wadd a b);
  wpos_truthy : forall a : W, wpos a -> wtruthy a = true;
}.

(** Weights ordered by [<]: no weight is below itself and [<] is
    transitive. *)
Class OrderedWeight (W : Type) `{Weight W} : Prop := {
  wltb_irrefl : forall a : W, wltb a a = false;
  wltb_trans : forall a b c : W, wltb a b = true -> wltb b c = true -> wltb a c = true;
}.

(** Integer weights. *)
#[export] Instance ZWeight : Weight Z := {|
  wzero := 0%Z;
  wadd := Z.add;
  wsub := Z.sub;
  wdiv := Z.div;
  wofnat := Z.of_nat;
  wtruthy := fun a => negb (Z.eqb a 0);
  wltb := Z.ltb;
  wleb := Z.leb;
  wtruthy_zero := eq_refl;
|}.

(** IEEE-754 doubles, the driver's [LOUVAIN_WEIGHT_TYPE]. *)
#[export] Instance FloatWeight : Weight float := {|
  wzero := 0%float;
  wadd := PrimFloat.add;
  wsub := PrimFloat.sub;
  wdiv := PrimFloat.div;
  wofnat := fun n => Nat.iter n (fun a => PrimFloat.add a 1%float) 0%float;
  wtruthy := fun a => negb (PrimFloat.eqb a 0%float);
  wltb := PrimFloat.ltb;
  wleb := PrimFloat.leb;
  wtruthy_zero := eq_refl;
|}.

(** ** Graphs *)

(** Modelled from the spec: the graph interface of Graph.hxx the routines
    use (section 3): [x.span()], [x.hasVertex(u)] and the out-edges
    [(v, w)] of [u] in the order [x.forEachEdge(u, f)] visits them. *)
Class Graph (W G : Type) := {
  span : G -> nat;
  hasVertex : G -> nat -> bool;
  edgesOf : G -> nat -> list (nat * W);
}.

Section GraphOps.
Context {W G : Type} `{Weight W} `{Graph W G}.

(** Modelled from the spec: the keys [x.forEachVertexKey(f)] of Graph.hxx
    visits, the present vertices below the span in increasing order
    (section 3, "iteration over vertices"). *)
Definition vertexKeys (x : G) : list nat :=
  filter (fun u => hasVertex x u = true) (seq 0 (span x)).

(** Modelled from the spec: [x.order()] of Graph.hxx, the "count of
    present vertices" (section 3). *)
Definition order (x : G) : nat := length (vertexKeys x).

(** Modelled from the spec: [x.degree(u)] of Graph.hxx, the number of
    out-edges of [u] (section 3). *)
Definition degree (x : G) (u : nat) : nat := length (edgesOf x u).

(** Modelled from the spec: [x.size()] of Graph.hxx, the number of edges,
    which sizes the edge buffers of the aggregated graph (section 3). *)
Definition gsize (x : G) : nat :=
  foldr (fun u n => degree x u + n) 0 (vertexKeys x).

(** The sum of a list of weights, in list order from [wzero]. *)
Definition wsum (l : list W) : W := foldl wadd wzero l.

(** Modelled from the spec: [edgeWeight(G)] of properties.hxx, "the sum
    of w(u,v)" over every out-edge of every vertex (section 6.3). *)
Definition edgeWeight (x : G) : W :=
  wsum (map snd (concat (map (edgesOf x) (vertexKeys x)))).
End GraphOps.

(** Modelled from the spec: the input graph of Graph.hxx as adjacency
    lists (section 3, "a weighted adjacency structure"): entry [u] is
    [None] when vertex [u] is absent and otherwise the out-edges of [u];
    the span is the length. *)
Definition DiGraph (W : Type) : Type := list (option (list (nat * W))).

#[export] Instance DiGraph_Graph (W : Type) : Graph W (DiGraph W) := {|
  span := fun x => length x;
  hasVertex := fun x u => match x !! u with Some (Some _) => true | _ => false end;
  edgesOf := fun x u => match x !! u with Some (Some es) => es | _ => [] end;
|}.

(** Modelled from the spec: the CSR graph [DiGraphCsr<K, None, W>] of
    csr.hxx (section 3, "CSR with yoff, ydeg, yedg, ywei"): the out-edges
    of [u] are the [degrees[u]] entries of [edgeKeys] and [edgeValues] from
    [offsets[u]], and every [u] below the span is a vertex. *)
Record DiGraphCsr (W : Type) := mkCsr {
  offsets : list nat;
  degrees : list nat;
  edgeKeys : list nat;
  edgeValues : list W;
}.
Arguments mkCsr {W} _ _ _ _.
Arguments offsets {W} _.
Arguments degrees {W} _.
Arguments edgeKeys {W} _.
Arguments edgeValues {W} _.

(** The entries [a[i .. i+n)]. *)
Definition vslice {A : Type} (a : list A) (i n : nat) : list A :=
  take n (drop i a).

#[export] Instance DiGraphCsr_Graph (W : Type) : Graph W (DiGraphCsr W) := {|
  span := fun y => length (degrees y);
  hasVertex := fun y u => u <? length (degrees y);
  edgesOf := fun y u =>
    zip (vslice (edgeKeys y) (vget 0 (offsets y) u) (vget 0 (degrees y) u))
        (vslice (edgeValues y) (vget 0 (offsets y) u) (vget 0 (degrees y) u));
|}.

(** Modelled from the spec: [DiGraphCsr(n, m)] of csr.hxx, a CSR with room
    for [n] vertices and [m] edges, value-initialised. *)
Definition csrNew {E : Type} (d : E) (n m : nat) : DiGraphCsr E :=
  mkCsr (replicate (n + 1) 0) (replicate n 0) (replicate m 0) (replicate m d).

(** Modelled from the spec: [respan(n)] of csr.hxx, which resizes the
    offsets to [n+1] and the degrees to [n] and keeps the edge buffers
    (section 3, "reused across passes via respanning"). *)
Definition respan {W : Type} (n : nat) (y : DiGraphCsr W) : DiGraphCsr W :=
  mkCsr (vresize 0 (n + 1) (offsets y)) (vresize 0 n (degrees y))
        (edgeKeys y) (edgeValues y).

(** ** The scratch hashtable *)

(** One worker's scratch: the communities touched, in touch order, and the
    dense accumulator. *)
Record Scratch (W : Type) := mkScratch {
  vcs : list nat;
  vcout : list W;
}.
Arguments mkScratch {W} _ _.
Arguments vcs {W} _.
Arguments vcout {W} _.

Section Hashtable.
Context {W G : Type} `{Weight W} `{Graph W G}.

(** [louvainScanCommunityW<SELF>(vcs, vcout, u, v, w, vcom)]. *)
Definition louvainScanCommunityW (SELF : bool) (s : Scratch W)
    (u v : nat) (w : W) (vcom : list nat) : Scratch W :=
  if negb SELF && (u =? v) then s
  else
    let c := vget 0 vcom v in
    let vcs1 := if wtruthy (vget wzero (vcout s) c) then vcs s else vcs s ++ [c] in
    mkScratch vcs1 (<[c := wadd (vget wzero (vcout s) c) w]> (vcout s)).

(** [louvainScanCommunitiesW<SELF>(vcs, vcout, x, u, vcom)]. *)
Definition louvainScanCommunitiesW (SELF : bool) (s : Scratch W)
    (x : G) (u : nat) (vcom : list nat) : Scratch W :=
  foldl (fun s e => louvainScanCommunityW SELF s u (fst e) (snd e) vcom)
        s (edgesOf x u).

(** [louvainClearScanW(vcs, vcout)]. *)
Definition louvainClearScanW (s : Scratch W) : Scratch W :=
  mkScratch [] (foldl (fun o c => <[c := wzero]> o) (vcout s) (vcs s)).

(** [louvainChangeCommunityW(vcom, ctot, x, u, c, vtot)]; the graph
    argument is unused by the routine and [vtot] is passed by const
    reference, so the result is the updated [(vcom, ctot)]. *)
Definition louvainChangeCommunityW (vcom : list nat) (ctot : list W)
    (u c : nat) (vtot : list W) : list nat * list W :=
  let d := vget 0 vcom u in
  let ctot1 := <[d := wsub (vget wzero ctot d) (vget wzero vtot u)]> ctot in
  let ctot2 := <[c := wadd (vget wzero ctot1 c) (vget wzero vtot u)]> ctot1 in
  (<[u := c]> vcom, ctot2).
End Hashtable.

(** One call [louvainScanCommunityW<SELF>(vcs, vcout, u, v, w, vcom)]. *)
Record ScanCall (W : Type) := mkScan {
  sc_self : bool;
  sc_u : nat;
  sc_v : nat;
  sc_w : W;
  sc_vcom : list nat;
}.
Arguments mkScan {W} _ _ _ _ _.
Arguments sc_self {W} _.
Arguments sc_u {W} _.
Arguments sc_v {W} _.
Arguments sc_w {W} _.
Arguments sc_vcom {W} _.

(** A sequence of [louvainScanCommunityW] calls on one scratch. *)
Definition runScans {W : Type} `{Weight W} (s : Scratch W) (calls : list (ScanCall W))
    : Scratch W :=
  foldl (fun s k => louvainScanCommunityW (sc_self k) s (sc_u k) (sc_v k)
                      (sc_w k) (sc_vcom k))
        s calls.

(** The scratch invariant: an entry of [vcout] whose index is not listed
    in [vcs] holds [W()]. *)
Definition scratchClean {W : Type} `{Weight W} (s : Scratch W) : Prop :=
  forall c w, vcout s !! c = Some w -> c ∉ vcs s -> w = wzero.

(** ** Weight tables *)

Section Initialize.
Context {W G : Type} `{Weight W} `{Graph W G}.

(** [louvainVertexWeightsW(vtot, x)]. *)
Definition louvainVertexWeightsW (vtot : list W) (x : G) : list W :=
  foldl (fun vt u =>
           foldl (fun vt e => <[u := wadd (vget wzero vt u) (snd e)]> vt)
                 vt (edgesOf x u))
        vtot (vertexKeys x).

(** [louvainInitializeW(vcom, ctot, x, vtot)]. *)
Definition louvainInitializeW (vcom : list nat) (ctot : list W) (x : G)
    (vtot : list W) : list nat * list W :=
  foldl (fun vc u => (<[u := u]> (fst vc), <[u := vget wzero vtot u]> (snd vc)))
        (vcom, ctot) (vertexKeys x).

(** [louvainInitializeFromW(vcom, ctot, x, vtot, q)]. *)
Definition louvainInitializeFromW (vcom : list nat) (ctot : list W) (x : G)
    (vtot : list W) (q : list nat) : list nat * list W :=
  foldl (fun vc u =>
           let c := vget 0 q u in
           (<[u := c]> (fst vc),
            <[c := wadd (vget wzero (snd vc) c) (vget wzero vtot u)]> (snd vc)))
        (vcom, ctot) (vertexKeys x).
End Initialize.

Section CommunityWeights.
Context {W G : Type} `{Weight W} `{Graph W G}.

(** [louvainCommunityWeightsW(ctot, x, vcom, vtot)]. *)
Definition louvainCommunityWeightsW (ctot : list W) (x : G) (vcom : list nat)
    (vtot : list W) : list W :=
  foldl (fun ct u =>
           let c := vget 0 vcom u in
           <[c := wadd (vget wzero ct c) (vget wzero vtot u)]> ct)
        ctot (vertexKeys x).
End CommunityWeights.

(** ** The delta-modularity scorer *)

(** The modularity oracle [deltaModularity(vcout, vdout, vtot, ctot, dtot,
    M, R)] of modularity.hxx, which is not part of louvain.hxx, as a
    parameter of the routines (section 6.3). *)
Class Modularity (W : Type) := {
  deltaModularity : W -> W -> W -> W -> W -> W -> W -> W;
}.

(** Modelled from the spec: the standard Louvain gain for moving a vertex
    from community d to c (section 6.3), on doubles:
    [(vcout-vdout)/M - R*vtot*(vtot+ctot-dtot)/(2*M*M)]. *)
#[export] Instance FloatModularity : Modularity float := {|
  deltaModularity := fun vcout vdout vtot ctot dtot M R =>
    PrimFloat.sub
      (PrimFloat.div (PrimFloat.sub vcout vdout) M)
      (PrimFloat.div
         (PrimFloat.mul (PrimFloat.mul R vtot)
                        (PrimFloat.sub (PrimFloat.add vtot ctot) dtot))
         (PrimFloat.mul (PrimFloat.mul 2%float M) M));
|}.

(** A scorer on integer weights for the examples: the standard gain
    scaled by [2*M*M], [2*M*(vcout-vdout) - R*vtot*(vtot+ctot-dtot)]. *)
#[export] Instance ZModularity : Modularity Z := {|
  deltaModularity := fun vcout vdout vtot ctot dtot M R =>
    (2 * M * (vcout - vdout) - R * vtot * (vtot + ctot - dtot))%Z;
|}.

Section Choose.
Context {W : Type} `{Weight W} `{Modularity W}.

(** One turn of the loop of [louvainChooseCommunity] on candidate [c]. *)
Definition chooseStep (SELF : bool) (u d : nat) (vtot ctot vcout : list W)
    (M R : W) (best : nat * W) (c : nat) : nat * W :=
  if negb SELF && (c =? d) then best
  else
    let e := deltaModularity (vget wzero vcout c) (vget wzero vcout d)
               (vget wzero vtot u) (vget wzero ctot c) (vget wzero ctot d) M R in
    if wltb (snd best) e then (c, e) else best.

(** [louvainChooseCommunity<SELF>(x, u, vcom, vtot, ctot, vcs, vcout, M, R)];
    the graph argument is unused by the routine. *)
Definition louvainChooseCommunity (SELF : bool) (u : nat) (vcom : list nat)
    (vtot ctot : list W) (s : Scratch W) (M R : W) : nat * W :=
  let d := vget 0 vcom u in
  foldl (chooseStep SELF u d vtot ctot (vcout s) M R) (0, wzero) (vcs s).
End Choose.

(** ** The local-moving phase *)

(** The vectors [louvainMoveW] updates, with the l1-norm [el] of the
    current iteration. *)
Record MoveState (W : Type) := mkMove {
  mv_vcom : list nat;
  mv_ctot : list W;
  mv_vaff : list bool;
  mv_scratch : Scratch W;
  mv_el : W;
}.
Arguments mkMove {W} _ _ _ _ _.
Arguments mv_vcom {W} _.
Arguments mv_ctot {W} _.
Arguments mv_vaff {W} _.
Arguments mv_scratch {W} _.
Arguments mv_el {W} _.

Section Move.
Context {W G : Type} `{Weight W} `{Modularity W} `{Graph W G}.

(** The body of the vertex loop of [louvainMoveW] on vertex [u]. *)
Definition louvainMoveVertex (x : G) (vtot : list W) (M R : W)
    (st : MoveState W) (u : nat) : MoveState W :=
  if negb (vget false (mv_vaff st) u) then st
  else
    let s1 := louvainClearScanW (mv_scratch st) in
    let s2 := louvainScanCommunitiesW false s1 x u (mv_vcom st) in
    let ce := louvainChooseCommunity false u (mv_vcom st) vtot (mv_ctot st) s2 M R in
    let c := fst ce in
    let e := snd ce in
    let moved :=
      if negb (c =? 0) then
        let vc := louvainChangeCommunityW (mv_vcom st) (mv_ctot st) u c vtot in
        (vc, foldl (fun va e => <[fst e := true]> va) (mv_vaff st) (edgesOf x u))
      else ((mv_vcom st, mv_ctot st), mv_vaff st) in
    mkMove (fst (fst moved)) (snd (fst moved)) (<[u := false]> (snd moved))
           s2 (wadd (mv_el st) e).

(** One iteration of [louvainMoveW]: [el] is reset and every vertex is
    visited. *)
Definition louvainMoveSweep (x : G) (vtot : list W) (M R : W)
    (st : MoveState W) : MoveState W :=
  foldl (louvainMoveVertex x vtot M R)
        (mkMove (mv_vcom st) (mv_ctot st) (mv_vaff st) (mv_scratch st) wzero)
        (vertexKeys x).

(** The loop [for (; l<L;)] of [louvainMoveW].  The recursion is on
    [fuel], which [louvainMoveW] sets to the iterations left before [l]
    reaches [L]; [louvainMoveLoop_fuel] shows that more fuel changes
    nothing. *)
Fixpoint louvainMoveLoop (fuel : nat) (x : G) (vtot : list W) (M R : W) (L : Z)
    (fc : W -> Z -> bool) (l : Z) (st : MoveState W) : Z * MoveState W :=
  match fuel with
  | O => (l, st)
  | S fuel' =>
      if (l <? L)%Z then
        let st1 := louvainMoveSweep x vtot M R st in
        if fc (mv_el st1) l then ((l + 1)%Z, st1)
        else louvainMoveLoop fuel' x vtot M R L fc (l + 1)%Z st1
      else (l, st)
  end.

(** [louvainMoveW(vcom, ctot, vaff, vcs, vcout, x, vtot, M, R, L, fc)]:
    the iterations performed and the updated vectors. *)
Definition louvainMoveW (vcom : list nat) (ctot : list W) (vaff : list bool)
    (s : Scratch W) (x : G) (vtot : list W) (M R : W) (L : Z)
    (fc : W -> Z -> bool) : Z * MoveState W :=
  let r := louvainMoveLoop (Z.to_nat L) x vtot M R L fc 0%Z
             (mkMove vcom ctot vaff s wzero) in
  let l := fst r in
  ((if (1 <? l)%Z || wtruthy (mv_el (snd r)) then l else 0%Z), snd r).
End Move.

(** ** Community properties and the community-vertex CSR *)

(** Modelled from the spec: the loop of [exclusiveScanW(a, x)] of
    _main.hxx, the exclusive prefix sum of [x] from the accumulator [acc]
    and the final accumulator (section 4.5). *)
Fixpoint exclusiveScanFrom (acc : nat) (x : list nat) : list nat * nat :=
  match x with
  | [] => ([], acc)
  | t :: x' =>
      let r := exclusiveScanFrom (acc + t) x' in (acc :: fst r, snd r)
  end.

(** Modelled from the spec: [exclusiveScanW(a, x)] of _main.hxx from an
    accumulator of zero: the scanned vector and the total. *)
Definition exclusiveScanW (x : list nat) : list nat * nat :=
  exclusiveScanFrom 0 x.

(** Modelled from the spec: [csrAddEdgeU(degrees, edgeKeys, offsets, u, v)]
    of csr.hxx, which fetches and increments [degrees[u]] to obtain the
    write index within the slice of [u] and writes [v] there (section 4.5,
    scatter). *)
Definition csrAddEdgeU (deg edg off : list nat) (u v : nat) : list nat * list nat :=
  let n := vget 0 deg u in
  (<[u := S n]> deg, <[vget 0 off u + n := v]> edg).

(** Modelled from the spec: the weighted [csrAddEdgeU(degrees, edgeKeys,
    edgeValues, offsets, u, v, w)] of csr.hxx (section 4.6, "emit an edge
    (c, d, vcout[d]) at offset yoff[c] + ydeg[c]"). *)
Definition csrAddEdgeWU {W : Type} (deg edg : list nat) (wei : list W)
    (off : list nat) (u v : nat) (w : W) : list nat * list nat * list W :=
  let n := vget 0 deg u in
  (<[u := S n]> deg, <[vget 0 off u + n := v]> edg, <[vget 0 off u + n := w]> wei).

(** Modelled from the spec: [csrDegree(offsets, u)] of csr.hxx. *)
Definition csrDegree (off : list nat) (u : nat) : nat :=
  vget 0 off (u + 1) - vget 0 off u.

(** Modelled from the spec: the keys [csrForEachEdgeKey(offsets, edgeKeys,
    u, f)] of csr.hxx visits, the slice of [u]. *)
Definition csrEdgeKeys (off edg : list nat) (u : nat) : list nat :=
  vslice edg (vget 0 off u) (csrDegree off u).

Section Communities.
Context {W G : Type} `{Weight W} `{Graph W G}.

(** [louvainCommunityExistsW(a, x, vcom)]: the flags and the number of
    communities. *)
Definition louvainCommunityExistsW (a : list nat) (x : G) (vcom : list nat)
    : list nat * nat :=
  foldl (fun aC u =>
           let c := vget 0 vcom u in
           (<[c := 1]> (fst aC),
            if vget 0 (fst aC) c =? 0 then S (snd aC) else snd aC))
        (fillValueU a 0, 0) (vertexKeys x).

(** [louvainCommunityTotalDegreeW(a, x, vcom)], for a counter type [A]
    that holds the number of edges of [x]; see [Unsigned] below for the
    counters that wrap. *)
Definition louvainCommunityTotalDegreeW (a : list nat) (x : G)
    (vcom : list nat) : list nat :=
  foldl (fun a u =>
           let c := vget 0 vcom u in <[c := vget 0 a c + degree x u]> a)
        (fillValueU a 0) (vertexKeys x).

(** [louvainCountCommunityVerticesW(a, x, vcom)], for a counter type [A]
    that holds the order of [x]; see [Unsigned] below for the counters
    that wrap. *)
Definition louvainCountCommunityVerticesW (a : list nat) (x : G)
    (vcom : list nat) : list nat :=
  foldl (fun a u => let c := vget 0 vcom u in <[c := S (vget 0 a c)]> a)
        (fillValueU a 0) (vertexKeys x).

(** [louvainCommunityVerticesW(coff, cdeg, cedg, x, vcom)]: the updated
    [(coff, cdeg, cedg)]. *)
Definition louvainCommunityVerticesW (coff cdeg cedg : list nat) (x : G)
    (vcom : list nat) : list nat * list nat * list nat :=
  let C := length coff - 1 in
  let coff1 := louvainCountCommunityVerticesW coff x vcom in
  let sc := exclusiveScanW coff1 in
  let coff2 := <[C := snd sc]> (fst sc) in
  let de := foldl (fun de u => csrAddEdgeU (fst de) (snd de) coff2 (vget 0 vcom u) u)
                  (fillValueU cdeg 0, cedg) (vertexKeys x) in
  (coff2, fst de, snd de).
End Communities.

(** ** Counters of a fixed width *)

(** The counting routines are templates over the counter type [A].  The
    driver instantiates [A] with [K] and [size_t], which hold its counts,
    and the definitions above count in [nat].  For an unsigned counter
    type of [bits] bits the additions wrap around, as in the definitions
    of this module. *)
Module Unsigned.
Section Counters.
Context {W G : Type} `{Graph W G}.
Variable bits : nat.

(** The conversion of [n] to the counter type. *)
Definition wrap (n : nat) : nat := n mod 2 ^ bits.

(** [louvainCountCommunityVerticesW(a, x, vcom)] with [A] unsigned of
    [bits] bits. *)
Definition louvainCountCommunityVerticesW (a : list nat) (x : G)
    (vcom : list nat) : list nat :=
  foldl (fun a u => let c := vget 0 vcom u in <[c := wrap (vget 0 a c + 1)]> a)
        (fillValueU a 0) (vertexKeys x).

(** [louvainCommunityTotalDegreeW(a, x, vcom)] with [A] unsigned of
    [bits] bits. *)
Definition louvainCommunityTotalDegreeW (a : list nat) (x : G)
    (vcom : list nat) : list nat :=
  foldl (fun a u =>
           let c := vget 0 vcom u in <[c := wrap (vget 0 a c + degree x u)]> a)
        (fillValueU a 0) (vertexKeys x).
End Counters.
End Unsigned.

(** [louvainLookupCommunitiesU(a, vcom)]. *)
Definition louvainLookupCommunitiesU (a vcom : list nat) : list nat :=
  map (fun v => vget 0 vcom v) a.

(** [louvainRenumberCommunitiesW(vcom, cext, x)]: the updated [vcom] and
    [cext] and the number of communities; the graph argument is unused by
    the routine. *)
Definition louvainRenumberCommunitiesW (vcom cext : list nat)
    : list nat * list nat * nat :=
  let sc := exclusiveScanW cext in
  (louvainLookupCommunitiesU vcom (fst sc), fst sc, snd sc).

(** ** Aggregation *)

Section Aggregate.
Context {W G : Type} `{Weight W} `{Graph W G}.

(** The body of the community loop of [louvainAggregateEdgesW] on
    community [c]; the state is [(ydeg, yedg, ywei)] and the scratch. *)
Definition louvainAggregateCommunity (x : G) (vcom coff cedg yoff : list nat)
    (st : list nat * list nat * list W * Scratch W) (c : nat)
    : list nat * list nat * list W * Scratch W :=
  if csrDegree coff c =? 0 then st
  else
    let s1 := louvainClearScanW (snd st) in
    let s2 := foldl (fun s u => louvainScanCommunitiesW true s x u vcom)
                    s1 (csrEdgeKeys coff cedg c) in
    let y := foldl (fun y d =>
                      csrAddEdgeWU (fst (fst y)) (snd (fst y)) (snd y) yoff c d
                                   (vget wzero (vcout s2) d))
                   (fst st) (vcs s2) in
    (y, s2).

(** [louvainAggregateEdgesW(ydeg, yedg, ywei, vcs, vcout, x, vcom, coff,
    cedg, yoff)]. *)
Definition louvainAggregateEdgesW (ydeg yedg : list nat) (ywei : list W)
    (s : Scratch W) (x : G) (vcom coff cedg yoff : list nat)
    : list nat * list nat * list W * Scratch W :=
  let C := length coff - 1 in
  foldl (louvainAggregateCommunity x vcom coff cedg yoff)
        (fillValueU ydeg 0, yedg, ywei, s) (seq 0 C).

(** [louvainAggregateW(yoff, ydeg, yedg, ywei, vcs, vcout, x, vcom, coff,
    cedg)]: the aggregated CSR and the scratch. *)
Definition louvainAggregateW (y : DiGraphCsr W) (s : Scratch W) (x : G)
    (vcom coff cedg : list nat) : DiGraphCsr W * Scratch W :=
  let C := length coff - 1 in
  let yoff1 := louvainCommunityTotalDegreeW (offsets y) x vcom in
  let sc := exclusiveScanW yoff1 in
  let yoff2 := <[C := snd sc]> (fst sc) in
  let r := louvainAggregateEdgesW (degrees y) (edgeKeys y) (edgeValues y) s
             x vcom coff cedg yoff2 in
  (mkCsr yoff2 (fst (fst (fst r))) (snd (fst (fst r))) (snd (fst r)), snd r).
End Aggregate.

(** ** The pass driver *)

(** [LouvainOptions] without [repeat]: the driver is embedded for one
    repetition of the measured block, the default [repeat = 1].  A
    further repetition of [louvainSeq] would start from the [cv] that the
    one before it shrank, which the statements below do not cover. *)
Record LouvainOptions (W : Type) := mkOptions {
  resolution : W;
  tolerance : W;
  aggregationTolerance : W;
  toleranceDecline : W;
  maxIterations : Z;
  maxPasses : Z;
}.
Arguments mkOptions {W} _ _ _ _ _ _.
Arguments resolution {W} _.
Arguments tolerance {W} _.
Arguments aggregationTolerance {W} _.
Arguments toleranceDecline {W} _.
Arguments maxIterations {W} _.
Arguments maxPasses {W} _.

(** [LouvainResult] without the timings. *)
Record LouvainResult := mkResult {
  membership : list nat;
  iterations : Z;
  passes : Z;
  affectedVertices : nat;
}.

(** What one pass of the driver did, kept beside the state for the
    statements about the whole run: the iteration count [m] the local
    mover returned, the community of each vertex of the level when the
    local mover returned, and the renumbering of that level's labels (the
    scanned [cext]) when the pass went on to aggregate. *)
Record PassRecord := mkPass {
  pr_m : Z;
  pr_vcom : list nat;
  pr_renumber : option (list nat);
}.

(** The variables of [louvainSeq] that its pass loop updates. *)
Record LouvainState (W : Type) := mkState {
  ls_vcom : list nat;
  ls_vtot : list W;
  ls_ctot : list W;
  ls_vaff : list bool;
  ls_a : list nat;
  ls_scratch : Scratch W;
  ls_cv : DiGraphCsr unit;
  ls_y : DiGraphCsr W;
  ls_z : DiGraphCsr W;
  ls_E : W;
  ls_l : Z;
  ls_p : Z;
  ls_log : list PassRecord;
}.
Arguments mkState {W} _ _ _ _ _ _ _ _ _ _ _ _ _.
Arguments ls_vcom {W} _.
Arguments ls_vtot {W} _.
Arguments ls_ctot {W} _.
Arguments ls_vaff {W} _.
Arguments ls_a {W} _.
Arguments ls_scratch {W} _.
Arguments ls_cv {W} _.
Arguments ls_y {W} _.
Arguments ls_z {W} _.
Arguments ls_E {W} _.
Arguments ls_l {W} _.
Arguments ls_p {W} _.
Arguments ls_log {W} _.

(** Modelled from the spec: [copyValuesW(a, x)] of _main.hxx, which copies
    the entries of [x] over the first entries of [a] (section 4.7,
    "a <- vcom (copy)"). *)
Definition copyValuesW {A : Type} (a x : list A) : list A :=
  x ++ drop (length x) a.

(** Modelled from the spec: [sumValues(vaff, size_t())] of _main.hxx on
    flags, the number of set flags (section 4.7, "count affected
    vertices"). *)
Definition sumValues (vaff : list bool) : nat :=
  length (filter (fun b => b = true) vaff).

Section Driver.
Context {W G : Type} `{Weight W} `{Modularity W} `{Graph W G}.

(** The body of the pass loop of [louvainSeq] on the level graph [g],
    which is [x] in the first pass and [y] afterwards; the boolean tells
    whether the body left the loop by [break]. *)
Definition louvainPass {G' : Type} `{Graph W G'} (g : G') (o : LouvainOptions W)
    (M : W) (st : LouvainState W) : LouvainState W * bool :=
  let isFirst := (ls_p st =? 0)%Z in
  let fc := fun (el : W) (l : Z) => wleb el (ls_E st) in
  let mv := louvainMoveW (ls_vcom st) (ls_ctot st) (ls_vaff st) (ls_scratch st)
              g (ls_vtot st) M (resolution o) (maxIterations o) fc in
  let m := fst mv in
  let vcom := mv_vcom (snd mv) in
  let ctot := mv_ctot (snd mv) in
  let vaff := mv_vaff (snd mv) in
  let scr := mv_scratch (snd mv) in
  let a := if isFirst then copyValuesW (ls_a st) vcom
           else louvainLookupCommunitiesU (ls_a st) vcom in
  let l := (ls_l st + Z.max m 1)%Z in
  let p := (ls_p st + 1)%Z in
  let stop := fun cv rec =>
    (mkState vcom (ls_vtot st) ctot vaff a scr cv (ls_y st) (ls_z st) (ls_E st)
             l p (ls_log st ++ [rec]), true) in
  if (m <=? 1)%Z || (maxPasses o <=? p)%Z then
    stop (ls_cv st) (mkPass m vcom None)
  else
    let GN := order g in
    let ex := louvainCommunityExistsW (degrees (ls_cv st)) g vcom in
    let CN := snd ex in
    let cv1 := mkCsr (offsets (ls_cv st)) (fst ex) (edgeKeys (ls_cv st))
                     (edgeValues (ls_cv st)) in
    if wleb (aggregationTolerance o) (wdiv (wofnat CN) (wofnat GN)) then
      stop cv1 (mkPass m vcom None)
    else
      let rn := louvainRenumberCommunitiesW vcom (degrees cv1) in
      let vcom1 := fst (fst rn) in
      let cv2 := respan CN (mkCsr (offsets cv1) (snd (fst rn)) (edgeKeys cv1)
                                  (edgeValues cv1)) in
      let z1 := respan CN (ls_z st) in
      let cvv := louvainCommunityVerticesW (offsets cv2) (degrees cv2)
                   (edgeKeys cv2) g vcom1 in
      let cv3 := mkCsr (fst (fst cvv)) (snd (fst cvv)) (snd cvv) (edgeValues cv2) in
      let ag := louvainAggregateW z1 scr g vcom1 (offsets cv3) (edgeKeys cv3) in
      let y2 := fst ag in
      let z2 := ls_y st in
      let vcom2 := fillValueU vcom1 0 in
      let vtot2 := fillValueU (ls_vtot st) wzero in
      let ctot2 := fillValueU ctot wzero in
      let vaff2 := fillValueU vaff true in
      let vtot3 := louvainVertexWeightsW vtot2 y2 in
      let vc := louvainInitializeW vcom2 ctot2 y2 vtot3 in
      (mkState (fst vc) vtot3 (snd vc) vaff2 a (snd ag) cv3 y2 z2
               (wdiv (ls_E st) (toleranceDecline o)) l p
               (ls_log st ++ [mkPass m vcom (Some (snd (fst rn)))]),
       false).

(** The loop [for (l=0, p=0; M>0 && p<P;)] of [louvainSeq].  The
    recursion is on [fuel], which [louvainSeq] sets to the passes left
    before [p] reaches [P]; [louvainPasses_fuel] shows that more fuel
    changes nothing. *)
Fixpoint louvainPasses (fuel : nat) (x : G) (o : LouvainOptions W) (M : W)
    (st : LouvainState W) : LouvainState W :=
  match fuel with
  | O => st
  | S fuel' =>
      if wltb wzero M && (ls_p st <? maxPasses o)%Z then
        let r := if (ls_p st =? 0)%Z then louvainPass x o M st
                 else louvainPass (ls_y st) o M st in
        if snd r then fst r else louvainPasses fuel' x o M (fst r)
      else st
  end.

(** The state of [louvainSeq(x, q, o, fm)] when it enters its pass loop,
    and the number of affected vertices. *)
Definition louvainSeqInit (x : G) (q : option (list nat)) (o : LouvainOptions W)
    (fm : list bool -> list bool) : LouvainState W * nat :=
  let S := span x in
  let vaff := fm (replicate S false) in
  let naff := sumValues vaff in
  let vtot := louvainVertexWeightsW (replicate S wzero) x in
  let vc := match q with
            | Some q => louvainInitializeFromW (replicate S 0) (replicate S wzero) x vtot q
            | None => louvainInitializeW (replicate S 0) (replicate S wzero) x vtot
            end in
  (mkState (fst vc) vtot (snd vc) vaff (replicate S 0)
           (mkScratch [] (replicate S wzero)) (csrNew tt S S)
           (csrNew wzero S (gsize x)) (csrNew wzero S (gsize x))
           (tolerance o) 0%Z 0%Z [],
   naff).

(** The state of [louvainSeq(x, q, o, fm)] when its pass loop has ended,
    and the number of affected vertices. *)
Definition louvainSeqRun (x : G) (q : option (list nat)) (o : LouvainOptions W)
    (fm : list bool -> list bool) : LouvainState W * nat :=
  let M := wdiv (edgeWeight x) (wofnat 2) in
  let init := louvainSeqInit x q o fm in
  (louvainPasses (Z.to_nat (maxPasses o)) x o M (fst init), snd init).

(** [louvainSeq(x, q, o, fm)] with [o.repeat = 1]. *)
Definition louvainSeq (x : G) (q : option (list nat)) (o : LouvainOptions W)
    (fm : list bool -> list bool) : LouvainResult :=
  let r := louvainSeqRun x q o fm in
  mkResult (ls_a (fst r)) (ls_l (fst r)) (ls_p (fst r)) (snd r).

(** What each pass of [louvainSeq(x, q, o, fm)] did, first pass first. *)
Definition louvainSeqLog (x : G) (q : option (list nat)) (o : LouvainOptions W)
    (fm : list bool -> list bool) : list PassRecord :=
  ls_log (fst (louvainSeqRun x q o fm)).

(** What [louvainMoveW] returns on the state a pass of [louvainSeq] starts
    from. *)
Definition louvainPassMove (x : G) (o : LouvainOptions W) (M : W)
    (st : LouvainState W) : Z :=
  let fc := fun (el : W) (l : Z) => wleb el (ls_E st) in
  if (ls_p st =? 0)%Z then
    fst (louvainMoveW (ls_vcom st) (ls_ctot st) (ls_vaff st) (ls_scratch st)
           x (ls_vtot st) M (resolution o) (maxIterations o) fc)
  else
    fst (louvainMoveW (ls_vcom st) (ls_ctot st) (ls_vaff st) (ls_scratch st)
           (ls_y st) (ls_vtot st) M (resolution o) (maxIterations o) fc).

(** The iteration counts [m] of the executed passes of the pass loop from
    the state [st], first pass first: each is the result of [louvainMoveW]
    on the state its pass starts from. *)
Fixpoint louvainMoverCounts (fuel : nat) (x : G) (o : LouvainOptions W) (M : W)
    (st : LouvainState W) : list Z :=
  match fuel with
  | O => []
  | S fuel' =>
      if wltb wzero M && (ls_p st <? maxPasses o)%Z then
        let r := if (ls_p st =? 0)%Z then louvainPass x o M st
                 else louvainPass (ls_y st) o M st in
        louvainPassMove x o M st
          :: (if snd r then [] else louvainMoverCounts fuel' x o M (fst r))
      else []
  end.

(** The iteration counts [m] of the executed passes of
    [louvainSeq(x, q, o, fm)]. *)
Definition louvainSeqMoverCounts (x : G) (q : option (list nat))
    (o : LouvainOptions W) (fm : list bool -> list bool) : list Z :=
  louvainMoverCounts (Z.to_nat (maxPasses o)) x o
    (wdiv (edgeWeight x) (wofnat 2)) (fst (louvainSeqInit x q o fm)).

(** [louvainStaticSeq(x, q, o)]: every vertex is marked affected. *)
Definition louvainStaticSeq (x : G) (q : option (list nat)) (o : LouvainOptions W)
    : LouvainResult :=
  louvainSeq x q o (fun vertices => fillValueU vertices true).
End Driver.

(** ** The parallel driver on one thread *)

Section DriverOmp.
Context {W G : Type} `{Weight W} `{Modularity W} `{Graph W G}.

(** The body of the pass loop of [louvainOmp] on the level graph [g], run
    on one thread: the parallel loops then visit the vertices in order and
    the [Omp] routines do what their sequential versions do.  Unlike
    [louvainSeq], the body composes the membership [a] after
    [louvainRenumberCommunitiesOmpW]. *)
Definition louvainOmpPass {G' : Type} `{Graph W G'} (g : G') (o : LouvainOptions W)
    (M : W) (st : LouvainState W) : LouvainState W * bool :=
  let isFirst := (ls_p st =? 0)%Z in
  let fc := fun (el : W) (l : Z) => wleb el (ls_E st) in
  let mv := louvainMoveW (ls_vcom st) (ls_ctot st) (ls_vaff st) (ls_scratch st)
              g (ls_vtot st) M (resolution o) (maxIterations o) fc in
  let m := fst mv in
  let vcom := mv_vcom (snd mv) in
  let ctot := mv_ctot (snd mv) in
  let vaff := mv_vaff (snd mv) in
  let scr := mv_scratch (snd mv) in
  let l := (ls_l st + Z.max m 1)%Z in
  let p := (ls_p st + 1)%Z in
  let stop := fun cv rec =>
    (mkState vcom (ls_vtot st) ctot vaff (ls_a st) scr cv (ls_y st) (ls_z st)
             (ls_E st) l p (ls_log st ++ [rec]), true) in
  if (m <=? 1)%Z || (maxPasses o <=? p)%Z then
    stop (ls_cv st) (mkPass m vcom None)
  else
    let GN := order g in
    let ex := louvainCommunityExistsW (degrees (ls_cv st)) g vcom in
    let CN := snd ex in
    let cv1 := mkCsr (offsets (ls_cv st)) (fst ex) (edgeKeys (ls_cv st))
                     (edgeValues (ls_cv st)) in
    if wleb (aggregationTolerance o) (wdiv (wofnat CN) (wofnat GN)) then
      stop cv1 (mkPass m vcom None)
    else
      let rn := louvainRenumberCommunitiesW vcom (degrees cv1) in
      let vcom1 := fst (fst rn) in
      let a := if isFirst then copyValuesW (ls_a st) vcom1
               else louvainLookupCommunitiesU (ls_a st) vcom1 in
      let cv2 := respan CN (mkCsr (offsets cv1) (snd (fst rn)) (edgeKeys cv1)
                                  (edgeValues cv1)) in
      let z1 := respan CN (ls_z st) in
      let cvv := louvainCommunityVerticesW (offsets cv2) (degrees cv2)
                   (edgeKeys cv2) g vcom1 in
      let cv3 := mkCsr (fst (fst cvv)) (snd (fst cvv)) (snd cvv) (edgeValues cv2) in
      let ag := louvainAggregateW z1 scr g vcom1 (offsets cv3) (edgeKeys cv3) in
      let y2 := fst ag in
      let z2 := ls_y st in
      let vcom2 := fillValueU vcom1 0 in
      let vtot2 := fillValueU (ls_vtot st) wzero in
      let ctot2 := fillValueU ctot wzero in
      let vaff2 := fillValueU vaff true in
      let vtot3 := louvainVertexWeightsW vtot2 y2 in
      let vc := louvainInitializeW vcom2 ctot2 y2 vtot3 in
      (mkState (fst vc) vtot3 (snd vc) vaff2 a (snd ag) cv3 y2 z2
               (wdiv (ls_E st) (toleranceDecline o)) l p
               (ls_log st ++ [mkPass m vcom (Some (snd (fst rn)))]),
       false).

(** The loop [for (l=0, p=0; M>0 && P>0;)] of [louvainOmp], which the body
    leaves by [break] once [p] reaches [P]; the recursion is on [fuel],
    the passes left until then. *)
Fixpoint louvainOmpPasses (fuel : nat) (x : G) (o : LouvainOptions W) (M : W)
    (st : LouvainState W) : LouvainState W :=
  match fuel with
  | O => st
  | S fuel' =>
      if wltb wzero M && (0 <? maxPasses o)%Z then
        let r := if (ls_p st =? 0)%Z then louvainOmpPass x o M st
                 else louvainOmpPass (ls_y st) o M st in
        if snd r then fst r else louvainOmpPasses fuel' x o M (fst r)
      else st
  end.

(** The state of [louvainOmp(x, q, o, fm)] on one thread when its pass
    loop has ended, and the number of affected vertices. *)
Definition louvainOmpRun (x : G) (q : option (list nat)) (o : LouvainOptions W)
    (fm : list bool -> list bool) : LouvainState W * nat :=
  let M := wdiv (edgeWeight x) (wofnat 2) in
  let init := louvainSeqInit x q o fm in
  (louvainOmpPasses (Z.to_nat (maxPasses o)) x o M (fst init), snd init).

(** The membership [louvainOmp] composes after its pass loop, from the
    state [st] the loop ended in. *)
Definition louvainOmpMembership (st : LouvainState W) : list nat :=
  if (ls_p st <=? 1)%Z then copyValuesW (ls_a st) (ls_vcom st)
  else louvainLookupCommunitiesU (ls_a st) (ls_vcom st).

(** [louvainOmp(x, q, o, fm)] on one thread. *)
Definition louvainOmp (x : G) (q : option (list nat)) (o : LouvainOptions W)
    (fm : list bool -> list bool) : LouvainResult :=
  let r := louvainOmpRun x q o fm in
  mkResult (louvainOmpMembership (fst r)) (ls_l (fst r)) (ls_p (fst r)) (snd r).

(** What each pass of [louvainOmp(x, q, o, fm)] did, first pass first. *)
Definition louvainOmpLog (x : G) (q : option (list nat)) (o : LouvainOptions W)
    (fm : list bool -> list bool) : list PassRecord :=
  ls_log (fst (louvainOmpRun x q o fm)).

(** [louvainStaticOmp(x, q, o)] on one thread. *)
Definition louvainStaticOmp (x : G) (q : option (list nat)) (o : LouvainOptions W)
    : LouvainResult :=
  louvainOmp x q o (fun vertices => fillValueU vertices true).
End DriverOmp.

(** The default [LouvainOptions] on doubles. *)
Definition defaultOptions : LouvainOptions float :=
  mkOptions 1%float 0x1.47ae147ae147bp-7%float 0x1.999999999999ap-1%float
            100%float 20%Z 10%Z.

(** ** Notions the statements use *)

(** The members of community [c]: the vertices [u] of [x] with
    [vcom[u] = c], in increasing order. *)
Definition members {W G : Type} `{Graph W G} (x : G) (vcom : list nat) (c : nat)
    : list nat :=
  filter (fun u => vget 0 vcom u = c) (vertexKeys x).

(** The sum of [vtot[u]] over the members of community [c]. *)
Definition communityWeight {W G : Type} `{Weight W} `{Graph W G} (x : G)
    (vcom : list nat) (vtot : list W) (c : nat) : W :=
  wsum (map (vget wzero vtot) (members x vcom c)).


(** The community tables are consistent on [x]: the vectors have length
    [S], the labels of the vertices are below [S], and [ctot[c]] is the sum
    of [vtot[u]] over the members of [c]. *)
Definition tablesOk {W G : Type} `{Weight W} `{Graph W G} (x : G) (S : nat)
    (vtot : list W) (vcom : list nat) (ctot : list W) : Prop :=
  span x <= S /\ length vcom = S /\ length ctot = S /\
  (forall u, u ∈ vertexKeys x -> vget 0 vcom u < S) /\
  (forall c, c < S -> vget wzero ctot c = communityWeight x vcom vtot c).

(** The out-edges of the members of community [c], in the order the
    aggregation scans them. *)
Definition communityEdges {W G : Type} `{Graph W G} (x : G) (vcom : list nat)
    (c : nat) : list (nat * W) :=
  concat (map (edgesOf x) (members x vcom c)).

(** The sum of the weights of the edges of [x] from community [c] into
    community [d]. *)
Definition linkWeight {W G : Type} `{Weight W} `{Graph W G} (x : G)
    (vcom : list nat) (c d : nat) : W :=
  wsum (map snd (filter (fun e => vget 0 vcom (fst e) = d) (communityEdges x vcom c))).

(** The sum of the weights of the edges of [x] from [u] to [v]. *)
Definition weightTo {W G : Type} `{Weight W} `{Graph W G} (x : G) (u v : nat) : W :=
  wsum (map snd (filter (fun e => fst e = v) (edgesOf x u))).

(** [x] is symmetric: w(u,v) = w(v,u) for its vertices. *)
Definition symmetricGraph {W G : Type} `{Weight W} `{Graph W G} (x : G) : Prop :=
  forall u v, u ∈ vertexKeys x -> v ∈ vertexKeys x -> weightTo x u v = weightTo x v u.

(** The internal weight of community [c]: the weight of its undirected
    edges between distinct members, each pair [u < v] taken once. *)
Definition internalWeight {W G : Type} `{Weight W} `{Graph W G} (x : G)
    (vcom : list nat) (c : nat) : W :=
  wsum (map (fun u => wsum (map (weightTo x u)
                                (filter (fun v => u < v) (members x vcom c))))
            (members x vcom c)).

(** The sum of the self-loop weights of the members of community [c]. *)
Definition selfLoopWeight {W G : Type} `{Weight W} `{Graph W G} (x : G)
    (vcom : list nat) (c : nat) : W :=
  wsum (map (fun u => weightTo x u u) (members x vcom c)).

(** The scans of [louvainScanCommunitiesW<true>] over a list of edges;
    with [SELF] set the scanning vertex plays no role. *)
Definition scanEdges {W : Type} `{Weight W} (s : Scratch W) (vcom : list nat)
    (es : list (nat * W)) : Scratch W :=
  foldl (fun s e => louvainScanCommunityW true s 0 (fst e) (snd e) vcom) s es.

(** The scratch after scanning the edges [es] of positive weight from a
    clean scratch of length [n]: [vcs] lists each community touched once,
    and [vcout[d]] is the sum of the weights of the edges into [d]. *)
Definition scanInv {W : Type} `{Weight W} (vcom : list nat) (n : nat)
    (es : list (nat * W)) (s : Scratch W) : Prop :=
  NoDup (vcs s) /\ length (vcout s) = n /\ length (vcs s) <= length es /\
  (forall e, e ∈ es -> vget 0 vcom (fst e) ∈ vcs s) /\
  (forall d, d ∈ vcs s -> d < n /\ wpos (vget wzero (vcout s) d)) /\
  (forall d, d ∉ vcs s -> vget wzero (vcout s) d = wzero) /\
  (forall d, d < n ->
     vget wzero (vcout s) d
     = wsum (map snd (filter (fun e => vget 0 vcom (fst e) = d) es))).

(** The state of the community loop of [louvainAggregateEdgesW] when the
    communities below [k] are done: the scratch satisfies its invariant,
    each community [c] below [k] has as its edges in [y] the communities
    its scan touched with the weights accumulated, and the degrees from
    [k] on are still zero.  [n] is the length of [vcout] and [ld] that of
    [ydeg]. *)
Definition aggInv {W G : Type} `{Weight W} `{Graph W G} (x : G)
    (vcom yoff : list nat) (n ld k : nat)
    (st : list nat * list nat * list W * Scratch W) : Prop :=
  scratchClean (snd st) /\ length (vcout (snd st)) = n /\
  length (fst (fst (fst st))) = ld /\
  (forall c, c < k ->
     vget 0 (fst (fst (fst st))) c
     = length (vcs (scanEdges (mkScratch [] (replicate n wzero)) vcom
                      (communityEdges x vcom c))) /\
     forall j d,
       vcs (scanEdges (mkScratch [] (replicate n wzero)) vcom
              (communityEdges x vcom c)) !! j = Some d ->
       snd (fst (fst st)) !! (vget 0 yoff c + j) = Some d /\
       snd (fst st) !! (vget 0 yoff c + j)
       = Some (vget wzero (vcout (scanEdges (mkScratch [] (replicate n wzero)) vcom
                                    (communityEdges x vcom c))) d)) /\
  (forall c, k <= c -> vget 0 (fst (fst (fst st))) c = 0).

(** The label the per-level assignments give [c]: through each level's
    [vcom], and through that level's renumbering when the level was
    aggregated, bottom level first. *)
Fixpoint walkLevels (log : list PassRecord) (c : nat) : nat :=
  match log with
  | [] => c
  | r :: log' =>
      let c1 := vget 0 (pr_vcom r) c in
      walkLevels log' (match pr_renumber r with
                       | Some cext => vget 0 cext c1
                       | None => c1
                       end)
  end.

(** A log with its renumberings left out: walking it composes the
    per-level [vcom] alone. *)
Definition withoutRenumbering (log : list PassRecord) : list PassRecord :=
  map (fun r => mkPass (pr_m r) (pr_vcom r) None) log.

(** A driver state with the membership [a] left out: what the pass loops
    of [louvainSeq] and [louvainOmp] share. *)
Definition forgetMembership {W : Type} (st : LouvainState W) : LouvainState W :=
  mkState (ls_vcom st) (ls_vtot st) (ls_ctot st) (ls_vaff st) [] (ls_scratch st)
          (ls_cv st) (ls_y st) (ls_z st) (ls_E st) (ls_l st) (ls_p st) (ls_log st).

(** The sum of [f m] over the iteration counts [ms]. *)
Definition sumCounts (f : Z -> Z) (ms : list Z) : Z :=
  foldr (fun m n => (f m + n)%Z) 0%Z ms.

(** ** Example inputs *)

(** Two isolated vertices. *)
Definition isolated2 : DiGraph float := [Some []; Some []].

(** One vertex with a self-loop of weight 1. *)
Definition selfLoop1 : DiGraph float := [Some [(0, 1%float)]].

(** Three disjoint triangles on the vertices 0..8, every weight 1. *)
Definition triangles3 : DiGraph float :=
  [Some [(1, 1%float); (2, 1%float)]; Some [(0, 1%float); (2, 1%float)];
   Some [(0, 1%float); (1, 1%float)];
   Some [(4, 1%float); (5, 1%float)]; Some [(3, 1%float); (5, 1%float)];
   Some [(3, 1%float); (4, 1%float)];
   Some [(7, 1%float); (8, 1%float)]; Some [(6, 1%float); (8, 1%float)];
   Some [(6, 1%float); (7, 1%float)]].

(** A triangle with a heavy edge 0-2 (weight 10) and light edges 0-1 and
    1-2 (weight 1). *)
Definition heavyTriangle : DiGraph float :=
  [Some [(2, 10%float); (1, 1%float)]; Some [(0, 1%float); (2, 1%float)];
   Some [(0, 10%float); (1, 1%float)]].

(** The path 0-1-2 on integer weights: edge 0-1 of weight 2 and edge 1-2
    of weight 3. *)
Definition pathZ : DiGraph Z :=
  [Some [(1, 2%Z)]; Some [(0, 2%Z); (2, 3%Z)]; Some [(1, 3%Z)]].

(** A symmetric graph on integer weights with an edge of weight zero:
    edge 0-1 of weight 0 and edge 0-2 of weight 5. *)
Definition zeroEdgeZ : DiGraph Z :=
  [Some [(1, 0%Z); (2, 5%Z)]; Some [(0, 0%Z)]; Some [(0, 5%Z)]].



(** A star on doubles with centre 2: edges 2-0 and 2-1 of weight 1 and
    edge 2-3 of weight 2^53, the heavy edge first at the centre. *)
Definition unevenStar4 : DiGraph float :=
  [Some [(2, 1%float)]; Some [(2, 1%float)];
   Some [(3, 0x1p53%float); (0, 1%float); (1, 1%float)]; Some [(2, 0x1p53%float)]].

(** 300 isolated vertices. *)
Definition isolated300 : DiGraph Z := replicate 300 (Some []).

(** * Theorems *)

(** ** Vectors *)

Lemma vget_lookup {A : Type} (d : A) (a : list A) (i : nat) (v : A) :
  a !! i = Some v -> vget d a i = v.
Proof. unfold vget. intros ->. reflexivity. Qed.

Lemma vget_ge {A : Type} (d : A) (a : list A) (i : nat) :
  length a <= i -> vget d a i = d.
Proof. unfold vget. intros Hi. rewrite lookup_ge_None_2 by lia. reflexivity. Qed.

Lemma lookup_vget {A : Type} (d : A) (a : list A) (i : nat) :
  i < length a -> a !! i = Some (vget d a i).
Proof.
  intros Hi. destruct (lookup_lt_is_Some_2 a i Hi) as [v Hv].
  rewrite Hv. f_equal. symmetry. apply vget_lookup. exact Hv.
Qed.

Lemma vget_insert_eq {A : Type} (d : A) (a : list A) (i : nat) (v : A) :
  i < length a -> vget d (<[i := v]> a) i = v.
Proof. intros Hi. apply vget_lookup. apply list_lookup_insert_eq. exact Hi. Qed.

Lemma vget_insert_ne {A : Type} (d : A) (a : list A) (i j : nat) (v : A) :
  i <> j -> vget d (<[i := v]> a) j = vget d a j.
Proof. intros Hij. unfold vget. rewrite list_lookup_insert_ne by exact Hij. reflexivity. Qed.

Lemma vget_replicate {A : Type} (d : A) (n i : nat) : vget d (replicate n d) i = d.
Proof.
  unfold vget. destruct (replicate n d !! i) as [v|] eqn:E; [|reflexivity].
  apply lookup_replicate in E. simpl. apply E.
Qed.

(** Writing [v] at every index of [cs]: the indices listed hold [v], the
    others keep their entry. *)
Lemma lookup_foldl_insert {A : Type} (v : A) (cs : list nat) (a : list A) (i : nat) :
  foldl (fun o c => <[c := v]> o) a cs !! i
  = if decide (i ∈ cs) then (fun _ => v) <$> (a !! i) else a !! i.
Proof.
  revert a. induction cs as [|c cs IH]; intros a; simpl.
  - destruct (decide (i ∈ [])) as [Hin|_]; [inversion Hin | reflexivity].
  - rewrite IH. destruct (decide (c = i)) as [->|Hne].
    + destruct (decide (i ∈ cs)), (decide (i ∈ i :: cs)) as [|Hn];
        try (exfalso; apply Hn; constructor).
      * destruct (lt_dec i (length a)).
        -- rewrite list_lookup_insert_eq by lia.
           destruct (lookup_lt_is_Some_2 a i ltac:(lia)) as [? ->]. reflexivity.
        -- rewrite list_insert_ge by lia. reflexivity.
      * destruct (lt_dec i (length a)).
        -- rewrite list_lookup_insert_eq by lia.
           destruct (lookup_lt_is_Some_2 a i ltac:(lia)) as [? ->]. reflexivity.
        -- rewrite list_insert_ge by lia. rewrite lookup_ge_None_2 by lia. reflexivity.
    + rewrite list_lookup_insert_ne by exact Hne.
      destruct (decide (i ∈ cs)) as [Hin|Hnin], (decide (i ∈ c :: cs)) as [Hin'|Hnin'];
        try reflexivity.
      * exfalso. apply Hnin'. right. exact Hin.
      * exfalso. apply elem_of_cons in Hin' as [->|?]; [congruence|contradiction].
Qed.

Lemma length_foldl_insert {A : Type} (v : A) (cs : list nat) (a : list A) :
  length (foldl (fun o c => <[c := v]> o) a cs) = length a.
Proof.
  revert a. induction cs as [|c cs IH]; intros a; simpl; [reflexivity|].
  rewrite IH. apply length_insert.
Qed.

(** ** The scratch hashtable *)

Section HashtableFacts.
Context {W : Type} `{Weight W}.

Lemma louvainScanCommunityW_length (SELF : bool) (s : Scratch W) (u v : nat)
    (w : W) (vcom : list nat) :
  length (vcout (louvainScanCommunityW SELF s u v w vcom)) = length (vcout s).
Proof.
  unfold louvainScanCommunityW.
  destruct (negb SELF && (u =? v)); [reflexivity|]. simpl. apply length_insert.
Qed.

(** A scan keeps the scratch invariant: the community it adds to is
    listed, either already or by this call. *)
Lemma louvainScanCommunityW_clean (SELF : bool) (s : Scratch W) (u v : nat)
    (w : W) (vcom : list nat) :
  scratchClean s -> scratchClean (louvainScanCommunityW SELF s u v w vcom).
Proof.
  intros Hs. unfold louvainScanCommunityW.
  destruct (negb SELF && (u =? v)); [exact Hs|].
  set (c := vget 0 vcom v). intros i x. simpl.
  destruct (decide (c = i)) as [<-|Hne].
  - intros Hx Hnin. exfalso.
    destruct (wtruthy (vget wzero (vcout s) c)) eqn:Ht.
    + assert (Hc : c < length (vcout s)).
      { apply lookup_lt_Some in Hx. rewrite length_insert in Hx. exact Hx. }
      rewrite (Hs c _ (lookup_vget wzero _ _ Hc) Hnin) in Ht.
      rewrite wtruthy_zero in Ht. discriminate.
    + apply Hnin. apply elem_of_app. right. constructor.
  - rewrite list_lookup_insert_ne by exact Hne. intros Hx Hnin.
    apply (Hs i x Hx). intros Hin. apply Hnin.
    destruct (wtruthy (vget wzero (vcout s) c)); [exact Hin|].
    apply elem_of_app. left. exact Hin.
Qed.

Lemma runScans_clean (calls : list (ScanCall W)) (s : Scratch W) :
  scratchClean s -> scratchClean (runScans s calls).
Proof.
  revert s. induction calls as [|k calls IH]; intros s Hs; [exact Hs|].
  apply IH. apply louvainScanCommunityW_clean. exact Hs.
Qed.

Lemma runScans_length (calls : list (ScanCall W)) (s : Scratch W) :
  length (vcout (runScans s calls)) = length (vcout s).
Proof.
  revert s. induction calls as [|k calls IH]; intros s; [reflexivity|].
  unfold runScans in *. simpl. rewrite IH. apply louvainScanCommunityW_length.
Qed.

(** Clearing a scratch that satisfies the invariant leaves every entry of
    [vcout] at [W()]. *)
Lemma louvainClearScanW_clean (s : Scratch W) :
  scratchClean s ->
  louvainClearScanW s = mkScratch [] (replicate (length (vcout s)) wzero).
Proof.
  intros Hs. unfold louvainClearScanW. f_equal.
  apply list_eq. intros i. rewrite lookup_foldl_insert.
  destruct (lt_dec i (length (vcout s))) as [Hi|Hi].
  - rewrite (lookup_replicate_2 _ _ _ Hi).
    destruct (lookup_lt_is_Some_2 _ _ Hi) as [w Hw]. rewrite Hw.
    destruct (decide (i ∈ vcs s)) as [|Hnin]; [reflexivity|].
    rewrite (Hs i w Hw Hnin). reflexivity.
  - rewrite !lookup_ge_None_2; [| rewrite length_replicate; lia | lia].
    destruct (decide (i ∈ vcs s)); reflexivity.
Qed.

Lemma scratchClean_fresh (S : nat) : scratchClean (mkScratch [] (replicate S wzero)).
Proof. intros c w Hw _. apply lookup_replicate in Hw. apply Hw. Qed.

(** C9: from an all-zero [vcout] and an empty [vcs], any sequence of
    [louvainScanCommunityW] calls followed by one [louvainClearScanW]
    leaves every entry of [vcout] zero and [vcs] empty. *)
Theorem scan_then_clear_is_clean (S : nat) (calls : list (ScanCall W)) :
  let s := louvainClearScanW (runScans (mkScratch [] (replicate S wzero)) calls) in
  vcs s = [] /\ vcout s = replicate S wzero.
Proof.
  assert (Hc := runScans_clean calls _ (scratchClean_fresh S)).
  rewrite (louvainClearScanW_clean _ Hc). simpl.
  rewrite runScans_length. simpl. rewrite length_replicate. split; reflexivity.
Qed.
End HashtableFacts.

(** ** Moving a vertex *)

Section ChangeFacts.
Context {W : Type} `{Weight W}.

(** C10: [louvainChangeCommunityW(vcom, ctot, x, u, c, vtot)], with [d] the
    community of [u] on entry, sets [vcom[u]] to [c], decreases [ctot[d]]
    by [vtot[u]] and increases [ctot[c]] by [vtot[u]]; every other entry
    of [vcom] and of [ctot] is unchanged, and [vtot], passed by const
    reference, is only read. *)
Theorem louvainChangeCommunityW_frame (vcom : list nat) (ctot vtot : list W)
    (u c : nat) :
  let d := vget 0 vcom u in
  let r := louvainChangeCommunityW vcom ctot u c vtot in
  u < length vcom -> d < length ctot -> c < length ctot ->
  (length (fst r) = length vcom /\ length (snd r) = length ctot) /\
  (fst r !! u = Some c /\ forall i, i <> u -> fst r !! i = vcom !! i) /\
  (forall j, j <> d -> j <> c -> snd r !! j = ctot !! j) /\
  (c <> d ->
   snd r !! d = Some (wsub (vget wzero ctot d) (vget wzero vtot u)) /\
   snd r !! c = Some (wadd (vget wzero ctot c) (vget wzero vtot u))) /\
  (c = d ->
   snd r !! d = Some (wadd (wsub (vget wzero ctot d) (vget wzero vtot u))
                           (vget wzero vtot u))).
Proof.
  intros d r Hu Hd Hc. unfold r, louvainChangeCommunityW. fold d. simpl.
  repeat split.
  - apply length_insert.
  - rewrite !length_insert. reflexivity.
  - apply list_lookup_insert_eq. exact Hu.
  - intros i Hi. apply list_lookup_insert_ne. congruence.
  - intros j Hjd Hjc. rewrite !list_lookup_insert_ne by congruence. reflexivity.
  - rewrite list_lookup_insert_ne by congruence.
    apply list_lookup_insert_eq. exact Hd.
  - rewrite list_lookup_insert_eq by (rewrite length_insert; exact Hc).
    rewrite vget_insert_ne by congruence. reflexivity.
  - intros ->. rewrite list_lookup_insert_eq by (rewrite length_insert; exact Hd).
    rewrite vget_insert_eq by exact Hd. reflexivity.
Qed.
End ChangeFacts.

(** The frame of a move on integer weights: vertex 0 moves from community
    0 to community 1. *)
Lemma louvainChangeCommunityW_frame_witness :
  let vcom := [0; 1; 2] in
  let ctot := [3; 4; 5]%Z in
  let r := louvainChangeCommunityW vcom ctot 0 1 [3; 4; 5]%Z in
  (0 < length vcom /\ vget 0 vcom 0 < length ctot /\ 1 < length ctot) /\
  r = ([1; 1; 2], [0; 7; 5]%Z) /\
  (forall j, j <> 0 -> j <> 1 -> snd r !! j = ctot !! j).
Proof.
  split; [unfold vget; simpl; lia|]. split; [reflexivity|].
  apply (louvainChangeCommunityW_frame [0; 1; 2] [3; 4; 5]%Z [3; 4; 5]%Z 0 1);
    unfold vget; simpl; lia.
Defined.

(** ** The scorer *)

Section ChooseFacts.
Context {W : Type} `{Weight W} `{Modularity W}.

(** When no candidate other than [d] has a delta-modularity above [W()],
    the scorer returns [(K(), W())]. *)
Lemma louvainChooseCommunity_no_gain (u : nat) (vcom : list nat)
    (vtot ctot : list W) (s : Scratch W) (M R : W) :
  (forall c, c ∈ vcs s -> c <> vget 0 vcom u ->
     wltb wzero (deltaModularity (vget wzero (vcout s) c)
                   (vget wzero (vcout s) (vget 0 vcom u)) (vget wzero vtot u)
                   (vget wzero ctot c) (vget wzero ctot (vget 0 vcom u)) M R) = false) ->
  louvainChooseCommunity false u vcom vtot ctot s M R = (0, wzero).
Proof.
  unfold louvainChooseCommunity. generalize (vcs s) as cs.
  induction cs as [|c cs IH]; intros Hno; [reflexivity|]. simpl.
  unfold chooseStep at 2. simpl.
  destruct (c =? vget 0 vcom u) eqn:E.
  - apply IH. intros c' Hc'. apply Hno. right. exact Hc'.
  - apply Nat.eqb_neq in E. rewrite (Hno c) by (constructor || exact E).
    apply IH. intros c' Hc'. apply Hno. right. exact Hc'.
Qed.
End ChooseFacts.

(** C2: on the heavy triangle with the partition {0,2}, {1}, the scorer
    finds for vertex 1 the candidate community 0 with a delta-modularity
    above zero, and the local mover leaves vertex 1 where it is: a best
    community equal to [K()] is taken for "no move".  The whole
    [louvainMoveW] ends after two iterations with the partition
    unchanged. *)
Theorem louvainMoveVertex_skips_community_zero :
  let vtot := louvainVertexWeightsW (replicate 3 wzero) heavyTriangle in
  let vc := louvainInitializeFromW (replicate 3 0) (replicate 3 wzero)
              heavyTriangle vtot [0; 1; 0] in
  let M := wdiv (edgeWeight heavyTriangle) (wofnat 2) in
  let st := mkMove (fst vc) (snd vc) [true; true; true]
              (mkScratch [] (replicate 3 wzero)) wzero in
  let s2 := louvainScanCommunitiesW false (louvainClearScanW (mv_scratch st))
              heavyTriangle 1 (fst vc) in
  let ce := louvainChooseCommunity false 1 (fst vc) vtot (snd vc) s2 M 1%float in
  let mv := louvainMoveW (fst vc) (snd vc) [true; true; true]
              (mkScratch [] (replicate 3 wzero)) heavyTriangle vtot M 1%float 20%Z
              (fun el _ => wleb el (tolerance defaultOptions)) in
  fst vc = [0; 1; 0] /\ vcs s2 = [0] /\
  fst ce = 0 /\ wltb wzero (snd ce) = true /\
  mv_vcom (louvainMoveVertex heavyTriangle vtot M 1%float st 1) = [0; 1; 0] /\
  fst mv = 2%Z /\ mv_vcom (snd mv) = [0; 1; 0].
Proof. vm_compute. repeat split; reflexivity. Qed.

(** ** The pass driver *)

Section MoveFacts.
Context {W G : Type} `{Weight W} `{Modularity W} `{Graph W G}.

(** More fuel than the iterations left before [l] reaches [L] changes
    nothing. *)
Lemma louvainMoveLoop_fuel (fuel : nat) (x : G) (vtot : list W) (M R : W) (L : Z)
    (fc : W -> Z -> bool) (l : Z) (st : MoveState W) :
  Z.to_nat (L - l) <= fuel ->
  louvainMoveLoop fuel x vtot M R L fc l st
  = louvainMoveLoop (Z.to_nat (L - l)) x vtot M R L fc l st.
Proof.
  revert l st. induction fuel as [|fuel IH]; intros l st Hf.
  - replace (Z.to_nat (L - l)) with 0 by lia. reflexivity.
  - simpl. destruct (Z.ltb_spec l L) as [Hlt|Hge].
    + replace (Z.to_nat (L - l)) with (S (Z.to_nat (L - (l + 1)))) by lia.
      simpl. destruct (Z.ltb_spec l L) as [_|?]; [|lia].
      destruct (fc _ l); [reflexivity|]. apply IH. lia.
    + replace (Z.to_nat (L - l)) with 0 by lia. reflexivity.
Qed.
End MoveFacts.

Section DriverFacts.
Context {W G : Type} `{Weight W} `{Modularity W} `{Graph W G}.

(** One pass adds [max(m, 1)] to [l], one to [p] and one record to the
    log, whose [m] is what the local mover returned. *)
Lemma louvainPass_counts {G' : Type} `{Graph W G'} (g : G') (o : LouvainOptions W)
    (M : W) (st : LouvainState W) :
  let m := fst (louvainMoveW (ls_vcom st) (ls_ctot st) (ls_vaff st) (ls_scratch st)
                  g (ls_vtot st) M (resolution o) (maxIterations o)
                  (fun el _ => wleb el (ls_E st))) in
  let st' := fst (louvainPass g o M st) in
  ls_l st' = (ls_l st + Z.max m 1)%Z /\
  ls_p st' = (ls_p st + 1)%Z /\
  exists vcom ren, ls_log st' = ls_log st ++ [mkPass m vcom ren].
Proof.
  intros m st'. unfold st', louvainPass. fold m.
  destruct ((m <=? 1)%Z || (maxPasses o <=? ls_p st + 1)%Z); simpl.
  - repeat split; eauto.
  - match goal with |- context [if ?b then _ else _] => destruct b end; simpl;
      repeat split; eauto.
Qed.

(** In every branch of the pass body the membership [a] is composed with
    [vcom] as the local mover left it, before any renumbering. *)
Lemma louvainPass_membership {G' : Type} `{Graph W G'} (g : G') (o : LouvainOptions W)
    (M : W) (st : LouvainState W) :
  let vcom := mv_vcom (snd (louvainMoveW (ls_vcom st) (ls_ctot st) (ls_vaff st)
                              (ls_scratch st) g (ls_vtot st) M (resolution o)
                              (maxIterations o) (fun el _ => wleb el (ls_E st)))) in
  ls_a (fst (louvainPass g o M st))
  = if (ls_p st =? 0)%Z then copyValuesW (ls_a st) vcom
    else louvainLookupCommunitiesU (ls_a st) vcom.
Proof.
  intros vcom. unfold louvainPass. fold vcom.
  match goal with |- context [if ?b || ?c then _ else _] => destruct (b || c) end;
    [reflexivity|].
  match goal with |- context [if wleb ?a ?b then _ else _] => destruct (wleb a b) end;
    reflexivity.
Qed.

(** The pass loop adds to [l] the sum of [max(m, 1)] over the iteration
    counts of its passes, adds their number to [p], and logs them. *)
Lemma louvainPasses_counts (fuel : nat) (x : G) (o : LouvainOptions W) (M : W)
    (st : LouvainState W) :
  let st' := louvainPasses fuel x o M st in
  let ms := louvainMoverCounts fuel x o M st in
  ls_l st' = (ls_l st + sumCounts (fun m => Z.max m 1) ms)%Z /\
  ls_p st' = (ls_p st + Z.of_nat (length ms))%Z /\
  map pr_m (ls_log st') = map pr_m (ls_log st) ++ ms.
Proof.
  revert st. induction fuel as [|fuel IH]; intros st; simpl.
  { rewrite app_nil_r. repeat split; lia. }
  destruct (wltb wzero M && (ls_p st <? maxPasses o)%Z);
    [|simpl; rewrite app_nil_r; repeat split; lia].
  unfold louvainPassMove.
  assert (Hstep : forall (r : LouvainState W * bool) (m : Z),
            ls_l (fst r) = (ls_l st + Z.max m 1)%Z ->
            ls_p (fst r) = (ls_p st + 1)%Z ->
            (exists vcom ren, ls_log (fst r) = ls_log st ++ [mkPass m vcom ren]) ->
            let st' := if snd r then fst r else louvainPasses fuel x o M (fst r) in
            let ms := m :: (if snd r then [] else louvainMoverCounts fuel x o M (fst r)) in
            ls_l st' = (ls_l st + sumCounts (fun m => Z.max m 1) ms)%Z /\
            ls_p st' = (ls_p st + Z.of_nat (length ms))%Z /\
            map pr_m (ls_log st') = map pr_m (ls_log st) ++ ms).
  { intros r m El Ep (vcom & ren & Elog). destruct (snd r); simpl.
    - rewrite El, Ep, Elog, map_app. simpl. repeat split; lia.
    - destruct (IH (fst r)) as (Il & Ip & Ilog).
      rewrite Il, Ip, Ilog, El, Ep, Elog, map_app, <- app_assoc. simpl.
      repeat split; lia. }
  destruct (ls_p st =? 0)%Z.
  - destruct (louvainPass_counts x o M st) as (El & Ep & Elog).
    apply (Hstep _ _ El Ep Elog).
  - destruct (louvainPass_counts (ls_y st) o M st) as (El & Ep & Elog).
    apply (Hstep _ _ El Ep Elog).
Qed.

(** More fuel than the passes left before [p] reaches [P] changes
    nothing. *)
Lemma louvainPasses_fuel (fuel : nat) (x : G) (o : LouvainOptions W) (M : W)
    (st : LouvainState W) :
  Z.to_nat (maxPasses o - ls_p st) <= fuel ->
  louvainPasses fuel x o M st
  = louvainPasses (Z.to_nat (maxPasses o - ls_p st)) x o M st.
Proof.
  revert st. induction fuel as [|fuel IH]; intros st Hf.
  - replace (Z.to_nat (maxPasses o - ls_p st)) with 0 by lia. reflexivity.
  - simpl. destruct (wltb wzero M) eqn:EM; simpl.
    + destruct (Z.ltb_spec (ls_p st) (maxPasses o)) as [Hlt|Hge].
      * replace (Z.to_nat (maxPasses o - ls_p st))
          with (S (Z.to_nat (maxPasses o - (ls_p st + 1)))) by lia.
        simpl. rewrite EM. simpl.
        destruct (Z.ltb_spec (ls_p st) (maxPasses o)) as [_|?]; [|lia].
        assert (Hp : forall r : LouvainState W * bool,
                  ls_p (fst r) = (ls_p st + 1)%Z ->
                  (if snd r then fst r else louvainPasses fuel x o M (fst r))
                  = (if snd r then fst r
                     else louvainPasses (Z.to_nat (maxPasses o - (ls_p st + 1))) x o M
                            (fst r))).
        { intros r Hr. destruct (snd r); [reflexivity|].
          rewrite IH by lia. rewrite Hr. reflexivity. }
        destruct (ls_p st =? 0)%Z.
        -- apply Hp. apply (louvainPass_counts x o M st).
        -- apply Hp. apply (louvainPass_counts (ls_y st) o M st).
      * replace (Z.to_nat (maxPasses o - ls_p st)) with 0 by lia. reflexivity.
    + destruct (Z.to_nat (maxPasses o - ls_p st)); simpl; [reflexivity|].
      rewrite EM. reflexivity.
Qed.

(** C4, as the code has it: the [iterations] of the result is the sum over
    the executed passes of [max(m, 1)], where [m] is the iteration count
    the local mover returned for the pass, so a pass whose local mover
    returned 0 contributes 1; and [passes] is the number of executed
    passes. *)
Theorem louvainSeq_iterations (x : G) (q : option (list nat))
    (o : LouvainOptions W) (fm : list bool -> list bool) :
  iterations (louvainSeq x q o fm)
  = sumCounts (fun m => Z.max m 1) (louvainSeqMoverCounts x q o fm) /\
  passes (louvainSeq x q o fm) = Z.of_nat (length (louvainSeqMoverCounts x q o fm)) /\
  map pr_m (louvainSeqLog x q o fm) = louvainSeqMoverCounts x q o fm.
Proof.
  destruct (louvainPasses_counts (Z.to_nat (maxPasses o)) x o
              (wdiv (edgeWeight x) (wofnat 2)) (fst (louvainSeqInit x q o fm)))
    as (El & Ep & Elog).
  change (ls_l (fst (louvainSeqInit x q o fm))) with 0%Z in El.
  change (ls_p (fst (louvainSeqInit x q o fm))) with 0%Z in Ep.
  change (ls_log (fst (louvainSeqInit x q o fm))) with (@nil PassRecord) in Elog.
  unfold louvainSeq, louvainSeqLog, louvainSeqMoverCounts, louvainSeqRun.
  cbv zeta. cbn [iterations passes fst snd].
  rewrite El, Ep, Elog. repeat split; lia.
Qed.

(** C3, as the code has it: when [M > 0] does not hold the pass loop is not
    entered, and the result has 0 iterations, 0 passes and the membership
    [a] as it was value-initialised, every entry [K()]. *)
Theorem louvainSeq_weightless (x : G) (q : option (list nat))
    (o : LouvainOptions W) (fm : list bool -> list bool) :
  wltb wzero (wdiv (edgeWeight x) (wofnat 2)) = false ->
  louvainSeq x q o fm
  = mkResult (replicate (span x) 0) 0 0 (sumValues (fm (replicate (span x) false))).
Proof.
  intros HM. unfold louvainSeq, louvainSeqRun, louvainSeqInit. simpl.
  destruct (Z.to_nat (maxPasses o)); simpl; [reflexivity|].
  rewrite HM. reflexivity.
Qed.
End DriverFacts.

(** On two isolated vertices [M] is zero and both vertices are returned in
    community 0, where the identity map has [0; 1]. *)
Lemma louvainSeq_weightless_witness :
  wltb wzero (wdiv (edgeWeight isolated2) (wofnat 2)) = false /\
  louvainStaticSeq isolated2 None defaultOptions = mkResult [0; 0] 0 0 2 /\
  membership (louvainStaticSeq isolated2 None defaultOptions) <> seq 0 (span isolated2).
Proof.
  split; [reflexivity|]. split.
  - exact (louvainSeq_weightless isolated2 None defaultOptions
             (fun v => fillValueU v true) eq_refl).
  - vm_compute. discriminate.
Defined.

(** A single vertex with a self-loop: the one pass has [m = 0] and the
    result has 1 iteration, not the sum of [m]. *)
Lemma louvainSeq_iterations_not_sum_of_m :
  louvainSeqMoverCounts selfLoop1 None defaultOptions (fun v => fillValueU v true)
  = [0%Z] /\
  iterations (louvainStaticSeq selfLoop1 None defaultOptions) = 1%Z /\
  iterations (louvainStaticSeq selfLoop1 None defaultOptions)
  <> sumCounts (fun m => m)
       (louvainSeqMoverCounts selfLoop1 None defaultOptions
          (fun v => fillValueU v true)).
Proof. vm_compute. repeat split; discriminate. Qed.

(** C1, as the code has it: on three disjoint triangles the first pass
    labels them 1, 4 and 7, renumbered 0, 1 and 2 for the next level, whose
    pass keeps them apart; walking the levels gives the memberships
    0, 1 and 2, and [louvainSeq], which composed [a] with the labels before
    they were renumbered, returns 1 for the first triangle and 0 for both
    others. *)
Theorem louvainSeq_membership_misses_renumbering :
  let log := louvainSeqLog triangles3 None defaultOptions
               (fun v => fillValueU v true) in
  log = [mkPass 2 [1; 1; 1; 4; 4; 4; 7; 7; 7] (Some [0; 0; 1; 1; 1; 2; 2; 2; 3]);
         mkPass 0 [0; 1; 2; 0; 0; 0; 0; 0; 0] None] /\
  map (walkLevels log) (vertexKeys triangles3) = [0; 0; 0; 1; 1; 1; 2; 2; 2] /\
  membership (louvainStaticSeq triangles3 None defaultOptions)
  = [1; 1; 1; 0; 0; 0; 0; 0; 0].
Proof. vm_compute. repeat split; reflexivity. Qed.

(** The sibling driver [louvainOmp], on one thread, returns on the three
    triangles the memberships that walking the levels gives, and on two
    isolated vertices the identity. *)
Lemma louvainOmp_membership_examples :
  membership (louvainStaticOmp triangles3 None defaultOptions)
  = [0; 0; 0; 1; 1; 1; 2; 2; 2] /\
  louvainStaticOmp isolated2 None defaultOptions = mkResult [0; 1] 0 0 2.
Proof. vm_compute. split; reflexivity. Qed.

(** ** Sums of exact weights *)

#[export] Instance ZExactWeight : ExactWeight Z.
Proof. split; simpl; intros; lia. Qed.

#[export] Instance ZPositiveWeight : PositiveWeight Z.
Proof.
  split; unfold wpos; simpl; intros.
  - apply Z.ltb_lt. apply Z.ltb_lt in H, H0. lia.
  - apply Z.ltb_lt in H. destruct (Z.eqb_spec a 0); [lia | reflexivity].
Qed.

Section ExactSums.
Context {W : Type} `{ExactWeight W}.

Lemma wadd_zero_r (a : W) : wadd a wzero = a.
Proof. rewrite wadd_comm. apply wadd_zero_l. Qed.

Lemma foldl_wadd (acc : W) (l : list W) : foldl wadd acc l = wadd acc (wsum l).
Proof.
  unfold wsum. revert acc. induction l as [|a l IH]; intros acc; simpl.
  - symmetry. apply wadd_zero_r.
  - rewrite IH. rewrite (IH (wadd wzero a)). rewrite wadd_zero_l.
    symmetry. apply wadd_assoc.
Qed.

Lemma wsum_nil : wsum (@nil W) = wzero.
Proof. reflexivity. Qed.

Lemma wsum_cons (a : W) (l : list W) : wsum (a :: l) = wadd a (wsum l).
Proof. unfold wsum at 1. simpl. rewrite foldl_wadd, wadd_zero_l. reflexivity. Qed.

Lemma wsum_app (l1 l2 : list W) : wsum (l1 ++ l2) = wadd (wsum l1) (wsum l2).
Proof.
  induction l1 as [|a l1 IH]; simpl.
  - rewrite wsum_nil, wadd_zero_l. reflexivity.
  - rewrite !wsum_cons, IH. apply wadd_assoc.
Qed.


Lemma wadd_swap (a b c : W) : wadd a (wadd b c) = wadd b (wadd a c).
Proof. rewrite !wadd_assoc. f_equal. apply wadd_comm. Qed.


Lemma wadd_cancel_r (a b c : W) : wadd a c = wadd b c -> a = b.
Proof. intros E. rewrite <- (wsub_add a c), E. apply wsub_add. Qed.

Lemma wsum_zeros {A : Type} (l : list A) : wsum (map (fun _ => wzero) l) = wzero.
Proof.
  induction l as [|a l IH]; simpl; [reflexivity|].
  rewrite wsum_cons, IH. apply wadd_zero_l.
Qed.

Lemma wsum_map_add {A : Type} (f g : A -> W) (l : list A) :
  wsum (map (fun a => wadd (f a) (g a)) l) = wadd (wsum (map f l)) (wsum (map g l)).
Proof.
  induction l as [|a l IH]; simpl.
  - rewrite wsum_nil, wadd_zero_l. reflexivity.
  - rewrite !wsum_cons, IH. rewrite <- !wadd_assoc. f_equal. apply wadd_swap.
Qed.

Lemma wsum_map_ext {A : Type} (f g : A -> W) (l : list A) :
  (forall a, a ∈ l -> f a = g a) -> wsum (map f l) = wsum (map g l).
Proof.
  intros E. f_equal. apply map_ext_in. intros a Ha. apply E.
  apply list_elem_of_In. exact Ha.
Qed.

(** A sum over the entries that satisfy [P] is the sum over all entries of
    the terms masked by [P]. *)
Lemma wsum_filter {A : Type} (P : A -> Prop) `{forall a, Decision (P a)}
    (f : A -> W) (l : list A) :
  wsum (map f (filter P l))
  = wsum (map (fun a => if decide (P a) then f a else wzero) l).
Proof.
  induction l as [|a l IH]; simpl; [reflexivity|].
  rewrite filter_cons. destruct (decide (P a)); simpl.
  - rewrite !wsum_cons, IH. reflexivity.
  - rewrite wsum_cons, wadd_zero_l. exact IH.
Qed.

(** Sums over two lists may be exchanged. *)
Lemma wsum_exchange {A B : Type} (g : A -> B -> W) (la : list A) (lb : list B) :
  wsum (map (fun a => wsum (map (g a) lb)) la)
  = wsum (map (fun b => wsum (map (fun a => g a b) la)) lb).
Proof.
  induction la as [|a la IH]; simpl.
  - rewrite wsum_nil. symmetry. apply wsum_zeros.
  - rewrite wsum_cons, IH. rewrite <- wsum_map_add.
    apply wsum_map_ext. intros b _. rewrite wsum_cons. reflexivity.
Qed.

(** Replacing the term of one entry [u] of a duplicate-free list. *)
Lemma wsum_change_one {A : Type} `{EqDecision A} (f g : A -> W) (l : list A) (u : A) :
  NoDup l -> u ∈ l -> (forall a, a <> u -> g a = f a) ->
  wadd (wsum (map g l)) (f u) = wadd (wsum (map f l)) (g u).
Proof.
  intros Hnd Hu E. induction Hnd as [|a l Ha Hnd IH]; [inversion Hu|].
  simpl. rewrite !wsum_cons. apply elem_of_cons in Hu as [->|Hu].
  - assert (Hl : wsum (map g l) = wsum (map f l)).
    { apply wsum_map_ext. intros b Hb. apply E. intros ->. contradiction. }
    rewrite Hl. rewrite <- !wadd_assoc. rewrite (wadd_comm (wsum (map f l)) (f a)).
    rewrite (wadd_comm (wsum (map f l)) (g a)). apply wadd_swap.
  - rewrite (E a) by (intros ->; contradiction).
    rewrite <- !wadd_assoc. f_equal. apply IH. exact Hu.
Qed.

(** The sum of a term masked by "is [u]" over a duplicate-free list that
    holds [u]. *)
Lemma wsum_single {A : Type} `{EqDecision A} (t : W) (l : list A) (u : A) :
  NoDup l -> u ∈ l ->
  wsum (map (fun a => if decide (u = a) then t else wzero) l) = t.
Proof.
  intros Hnd Hu.
  assert (E := wsum_change_one (fun _ => wzero)
                 (fun a => if decide (u = a) then t else wzero) l u Hnd Hu).
  simpl in E. rewrite wsum_zeros, wadd_zero_r, wadd_zero_l in E.
  destruct (decide (u = u)); [|congruence].
  apply E. intros a Ha. destruct (decide (u = a)); congruence.
Qed.

Lemma wsum_vector (a : list W) :
  wsum a = wsum (map (vget wzero a) (seq 0 (length a))).
Proof.
  f_equal. apply list_eq. intros i. rewrite list_lookup_fmap.
  destruct (lt_dec i (length a)) as [Hi|Hi].
  - rewrite lookup_seq_lt by exact Hi. simpl.
    apply lookup_vget. exact Hi.
  - rewrite lookup_ge_None_2 by lia. rewrite lookup_seq_ge by lia. reflexivity.
Qed.
End ExactSums.

(** ** Vertex keys and folds of writes *)

Section GraphFacts.
Context {W G : Type} `{Graph W G}.

Lemma elem_of_vertexKeys (x : G) (u : nat) :
  u ∈ vertexKeys x <-> hasVertex x u = true /\ u < span x.
Proof.
  unfold vertexKeys. rewrite list_elem_of_filter, elem_of_seq.
  split; intros [? ?]; split; auto; lia.
Qed.

Lemma NoDup_vertexKeys (x : G) : NoDup (vertexKeys x).
Proof. apply NoDup_filter, NoDup_seq. Qed.

Lemma vertexKeys_lt (x : G) (u : nat) : u ∈ vertexKeys x -> u < span x.
Proof. intros Hu. apply elem_of_vertexKeys in Hu. tauto. Qed.
End GraphFacts.

(** A fold that updates the two components of a pair independently. *)
Lemma foldl_pair {A B C : Type} (f : A -> C -> A) (g : B -> C -> B)
    (l : list C) (a : A) (b : B) :
  foldl (fun p c => (f (fst p) c, g (snd p) c)) (a, b) l = (foldl f a l, foldl g b l).
Proof. revert a b. induction l as [|c l IH]; intros a b; simpl; [reflexivity | apply IH]. Qed.

(** Writing [h c] at every index [c] of [cs]. *)
Lemma vget_foldl_write {A : Type} (d : A) (h : nat -> A) (cs : list nat)
    (a : list A) (i : nat) :
  i < length a ->
  vget d (foldl (fun o c => <[c := h c]> o) a cs) i
  = if decide (i ∈ cs) then h i else vget d a i.
Proof.
  revert a. induction cs as [|c cs IH]; intros a Hi; simpl.
  - destruct (decide (i ∈ [])) as [Hin|_]; [inversion Hin | reflexivity].
  - rewrite IH by (rewrite length_insert; exact Hi).
    destruct (decide (i ∈ cs)) as [Hin|Hnin].
    + destruct (decide (i ∈ c :: cs)) as [|Hn]; [reflexivity|].
      exfalso. apply Hn. right. exact Hin.
    + destruct (decide (c = i)) as [->|Hne].
      * rewrite vget_insert_eq by exact Hi.
        destruct (decide (i ∈ i :: cs)) as [|Hn]; [reflexivity|].
        exfalso. apply Hn. left.
      * rewrite vget_insert_ne by exact Hne.
        destruct (decide (i ∈ c :: cs)) as [Hin'|]; [|reflexivity].
        apply elem_of_cons in Hin' as [->|?]; [congruence | contradiction].
Qed.

Lemma length_foldl_write {A : Type} (h : list A -> nat -> A) (k : nat -> nat)
    (cs : list nat) (a : list A) :
  length (foldl (fun o c => <[k c := h o c]> o) a cs) = length a.
Proof.
  revert a. induction cs as [|c cs IH]; intros a; simpl; [reflexivity|].
  rewrite IH. apply length_insert.
Qed.

(** ** The community weights *)

Section TableFacts.
Context {W G : Type} `{ExactWeight W} `{Graph W G}.

Lemma communityWeight_masked (x : G) (vcom : list nat) (vtot : list W) (c : nat) :
  communityWeight x vcom vtot c
  = wsum (map (fun u => if decide (vget 0 vcom u = c) then vget wzero vtot u else wzero)
              (vertexKeys x)).
Proof. unfold communityWeight, members. apply wsum_filter. Qed.

(** Accumulating [vtot[u]] into [ctot[q[u]]] over the vertices [vs]. *)
Lemma accumulate_weights (q : list nat) (vtot : list W) (vs : list nat)
    (ctot : list W) (c : nat) :
  c < length ctot ->
  vget wzero
    (foldl (fun ct u => <[vget 0 q u := wadd (vget wzero ct (vget 0 q u))
                                             (vget wzero vtot u)]> ct) ctot vs) c
  = wadd (vget wzero ctot c)
      (wsum (map (fun u => if decide (vget 0 q u = c) then vget wzero vtot u else wzero) vs)).
Proof.
  revert ctot. induction vs as [|u vs IH]; intros ctot Hc; simpl.
  - rewrite wsum_nil, wadd_zero_r. reflexivity.
  - rewrite IH by (rewrite length_insert; exact Hc). rewrite wsum_cons.
    destruct (decide (vget 0 q u = c)) as [->|Hne].
    + rewrite vget_insert_eq by exact Hc. symmetry. apply wadd_assoc.
    + rewrite vget_insert_ne by exact Hne. rewrite wadd_zero_l. reflexivity.
Qed.

(** Singleton initialisation establishes the invariant. *)
Lemma louvainInitializeW_ok (x : G) (S : nat) (vtot : list W) :
  span x <= S ->
  tablesOk x S vtot
    (fst (louvainInitializeW (replicate S 0) (replicate S wzero) x vtot))
    (snd (louvainInitializeW (replicate S 0) (replicate S wzero) x vtot)).
Proof.
  intros HS. unfold louvainInitializeW.
  rewrite (foldl_pair (fun vc u => <[u := u]> vc)
             (fun ct u => <[u := vget wzero vtot u]> ct)). simpl.
  assert (Hv : forall u, u ∈ vertexKeys x ->
             vget 0 (foldl (fun vc u => <[u := u]> vc) (replicate S 0) (vertexKeys x)) u = u).
  { intros u Hu. rewrite (vget_foldl_write 0 (fun u => u)).
    - destruct (decide (u ∈ vertexKeys x)); [reflexivity | contradiction].
    - rewrite length_replicate. apply vertexKeys_lt in Hu. lia. }
  split; [exact HS|]. split.
  { rewrite (length_foldl_write (fun _ u => u) (fun u => u)). apply length_replicate. }
  split.
  { rewrite (length_foldl_write (fun _ u => vget wzero vtot u) (fun u => u)).
    apply length_replicate. }
  split.
  { intros u Hu. rewrite Hv by exact Hu. apply vertexKeys_lt in Hu. lia. }
  intros c Hc. rewrite communityWeight_masked.
  rewrite (vget_foldl_write wzero (fun u => vget wzero vtot u))
    by (rewrite length_replicate; exact Hc).
  rewrite (wsum_map_ext _ (fun u => if decide (c = u) then vget wzero vtot c else wzero)).
  2:{ intros u Hu. rewrite Hv by exact Hu.
      destruct (decide (u = c)), (decide (c = u)); congruence. }
  destruct (decide (c ∈ vertexKeys x)) as [Hin|Hnin].
  - symmetry. apply wsum_single; [apply NoDup_vertexKeys | exact Hin].
  - rewrite vget_replicate.
    rewrite (wsum_map_ext _ (fun _ => wzero)); [symmetry; apply wsum_zeros|].
    intros u Hu. destruct (decide (c = u)); [congruence | reflexivity].
Qed.

End TableFacts.

Section TableMoves.
Context {W G : Type} `{ExactWeight W} `{Graph W G}.

(** A move of a vertex of [x] to a community below [S] keeps the
    invariant. *)
Lemma louvainChangeCommunityW_ok (x : G) (S : nat) (vtot : list W)
    (vcom : list nat) (ctot : list W) (u c : nat) :
  tablesOk x S vtot vcom ctot -> u ∈ vertexKeys x -> c < S ->
  tablesOk x S vtot
    (fst (louvainChangeCommunityW vcom ctot u c vtot))
    (snd (louvainChangeCommunityW vcom ctot u c vtot)).
Proof.
  intros (HS & Hlv & Hlc & Hlab & Hsum) Hu Hc.
  unfold louvainChangeCommunityW. simpl.
  set (d := vget 0 vcom u). set (t := vget wzero vtot u).
  assert (Hd : d < S) by (apply Hlab; exact Hu).
  assert (HuS : u < length vcom) by (apply vertexKeys_lt in Hu; lia).
  assert (Hnew : forall v, vget 0 (<[u := c]> vcom) v
                           = if decide (v = u) then c else vget 0 vcom v).
  { intros v. destruct (decide (v = u)) as [->|Hne].
    - apply vget_insert_eq. exact HuS.
    - apply vget_insert_ne. congruence. }
  split; [exact HS|]. split; [rewrite length_insert; exact Hlv|].
  split; [rewrite !length_insert; exact Hlc|]. split.
  { intros v Hv. rewrite Hnew. destruct (decide (v = u)); [exact Hc | apply Hlab, Hv]. }
  intros c' Hc'. rewrite communityWeight_masked.
  set (F := fun k v => if decide (vget 0 vcom v = k) then vget wzero vtot v else wzero).
  set (F' := fun v => if decide (vget 0 (<[u := c]> vcom) v = c')
                      then vget wzero vtot v else wzero).
  assert (Hold : forall k, k < S -> vget wzero ctot k = wsum (map (F k) (vertexKeys x))).
  { intros k Hk. rewrite Hsum by exact Hk. apply communityWeight_masked. }
  assert (Hone := wsum_change_one (F c') F' (vertexKeys x) u (NoDup_vertexKeys x) Hu).
  assert (Hagree : forall a, a <> u -> F' a = F c' a).
  { intros a Ha. unfold F', F. rewrite Hnew.
    destruct (decide (a = u)); [contradiction | reflexivity]. }
  specialize (Hone Hagree).
  assert (HFu : F c' u = if decide (d = c') then t else wzero) by reflexivity.
  assert (HF'u : F' u = if decide (c = c') then t else wzero).
  { unfold F'. rewrite Hnew. destruct (decide (u = u)); [reflexivity | congruence]. }
  rewrite HFu, HF'u in Hone.
  destruct (decide (c = d)) as [Ecd|Ncd].
  - (* the vertex stays: the two writes cancel on [ctot[d]] *)
    subst c. destruct (decide (d = c')) as [<-|Nd].
    + rewrite vget_insert_eq by (rewrite length_insert; lia).
      rewrite vget_insert_eq by lia. rewrite Hold by exact Hd.
      apply wadd_cancel_r in Hone. rewrite Hone.
      set (G0 := fun v => if decide (v = u) then wzero else F d v).
      assert (Hsplit := wsum_change_one (F d) G0 (vertexKeys x) u
                          (NoDup_vertexKeys x) Hu).
      assert (HG0 : forall a, a <> u -> G0 a = F d a).
      { intros a Ha. unfold G0. destruct (decide (a = u)); [contradiction | reflexivity]. }
      specialize (Hsplit HG0).
      assert (HG0u : G0 u = wzero).
      { unfold G0. destruct (decide (u = u)); [reflexivity | congruence]. }
      assert (HFdu : F d u = t).
      { unfold F. destruct (decide (vget 0 vcom u = d)); [reflexivity | contradiction]. }
      rewrite HG0u, HFdu, wadd_zero_r in Hsplit.
      rewrite <- Hsplit, wsub_add. reflexivity.
    + rewrite !vget_insert_ne by congruence. rewrite Hold by exact Hc'.
      rewrite !wadd_zero_r in Hone. symmetry. exact Hone.
  - destruct (decide (c = c')) as [<-|Nc].
    + (* the community entered *)
      destruct (decide (d = c)) as [|_]; [congruence|].
      rewrite vget_insert_eq by (rewrite length_insert; lia).
      rewrite vget_insert_ne by congruence. rewrite Hold by exact Hc.
      rewrite wadd_zero_r in Hone. symmetry. exact Hone.
    + rewrite vget_insert_ne by congruence.
      destruct (decide (d = c')) as [<-|Nd].
      * (* the community left *)
        rewrite vget_insert_eq by lia. rewrite Hold by exact Hd.
        rewrite wadd_zero_r in Hone. rewrite <- Hone. apply wsub_add.
      * rewrite vget_insert_ne by congruence. rewrite Hold by exact Hc'.
        rewrite !wadd_zero_r in Hone. symmetry. exact Hone.
Qed.

(** Under the invariant the community weights add up to the vertex
    weights. *)
Lemma tablesOk_total (x : G) (S : nat) (vtot : list W) (vcom : list nat)
    (ctot : list W) :
  tablesOk x S vtot vcom ctot ->
  wsum ctot = wsum (map (vget wzero vtot) (vertexKeys x)).
Proof.
  intros (HS & Hlv & Hlc & Hlab & Hsum).
  rewrite wsum_vector, Hlc.
  rewrite (wsum_map_ext _
             (fun c => wsum (map (fun u => if decide (vget 0 vcom u = c)
                                           then vget wzero vtot u else wzero)
                                 (vertexKeys x)))).
  2:{ intros c Hc. apply elem_of_seq in Hc. rewrite Hsum by lia.
      apply communityWeight_masked. }
  rewrite (wsum_exchange
             (fun c u => if decide (vget 0 vcom u = c) then vget wzero vtot u else wzero)).
  apply wsum_map_ext. intros u Hu.
  apply wsum_single; [apply NoDup_seq|].
  apply elem_of_seq. specialize (Hlab u Hu). lia.
Qed.


End TableMoves.

(** ** Prefix sums *)

Lemma exclusiveScanFrom_length (acc : nat) (x : list nat) :
  length (fst (exclusiveScanFrom acc x)) = length x.
Proof. revert acc. induction x as [|t x IH]; intros acc; simpl; [reflexivity|]. rewrite IH. reflexivity. Qed.

Lemma exclusiveScanFrom_total (acc : nat) (x : list nat) :
  snd (exclusiveScanFrom acc x) = acc + sum_list x.
Proof. revert acc. induction x as [|t x IH]; intros acc; simpl; [lia|]. rewrite IH. lia. Qed.

Lemma exclusiveScanFrom_lookup (acc : nat) (x : list nat) (i : nat) :
  i < length x ->
  vget 0 (fst (exclusiveScanFrom acc x)) i = acc + sum_list (take i x).
Proof.
  revert acc i. induction x as [|t x IH]; intros acc i Hi; simpl in *; [lia|].
  destruct i as [|i]; simpl.
  - unfold vget. simpl. lia.
  - change (vget 0 (acc :: fst (exclusiveScanFrom (acc + t) x)) (S i))
      with (vget 0 (fst (exclusiveScanFrom (acc + t) x)) i).
    rewrite IH by lia. lia.
Qed.

Lemma sum_list_snoc (x : list nat) (t : nat) : sum_list (x ++ [t]) = sum_list x + t.
Proof. rewrite sum_list_with_app. change (sum_list [t]) with (t + 0). lia. Qed.

Lemma sum_list_take_le (x : list nat) (i j : nat) :
  i <= j -> sum_list (take i x) <= sum_list (take j x).
Proof.
  intros Hij. replace j with (i + (j - i)) by lia.
  rewrite <- take_take_drop, sum_list_with_app. lia.
Qed.

Lemma sum_list_take_S (x : list nat) (i : nat) :
  sum_list (take (S i) x) = sum_list (take i x) + vget 0 x i.
Proof.
  destruct (lt_dec i (length x)) as [Hi|Hi].
  - rewrite (take_S_r x i (vget 0 x i)) by (apply lookup_vget; exact Hi).
    rewrite sum_list_with_app. simpl. lia.
  - rewrite !take_ge by lia. rewrite vget_ge by lia. lia.
Qed.

Lemma sum_list_take_all (x : list nat) (i : nat) :
  sum_list (take i x) <= sum_list x.
Proof. rewrite <- (take_drop i x) at 2. rewrite sum_list_with_app. lia. Qed.

(** Writing [v] over an entry changes the sum by the difference. *)
Lemma sum_list_insert (a : list nat) (c v : nat) :
  c < length a -> sum_list (<[c := v]> a) + vget 0 a c = sum_list a + v.
Proof.
  revert c. induction a as [|t a IH]; intros c Hc; simpl in *; [lia|].
  destruct c as [|c]; simpl.
  - unfold vget. simpl. lia.
  - change (vget 0 (t :: a) (S c)) with (vget 0 a c).
    specialize (IH c ltac:(lia)). lia.
Qed.

(** The sum of 0/1 flags counts the flagged indices. *)
Lemma sum_list_indicator {A : Type} (P : A -> Prop) `{forall a, Decision (P a)}
    (l : list A) :
  sum_list (map (fun a => if decide (P a) then 1 else 0) l) = length (filter P l).
Proof.
  induction l as [|a l IH]; simpl; [reflexivity|].
  rewrite filter_cons. destruct (decide (P a)); simpl; lia.
Qed.

(** Every value below the sum of 0/1 flags is the prefix sum at a flagged
    index. *)
Lemma rank_onto (a : list nat) (k : nat) :
  (forall i, vget 0 a i <= 1) -> k < sum_list a ->
  exists i, i < length a /\ vget 0 a i = 1 /\ sum_list (take i a) = k.
Proof.
  revert k. induction a as [|t a IH]; intros k Hb Hk; simpl in *; [lia|].
  assert (Hb' : forall i, vget 0 a i <= 1) by (intros i; apply (Hb (S i))).
  assert (Ht : t <= 1) by apply (Hb 0).
  destruct (decide (t = 1)) as [->|Hne].
  - destruct k as [|k].
    + exists 0. repeat split. lia.
    + destruct (IH k Hb' ltac:(lia)) as (i & Hi & Hf & Hs).
      exists (S i). repeat split; [lia | exact Hf | simpl; lia].
  - assert (t = 0) by lia. subst t.
    destruct (IH k Hb' ltac:(lia)) as (i & Hi & Hf & Hs).
    exists (S i). repeat split; [lia | exact Hf | simpl; lia].
Qed.

(** Prefix sums of 0/1 flags are strictly increasing along flagged
    indices. *)
Lemma rank_lt (a : list nat) (i j : nat) :
  vget 0 a i = 1 -> i < j -> sum_list (take i a) < sum_list (take j a).
Proof.
  intros Hf Hij. assert (Hle := sum_list_take_le a (S i) j ltac:(lia)).
  rewrite sum_list_take_S, Hf in Hle. lia.
Qed.

Lemma rank_inj (a : list nat) (i j : nat) :
  vget 0 a i = 1 -> vget 0 a j = 1 ->
  sum_list (take i a) = sum_list (take j a) -> i = j.
Proof.
  intros Hi Hj E. destruct (lt_eq_lt_dec i j) as [[Hlt|]|Hlt]; [|assumption|].
  - pose proof (rank_lt a i j Hi Hlt). lia.
  - pose proof (rank_lt a j i Hj Hlt). lia.
Qed.

Lemma rank_bound (a : list nat) (i : nat) :
  vget 0 a i = 1 -> sum_list (take i a) < sum_list a.
Proof.
  intros Hf. assert (Hle := sum_list_take_all a (S i)).
  rewrite sum_list_take_S, Hf in Hle. lia.
Qed.

(** ** Renumbering *)

Lemma vget_map (f : nat -> nat) (a : list nat) (u : nat) :
  u < length a -> vget 0 (map f a) u = f (vget 0 a u).
Proof.
  intros Hu. apply vget_lookup. change (map f a) with (f <$> a).
  rewrite list_lookup_fmap, (lookup_vget 0 a u Hu). reflexivity.
Qed.

Lemma foldl_map {A B C : Type} (f : A -> B -> A) (g : C -> B) (l : list C) (a : A) :
  foldl (fun a c => f a (g c)) a l = foldl f a (map g l).
Proof. revert a. induction l as [|c l IH]; intros a; simpl; [reflexivity | apply IH]. Qed.

(** The flag loop of [louvainCommunityExistsW] over the labels [ls]: the
    flags stay 0/1 and the count is their sum. *)
Lemma exists_fold (ls : list nat) (a : list nat) (C : nat) :
  (forall i, vget 0 a i <= 1) -> C = sum_list a ->
  (forall c, c ∈ ls -> c < length a) ->
  let r := foldl (fun aC c => (<[c := 1]> (fst aC),
                               if vget 0 (fst aC) c =? 0 then S (snd aC) else snd aC))
                 (a, C) ls in
  fst r = foldl (fun o c => <[c := 1]> o) a ls /\
  snd r = sum_list (fst r) /\ (forall i, vget 0 (fst r) i <= 1).
Proof.
  revert a C. induction ls as [|c ls IH]; intros a C Hb HC Hls; simpl.
  - repeat split; assumption.
  - assert (Hc : c < length a) by (apply Hls; left).
    apply IH.
    + intros i. destruct (decide (c = i)) as [->|Hne].
      * rewrite vget_insert_eq by exact Hc. lia.
      * rewrite vget_insert_ne by exact Hne. apply Hb.
    + pose proof (sum_list_insert a c 1 Hc) as Hs. pose proof (Hb c) as Hbc.
      destruct (Nat.eqb_spec (vget 0 a c) 0); lia.
    + intros c' Hc'. rewrite length_insert. apply Hls. right. exact Hc'.
Qed.

Section RenumberFacts.
Context {W G : Type} `{Graph W G}.

(** What [louvainCommunityExistsW] returns: the flag of [c] is 1 exactly
    when some vertex has label [c], and the count is the sum of the
    flags. *)
Lemma louvainCommunityExistsW_flags (a : list nat) (x : G) (vcom : list nat) :
  (forall u, u ∈ vertexKeys x -> vget 0 vcom u < length a) ->
  let ex := louvainCommunityExistsW a x vcom in
  length (fst ex) = length a /\
  snd ex = sum_list (fst ex) /\
  (forall c, c < length a ->
     vget 0 (fst ex) c
     = if decide (c ∈ map (vget 0 vcom) (vertexKeys x)) then 1 else 0).
Proof.
  intros Hlab ex. unfold ex, louvainCommunityExistsW.
  rewrite (foldl_map
             (fun aC c => (<[c := 1]> (fst aC),
                           if vget 0 (fst aC) c =? 0 then S (snd aC) else snd aC))
             (vget 0 vcom)).
  destruct (exists_fold (map (vget 0 vcom) (vertexKeys x)) (fillValueU a 0) 0)
    as (Ef & Es & Eb).
  - intros i. unfold fillValueU. rewrite vget_replicate. lia.
  - unfold fillValueU. rewrite sum_list_replicate. lia.
  - intros c Hc. change (map (vget 0 vcom) (vertexKeys x)) with
      (vget 0 vcom <$> vertexKeys x) in Hc.
    apply list_elem_of_fmap in Hc as (u & -> & Hu).
    unfold fillValueU. rewrite length_replicate. apply Hlab. exact Hu.
  - rewrite Ef in *. split; [|split; [exact Es|]].
    + rewrite length_foldl_insert. unfold fillValueU. apply length_replicate.
    + intros c Hc.
      rewrite (vget_foldl_write 0 (fun _ => 1))
        by (unfold fillValueU; rewrite length_replicate; exact Hc).
      unfold fillValueU. rewrite vget_replicate. reflexivity.
Qed.

(** C7: after [louvainCommunityExistsW] and [louvainRenumberCommunitiesW],
    the labels of the vertices of [x] are exactly the range [0, C), where
    [C] is the returned number of communities, the number of distinct
    labels before; and two vertices share a label afterwards exactly when
    they shared one before. *)
Theorem renumber_labels_contiguous (x : G) (vcom cext : list nat) :
  (forall u, u ∈ vertexKeys x -> u < length vcom /\ vget 0 vcom u < length cext) ->
  let ex := louvainCommunityExistsW cext x vcom in
  let rn := louvainRenumberCommunitiesW vcom (fst ex) in
  let vcom' := fst (fst rn) in
  let C := snd rn in
  C = snd ex /\
  C = length (remove_dups (map (vget 0 vcom) (vertexKeys x))) /\
  (forall k, k < C <-> exists u, u ∈ vertexKeys x /\ vget 0 vcom' u = k) /\
  (forall u v, u ∈ vertexKeys x -> v ∈ vertexKeys x ->
     (vget 0 vcom' u = vget 0 vcom' v <-> vget 0 vcom u = vget 0 vcom v)).
Proof.
  intros Hpre ex rn vcom' C.
  destruct (louvainCommunityExistsW_flags cext x vcom) as (Hlen & Hcount & Hflag).
  { intros u Hu. apply Hpre. exact Hu. }
  fold ex in Hlen, Hcount, Hflag.
  set (ls := map (vget 0 vcom) (vertexKeys x)) in *.
  set (fl := fst ex) in *.
  assert (HC : C = sum_list fl).
  { unfold C, rn, louvainRenumberCommunitiesW, exclusiveScanW. simpl.
    rewrite exclusiveScanFrom_total. lia. }
  assert (Hin : forall u, u ∈ vertexKeys x -> vget 0 vcom u ∈ ls).
  { intros u Hu. unfold ls. change (vget 0 vcom u ∈ vget 0 vcom <$> vertexKeys x).
    apply list_elem_of_fmap_2. exact Hu. }
  assert (Hset : forall u, u ∈ vertexKeys x -> vget 0 fl (vget 0 vcom u) = 1).
  { intros u Hu. rewrite Hflag by (apply Hpre; exact Hu).
    destruct (decide (vget 0 vcom u ∈ ls)) as [|Hn]; [reflexivity|].
    exfalso. apply Hn, Hin, Hu. }
  assert (Hnew : forall u, u ∈ vertexKeys x ->
             vget 0 vcom' u = sum_list (take (vget 0 vcom u) fl)).
  { intros u Hu. unfold vcom', rn, louvainRenumberCommunitiesW,
      louvainLookupCommunitiesU, exclusiveScanW. simpl.
    rewrite vget_map by (apply Hpre; exact Hu).
    rewrite exclusiveScanFrom_lookup; [lia|].
    fold fl. rewrite Hlen. apply Hpre. exact Hu. }
  assert (Hb : forall i, vget 0 fl i <= 1).
  { intros i. destruct (lt_dec i (length cext)) as [Hi|Hi].
    - rewrite Hflag by exact Hi. destruct (decide (i ∈ ls)); lia.
    - rewrite vget_ge by lia. lia. }
  split; [congruence|]. split.
  { rewrite HC.
    assert (Efl : fl = map (fun c => if decide (c ∈ ls) then 1 else 0)
                         (seq 0 (length cext))).
    { apply list_eq. intros i.
      change (map ?f ?l) with (f <$> l). rewrite list_lookup_fmap.
      destruct (lt_dec i (length cext)) as [Hi|Hi].
      - rewrite lookup_seq_lt by exact Hi. simpl. rewrite <- Hflag by exact Hi.
        apply lookup_vget. lia.
      - rewrite lookup_seq_ge by lia. apply lookup_ge_None_2. lia. }
    rewrite Efl, sum_list_indicator.
    apply Permutation_length, NoDup_Permutation.
    - apply NoDup_filter, NoDup_seq.
    - apply NoDup_remove_dups.
    - intros c. rewrite list_elem_of_filter, elem_of_seq, elem_of_remove_dups.
      split; [tauto|]. intros Hc. split; [exact Hc|].
      unfold ls in Hc. change (c ∈ vget 0 vcom <$> vertexKeys x) in Hc.
      apply list_elem_of_fmap in Hc as (u & -> & Hu).
      specialize (Hpre u Hu). lia. }
  split.
  - intros k. split.
    + intros Hk. rewrite HC in Hk.
      destruct (rank_onto fl k Hb Hk) as (i & Hi & Hf & Hs).
      rewrite Hlen in Hi. rewrite Hflag in Hf by exact Hi.
      destruct (decide (i ∈ ls)) as [Hil|]; [|discriminate].
      unfold ls in Hil. change (i ∈ vget 0 vcom <$> vertexKeys x) in Hil.
      apply list_elem_of_fmap in Hil as (u & -> & Hu).
      exists u. split; [exact Hu|]. rewrite Hnew by exact Hu. exact Hs.
    + intros (u & Hu & <-). rewrite Hnew by exact Hu. rewrite HC.
      apply rank_bound, Hset, Hu.
  - intros u v Hu Hv. rewrite !Hnew by assumption. split.
    + apply rank_inj; apply Hset; assumption.
    + intros ->. reflexivity.
Qed.
End RenumberFacts.

(** ** The community-vertex CSR *)

(** A slice whose entries are those of [l]. *)
Lemma vslice_eq {A : Type} (a l : list A) (o : nat) :
  (forall k v, l !! k = Some v -> a !! (o + k) = Some v) ->
  vslice a o (length l) = l.
Proof.
  intros Hl. apply list_eq. intros k. unfold vslice.
  rewrite lookup_take, lookup_drop.
  destruct (decide (k < length l)) as [Hk|Hk].
  - destruct (lookup_lt_is_Some_2 l k Hk) as [v Hv]. rewrite Hv. apply Hl, Hv.
  - symmetry. apply lookup_ge_None_2. lia.
Qed.

(** Counting the vertices of each label: the loop of
    [louvainCountCommunityVerticesW] over the vertices [vs]. *)
Lemma count_fold (vcom : list nat) (vs : list nat) (a : list nat) (c : nat) :
  c < length a ->
  vget 0 (foldl (fun a u => <[vget 0 vcom u := S (vget 0 a (vget 0 vcom u))]> a) a vs) c
  = vget 0 a c + length (filter (fun u => vget 0 vcom u = c) vs).
Proof.
  revert a. induction vs as [|u vs IH]; intros a Hc; simpl; [lia|].
  rewrite IH by (rewrite length_insert; exact Hc). rewrite filter_cons.
  destruct (decide (vget 0 vcom u = c)) as [->|Hne].
  - rewrite vget_insert_eq by exact Hc. simpl. lia.
  - rewrite vget_insert_ne by exact Hne. lia.
Qed.

(** A further vertex adds one to the counts over duplicate-free labels
    [l] when its label is among them. *)
Lemma sum_counts_cons (vcom : list nat) (u : nat) (vs l : list nat) :
  NoDup l ->
  sum_list (map (fun c => length (filter (fun u => vget 0 vcom u = c) (u :: vs))) l)
  = sum_list (map (fun c => length (filter (fun u => vget 0 vcom u = c) vs)) l)
    + (if decide (vget 0 vcom u ∈ l) then 1 else 0).
Proof.
  induction 1 as [|c l Hc Hnd IH]; simpl.
  - destruct (decide (vget 0 vcom u ∈ [])) as [Hin|]; [inversion Hin | reflexivity].
  - rewrite IH, filter_cons.
    destruct (decide (vget 0 vcom u = c)) as [E|N]; simpl.
    + destruct (decide (vget 0 vcom u ∈ l)) as [Hin|_]; [rewrite E in Hin; contradiction|].
      destruct (decide (vget 0 vcom u ∈ c :: l)) as [|Hn]; [lia|].
      exfalso. apply Hn. rewrite E. left.
    + destruct (decide (vget 0 vcom u ∈ l)) as [Hin|Hnin].
      * destruct (decide (vget 0 vcom u ∈ c :: l)) as [|Hn]; [lia|].
        exfalso. apply Hn. right. exact Hin.
      * destruct (decide (vget 0 vcom u ∈ c :: l)) as [Hin|]; [|lia].
        apply elem_of_cons in Hin as [?|?]; [congruence | contradiction].
Qed.

(** Each vertex is counted under exactly one label below [C]. *)
Lemma sum_counts (vcom : list nat) (vs : list nat) (C : nat) :
  (forall u, u ∈ vs -> vget 0 vcom u < C) ->
  sum_list (map (fun c => length (filter (fun u => vget 0 vcom u = c) vs)) (seq 0 C))
  = length vs.
Proof.
  induction vs as [|u vs IH]; intros Hlab.
  - change (sum_list ((fun _ => 0) <$> seq 0 C) = 0).
    rewrite sum_list_fmap_const. lia.
  - rewrite sum_counts_cons by apply NoDup_seq.
    rewrite IH by (intros v Hv; apply Hlab; right; exact Hv).
    destruct (decide (vget 0 vcom u ∈ seq 0 C)) as [|Hn]; [simpl; lia|].
    exfalso. apply Hn, elem_of_seq. specialize (Hlab u ltac:(left)). lia.
Qed.

Section Scatter.
Variables (vcom off vs : list nat) (C : nat).
Hypothesis Hlab : forall u, u ∈ vs -> vget 0 vcom u < C.
Hypothesis Hoff : forall c, c < C ->
  vget 0 off (S c) = vget 0 off c + length (filter (fun u => vget 0 vcom u = c) vs).

Lemma offsets_mono (c1 c2 : nat) : c1 <= c2 -> c2 <= C -> vget 0 off c1 <= vget 0 off c2.
Proof.
  induction 1 as [|c2 Hle IH]; intros Hc2; [lia|].
  specialize (IH ltac:(lia)). rewrite Hoff by lia. lia.
Qed.

(** The scatter loop of [louvainCommunityVerticesW]: with the vertices
    [done] written and [todo] to come, every bucket holds its vertices of
    [done] in order, and keeps doing so to the end. *)
Lemma scatter_fold (todo done : list nat) (deg edg : list nat) :
  done ++ todo = vs -> C <= length deg -> vget 0 off C <= length edg ->
  (forall c, c < C -> vget 0 deg c = length (filter (fun u => vget 0 vcom u = c) done)) ->
  (forall c k v, c < C -> filter (fun u => vget 0 vcom u = c) done !! k = Some v ->
     edg !! (vget 0 off c + k) = Some v) ->
  let r := foldl (fun de u => csrAddEdgeU (fst de) (snd de) off (vget 0 vcom u) u)
                 (deg, edg) todo in
  (forall c, c < C -> vget 0 (fst r) c = length (filter (fun u => vget 0 vcom u = c) vs)) /\
  (forall c k v, c < C -> filter (fun u => vget 0 vcom u = c) vs !! k = Some v ->
     snd r !! (vget 0 off c + k) = Some v).
Proof.
  revert done deg edg. induction todo as [|u todo IH]; intros done deg edg Hvs Hdeg Hedg I1 I2.
  - simpl. rewrite app_nil_r in Hvs. subst done. split; assumption.
  - simpl. unfold csrAddEdgeU at 2. simpl.
    set (c := vget 0 vcom u). set (n := vget 0 deg c).
    assert (Hu : u ∈ vs) by (rewrite <- Hvs; apply elem_of_app; right; left).
    assert (Hc : c < C) by (apply Hlab; exact Hu).
    assert (Hn : n = length (filter (fun u => vget 0 vcom u = c) done)) by (apply I1; exact Hc).
    assert (Hcnt : forall c', length (filter (fun u => vget 0 vcom u = c') vs)
                 = length (filter (fun u => vget 0 vcom u = c') done)
                   + (if decide (c = c') then 1 else 0)
                   + length (filter (fun u => vget 0 vcom u = c') todo)).
    { intros c'. rewrite <- Hvs, filter_app, length_app, filter_cons. fold c.
      destruct (decide (c = c')); simpl; lia. }
    assert (Hp : vget 0 off c + n < vget 0 off (S c)).
    { rewrite Hoff by exact Hc. rewrite (Hcnt c).
      destruct (decide (c = c)); [lia | congruence]. }
    apply (IH (done ++ [u])).
    + rewrite <- app_assoc. exact Hvs.
    + rewrite length_insert. exact Hdeg.
    + rewrite length_insert. exact Hedg.
    + intros c' Hc'. rewrite filter_app, length_app, filter_cons. fold c.
      destruct (decide (c = c')) as [<-|Hne].
      * rewrite vget_insert_eq by lia. simpl. lia.
      * rewrite vget_insert_ne by exact Hne. rewrite I1 by exact Hc'. simpl. lia.
    + intros c' k v Hc'. rewrite filter_app, filter_cons. fold c.
      destruct (decide (c = c')) as [<-|Hne].
      * intros Hk. apply lookup_app_Some in Hk as [Hk|[Hge Hk]].
        -- rewrite list_lookup_insert_ne.
           ++ apply I2; assumption.
           ++ apply lookup_lt_Some in Hk. lia.
        -- simpl in Hk. rewrite <- Hn in *.
           destruct (k - n) as [|?] eqn:Ek; simpl in Hk; [|discriminate].
           injection Hk as <-. replace k with n by lia.
           apply list_lookup_insert_eq.
           pose proof (offsets_mono (S c) C ltac:(lia) ltac:(lia)). lia.
      * rewrite app_nil_r. intros Hk.
        rewrite list_lookup_insert_ne; [apply I2; assumption|].
        apply lookup_lt_Some in Hk.
        assert (Hk' : vget 0 off c' + k < vget 0 off (S c')).
        { rewrite Hoff by exact Hc'. rewrite (Hcnt c'). lia. }
        destruct (lt_dec c c') as [Hlt|Hge].
        -- pose proof (offsets_mono (S c) c' ltac:(lia) ltac:(lia)). lia.
        -- pose proof (offsets_mono (S c') c ltac:(lia) ltac:(lia)). lia.
Qed.
End Scatter.

Lemma filter_none {A : Type} (P : A -> Prop) `{forall a, Decision (P a)} (l : list A) :
  (forall a, a ∈ l -> ~ P a) -> filter P l = [].
Proof.
  induction l as [|a l IH]; intros Hn; [reflexivity|].
  rewrite filter_cons_False by (apply Hn; left).
  apply IH. intros b Hb. apply Hn. right. exact Hb.
Qed.

Section BucketFacts.
Context {W G : Type} `{Graph W G}.

(** What [louvainCommunityVerticesW] builds: the offsets are the prefix
    sums of the community sizes and the slice of each community holds its
    members, in increasing order. *)
Lemma louvainCommunityVerticesW_spec (x : G) (vcom coff cdeg cedg : list nat) (C : nat) :
  length coff = C + 1 -> C <= length cdeg -> order x <= length cedg ->
  (forall u, u ∈ vertexKeys x -> vget 0 vcom u < C) ->
  let r := louvainCommunityVerticesW coff cdeg cedg x vcom in
  length (fst (fst r)) = C + 1 /\
  vget 0 (fst (fst r)) C = order x /\
  (forall c, c < C -> csrDegree (fst (fst r)) c = length (members x vcom c)) /\
  (forall c, c < C -> csrEdgeKeys (fst (fst r)) (snd r) c = members x vcom c).
Proof.
  intros Hcoff Hcdeg Hcedg Hlab r.
  set (cnt := fun c => length (filter (fun u => vget 0 vcom u = c) (vertexKeys x))).
  set (coff1 := louvainCountCommunityVerticesW coff x vcom).
  assert (Hl1 : length coff1 = C + 1).
  { unfold coff1, louvainCountCommunityVerticesW.
    rewrite (length_foldl_write (fun a u => S (vget 0 a (vget 0 vcom u)))
               (fun u => vget 0 vcom u)).
    unfold fillValueU. rewrite length_replicate. exact Hcoff. }
  assert (E1 : coff1 = cnt <$> seq 0 (C + 1)).
  { apply list_eq. intros i. rewrite list_lookup_fmap.
    destruct (lt_dec i (C + 1)) as [Hi|Hi].
    - rewrite lookup_seq_lt by exact Hi. simpl.
      rewrite (lookup_vget 0 coff1 i) by lia. f_equal.
      unfold coff1, louvainCountCommunityVerticesW.
      rewrite count_fold by (unfold fillValueU; rewrite length_replicate; lia).
      unfold fillValueU. rewrite vget_replicate. reflexivity.
    - rewrite lookup_seq_ge by lia. apply lookup_ge_None_2. lia. }
  assert (HcntC : cnt C = 0).
  { unfold cnt. rewrite filter_none; [reflexivity|].
    intros u Hu E. specialize (Hlab u Hu). lia. }
  set (sc := exclusiveScanW coff1).
  set (coff2 := <[C := snd sc]> (fst sc)).
  assert (Hl2 : length coff2 = C + 1).
  { unfold coff2, sc, exclusiveScanW. rewrite length_insert, exclusiveScanFrom_length.
    exact Hl1. }
  assert (Hpre : forall c, c <= C -> vget 0 coff2 c = sum_list (cnt <$> seq 0 c)).
  { intros c Hc. unfold coff2. destruct (decide (C = c)) as [<-|Hne].
    - rewrite vget_insert_eq
        by (unfold sc, exclusiveScanW; rewrite exclusiveScanFrom_length; lia).
      unfold sc, exclusiveScanW. rewrite exclusiveScanFrom_total, E1.
      rewrite Nat.add_1_r, seq_S, fmap_app. simpl.
      rewrite sum_list_snoc, HcntC. lia.
    - rewrite vget_insert_ne by exact Hne. unfold sc, exclusiveScanW.
      rewrite exclusiveScanFrom_lookup by lia. rewrite E1, <- fmap_take, take_seq.
      simpl. f_equal. f_equal. f_equal. lia. }
  assert (Hoff : forall c, c < C -> vget 0 coff2 (S c) = vget 0 coff2 c + cnt c).
  { intros c Hc. rewrite !Hpre by lia. rewrite seq_S, fmap_app. simpl.
    apply sum_list_snoc. }
  assert (Htot : vget 0 coff2 C = order x).
  { rewrite Hpre by lia. unfold order. apply (sum_counts vcom (vertexKeys x) C Hlab). }
  destruct (scatter_fold vcom coff2 (vertexKeys x) C Hlab Hoff (vertexKeys x) []
              (fillValueU cdeg 0) cedg) as (I1 & I2).
  { reflexivity. }
  { unfold fillValueU. rewrite length_replicate. exact Hcdeg. }
  { rewrite Htot. exact Hcedg. }
  { intros c Hc. unfold fillValueU. rewrite vget_replicate. reflexivity. }
  { intros c k v _ Hk. rewrite filter_nil in Hk. discriminate. }
  assert (Hdeg : forall c, c < C -> csrDegree coff2 c = cnt c).
  { intros c Hc. unfold csrDegree. rewrite Nat.add_1_r, Hoff by exact Hc. lia. }
  unfold r, louvainCommunityVerticesW. rewrite Hcoff.
  replace (C + 1 - 1) with C by lia. fold coff1. fold sc. fold coff2. simpl.
  repeat split; try assumption.
  intros c Hc. unfold csrEdgeKeys. rewrite Hdeg by exact Hc.
  apply vslice_eq. intros k v Hk. apply I2; assumption.
Qed.

(** C8: [louvainCommunityVerticesW] builds a CSR with [coff[C]] the number
    of vertices of [x] and, for each community [c], the slice
    [cedg[coff[c] .. coff[c+1])] a permutation of the vertices [u] with
    [vcom[u] = c]; so a vertex is in the bucket [c] exactly when
    [c = vcom[u]], and once. *)
Theorem louvainCommunityVerticesW_partition (x : G) (vcom coff cdeg cedg : list nat)
    (C : nat) :
  length coff = C + 1 -> C <= length cdeg -> order x <= length cedg ->
  (forall u, u ∈ vertexKeys x -> vget 0 vcom u < C) ->
  let r := louvainCommunityVerticesW coff cdeg cedg x vcom in
  let coff' := fst (fst r) in
  let cedg' := snd r in
  vget 0 coff' C = order x /\
  (forall c, c < C ->
     vslice cedg' (vget 0 coff' c) (vget 0 coff' (c + 1) - vget 0 coff' c)
     ≡ₚ members x vcom c) /\
  (forall c u, c < C -> u ∈ vertexKeys x ->
     (u ∈ csrEdgeKeys coff' cedg' c <-> c = vget 0 vcom u)) /\
  (forall c, c < C -> NoDup (csrEdgeKeys coff' cedg' c)).
Proof.
  intros Hcoff Hcdeg Hcedg Hlab r coff' cedg'.
  destruct (louvainCommunityVerticesW_spec x vcom coff cdeg cedg C
              Hcoff Hcdeg Hcedg Hlab) as (_ & Htot & _ & Hbucket).
  fold r in Htot, Hbucket. fold coff' in Htot, Hbucket. fold cedg' in Hbucket.
  split; [exact Htot|]. split; [|split].
  - intros c Hc. rewrite <- (Hbucket c Hc). reflexivity.
  - intros c u Hc Hu. rewrite (Hbucket c Hc). unfold members.
    rewrite list_elem_of_filter. split; [intros [E _]; congruence|].
    intros ->. split; [reflexivity | exact Hu].
  - intros c Hc. rewrite (Hbucket c Hc). apply NoDup_filter, NoDup_vertexKeys.
Qed.
End BucketFacts.

(** ** Scanning edges of positive weight *)

Section ScanPositive.
Context {W : Type} {HW : Weight W} {HE : ExactWeight W} {HP : PositiveWeight W}.

Lemma scanInv_fresh (vcom : list nat) (n : nat) :
  scanInv vcom n [] (mkScratch [] (replicate n wzero)).
Proof.
  unfold scanInv. simpl. repeat split.
  - apply NoDup_nil_2.
  - apply length_replicate.
  - lia.
  - intros e He. inversion He.
  - inversion H.
  - inversion H.
  - intros d _. apply vget_replicate.
  - intros d _. rewrite vget_replicate. reflexivity.
Qed.

(** One scan of an edge of positive weight into a community below [n]. *)
Lemma scanInv_step (vcom : list nat) (n : nat) (es : list (nat * W))
    (s : Scratch W) (e : nat * W) :
  vget 0 vcom (fst e) < n -> wpos (snd e) ->
  scanInv vcom n es s ->
  scanInv vcom n (es ++ [e])
    (louvainScanCommunityW true s 0 (fst e) (snd e) vcom).
Proof.
  intros Hc Hw (Hnd & Hlen & Hle & Hcov & Hin & Hout & Hsum).
  unfold louvainScanCommunityW. simpl.
  set (c := vget 0 vcom (fst e)) in *.
  assert (Hlw : forall d,
            wsum (map snd (filter (fun e => vget 0 vcom (fst e) = d) (es ++ [e])))
            = wadd (wsum (map snd (filter (fun e => vget 0 vcom (fst e) = d) es)))
                   (if decide (c = d) then snd e else wzero)).
  { intros d. rewrite filter_app, map_app, wsum_app. f_equal.
    rewrite filter_cons, filter_nil. fold c.
    destruct (decide (c = d)); simpl; [|reflexivity].
    rewrite wsum_cons, wsum_nil. apply wadd_zero_r. }
  assert (Hval : forall d, d < n ->
            vget wzero (<[c := wadd (vget wzero (vcout s) c) (snd e)]> (vcout s)) d
            = wadd (vget wzero (vcout s) d) (if decide (c = d) then snd e else wzero)).
  { intros d Hd. destruct (decide (c = d)) as [<-|Hne].
    - apply vget_insert_eq. lia.
    - rewrite vget_insert_ne by exact Hne. symmetry. apply wadd_zero_r. }
  destruct (decide (c ∈ vcs s)) as [Hc_in|Hc_out].
  - (* the community was touched before *)
    destruct (Hin c Hc_in) as [_ Hpos].
    rewrite (wpos_truthy _ Hpos).
    unfold scanInv. simpl. repeat split.
    + exact Hnd.
    + rewrite length_insert. exact Hlen.
    + rewrite length_app. simpl. lia.
    + intros e' He'. apply elem_of_app in He' as [He'|He'].
      * apply Hcov. exact He'.
      * apply list_elem_of_singleton in He'. subst e'. exact Hc_in.
    + apply (Hin d H).
    + destruct (Hin d H) as [Hd Hp]. rewrite Hval by exact Hd.
      destruct (decide (c = d)); [apply wpos_add; assumption|].
      rewrite wadd_zero_r. exact Hp.
    + intros d Hd. rewrite vget_insert_ne by (intros ->; contradiction).
      apply Hout. exact Hd.
    + intros d Hd. rewrite Hval, Hlw, Hsum by exact Hd. reflexivity.
  - (* the community is new *)
    assert (Hz : vget wzero (vcout s) c = wzero) by (apply Hout; exact Hc_out).
    assert (Ht : wtruthy (vget wzero (vcout s) c) = false)
      by (rewrite Hz; apply wtruthy_zero).
    rewrite Ht.
    unfold scanInv. simpl. repeat split.
    + apply NoDup_app. repeat split; [exact Hnd | | apply NoDup_singleton].
      intros d Hd Hd'. apply list_elem_of_singleton in Hd'. subst d. contradiction.
    + rewrite length_insert. exact Hlen.
    + rewrite !length_app. simpl. lia.
    + intros e' He'. apply elem_of_app. apply elem_of_app in He' as [He'|He'].
      * left. apply Hcov. exact He'.
      * right. apply list_elem_of_singleton in He'. subst e'. left.
    + apply elem_of_app in H as [Hd|Hd]; [apply (Hin d Hd)|].
      apply list_elem_of_singleton in Hd. subst d. exact Hc.
    + apply elem_of_app in H as [Hd|Hd].
      * destruct (Hin d Hd) as [Hdn Hp].
        rewrite vget_insert_ne by (intros ->; contradiction). exact Hp.
      * apply list_elem_of_singleton in Hd. subst d.
        rewrite vget_insert_eq by lia. rewrite Hz, wadd_zero_l. exact Hw.
    + intros d Hd. rewrite vget_insert_ne.
      * apply Hout. intros Hd'. apply Hd, elem_of_app. left. exact Hd'.
      * intros ->. apply Hd, elem_of_app. right. left.
    + intros d Hd. rewrite Hval, Hlw, Hsum by exact Hd. reflexivity.
Qed.

Lemma scanEdges_inv (vcom : list nat) (n : nat) (es es0 : list (nat * W))
    (s : Scratch W) :
  (forall e, e ∈ es -> vget 0 vcom (fst e) < n /\ wpos (snd e)) ->
  scanInv vcom n es0 s ->
  scanInv vcom n (es0 ++ es) (scanEdges s vcom es).
Proof.
  revert es0 s. induction es as [|e es IH]; intros es0 s Hes Hs.
  - rewrite app_nil_r. exact Hs.
  - unfold scanEdges. simpl. fold (scanEdges (louvainScanCommunityW true s 0 e.1 e.2 vcom) vcom es).
    replace (es0 ++ e :: es) with ((es0 ++ [e]) ++ es) by (rewrite <- app_assoc; reflexivity).
    apply IH.
    + intros e' He'. apply Hes. right. exact He'.
    + destruct (Hes e ltac:(left)) as [Hc Hw]. apply scanInv_step; assumption.
Qed.

(** After the scan the accumulated weights add up to the weights of the
    edges scanned. *)
Lemma scanInv_total (vcom : list nat) (n : nat) (es : list (nat * W)) (s : Scratch W) :
  scanInv vcom n es s ->
  wsum (map (vget wzero (vcout s)) (vcs s)) = wsum (map snd es).
Proof.
  intros (Hnd & Hlen & Hle & Hcov & Hin & Hout & Hsum).
  rewrite (wsum_map_ext _
             (fun d => wsum (map (fun e => if decide (vget 0 vcom (fst e) = d)
                                           then snd e else wzero) es))).
  2:{ intros d Hd. destruct (Hin d Hd) as [Hdn _]. rewrite Hsum by exact Hdn.
      apply (wsum_filter (fun e => vget 0 vcom (fst e) = d) snd). }
  rewrite (wsum_exchange
             (fun d e => if decide (vget 0 vcom (fst e) = d) then snd e else wzero)).
  apply wsum_map_ext. intros e He.
  apply wsum_single; [exact Hnd | apply Hcov; exact He].
Qed.
End ScanPositive.

(** ** Emitting the edges of a community *)

(** The emit loop of [louvainAggregateEdgesW] for community [c]: the keys
    [ds] and their values are written to consecutive slots from
    [yoff[c] + ydeg[c]], [ydeg[c]] grows by their number, and nothing else
    changes. *)
Lemma emit_fold {W : Type} (yoff : list nat) (c : nat) (vals : nat -> W)
    (ds : list nat) (deg edg : list nat) (wei : list W) :
  c < length deg ->
  vget 0 yoff c + vget 0 deg c + length ds <= length edg ->
  vget 0 yoff c + vget 0 deg c + length ds <= length wei ->
  let r := foldl (fun y d => csrAddEdgeWU (fst (fst y)) (snd (fst y)) (snd y)
                               yoff c d (vals d))
                 (deg, edg, wei) ds in
  let o := vget 0 yoff c + vget 0 deg c in
  fst (fst r) = <[c := vget 0 deg c + length ds]> deg /\
  (length (snd (fst r)) = length edg /\ length (snd r) = length wei) /\
  (forall k d, ds !! k = Some d ->
     snd (fst r) !! (o + k) = Some d /\ snd r !! (o + k) = Some (vals d)) /\
  (forall i, i < o \/ o + length ds <= i ->
     snd (fst r) !! i = edg !! i /\ snd r !! i = wei !! i).
Proof.
  revert deg edg wei. induction ds as [|d ds IH]; intros deg edg wei Hc He Hw; cbv zeta.
  - simpl. repeat split; try (intros; discriminate).
    rewrite Nat.add_0_r. symmetry. apply list_insert_id, lookup_vget, Hc.
  - simpl in He, Hw.
    set (n := vget 0 deg c) in *. set (p := vget 0 yoff c + n) in *.
    match goal with
    | |- context [foldl ?F (deg, edg, wei) (d :: ds)] =>
        change (foldl F (deg, edg, wei) (d :: ds))
          with (foldl F (<[c := S n]> deg, <[p := d]> edg, <[p := vals d]> wei) ds)
    end.
    specialize (IH (<[c := S n]> deg) (<[p := d]> edg) (<[p := vals d]> wei)).
    cbv zeta in IH.
    rewrite !length_insert in IH. rewrite vget_insert_eq in IH by exact Hc.
    destruct IH as (Ed & (El1 & El2) & Hin & Hout); [exact Hc | lia | lia |].
    split; [|split; [|split]].
    + rewrite Ed, list_insert_insert_eq. f_equal. simpl. lia.
    + split; [exact El1 | exact El2].
    + intros k d0 Hk. destruct k as [|k]; simpl in Hk.
      * injection Hk as <-. rewrite Nat.add_0_r.
        destruct (Hout p ltac:(left; lia)) as [-> ->].
        split; apply list_lookup_insert_eq; lia.
      * replace (p + S k) with (vget 0 yoff c + S n + k) by lia.
        apply (Hin k d0 Hk).
    + intros i Hi. simpl in Hi.
      destruct (Hout i ltac:(lia)) as [-> ->].
      split; apply list_lookup_insert_ne; lia.
Qed.

(** Offsets that grow by [g c] at each [c] below [C] are monotone. *)
Lemma offsets_mono_by (off : list nat) (g : nat -> nat) (C c1 c2 : nat) :
  (forall c, c < C -> vget 0 off (S c) = vget 0 off c + g c) ->
  c1 <= c2 -> c2 <= C -> vget 0 off c1 <= vget 0 off c2.
Proof.
  intros Hoff. induction 1 as [|c2 Hle IH]; intros Hc2; [lia|].
  specialize (IH ltac:(lia)). rewrite Hoff by lia. lia.
Qed.

(** Adding [g u] to the entry of the label of each vertex: the loop of
    [louvainCommunityTotalDegreeW] over the vertices [vs]. *)
Lemma tally_fold (vcom : list nat) (g : nat -> nat) (vs : list nat) (a : list nat)
    (c : nat) :
  c < length a ->
  vget 0 (foldl (fun a u => <[vget 0 vcom u := vget 0 a (vget 0 vcom u) + g u]> a) a vs) c
  = vget 0 a c + sum_list (map g (filter (fun u => vget 0 vcom u = c) vs)).
Proof.
  revert a. induction vs as [|u vs IH]; intros a Hc; simpl; [lia|].
  rewrite IH by (rewrite length_insert; exact Hc). rewrite filter_cons.
  destruct (decide (vget 0 vcom u = c)) as [->|Hne].
  - rewrite vget_insert_eq by exact Hc. simpl. lia.
  - rewrite vget_insert_ne by exact Hne. lia.
Qed.

Lemma sum_tally_cons (vcom : list nat) (g : nat -> nat) (u : nat) (vs l : list nat) :
  NoDup l ->
  sum_list (map (fun c => sum_list (map g (filter (fun u => vget 0 vcom u = c) (u :: vs)))) l)
  = sum_list (map (fun c => sum_list (map g (filter (fun u => vget 0 vcom u = c) vs))) l)
    + (if decide (vget 0 vcom u ∈ l) then g u else 0).
Proof.
  induction 1 as [|c l Hc Hnd IH]; simpl.
  - destruct (decide (vget 0 vcom u ∈ [])) as [Hin|]; [inversion Hin | reflexivity].
  - rewrite IH, filter_cons.
    destruct (decide (vget 0 vcom u = c)) as [E|N]; simpl.
    + destruct (decide (vget 0 vcom u ∈ l)) as [Hin|_]; [rewrite E in Hin; contradiction|].
      destruct (decide (vget 0 vcom u ∈ c :: l)) as [|Hn]; [lia|].
      exfalso. apply Hn. rewrite E. left.
    + destruct (decide (vget 0 vcom u ∈ l)) as [Hin|Hnin].
      * destruct (decide (vget 0 vcom u ∈ c :: l)) as [|Hn]; [lia|].
        exfalso. apply Hn. right. exact Hin.
      * destruct (decide (vget 0 vcom u ∈ c :: l)) as [Hin|]; [|lia].
        apply elem_of_cons in Hin as [?|?]; [congruence | contradiction].
Qed.

(** The tallies of the labels below [C] add up to the tally of all
    vertices. *)
Lemma sum_tally (vcom : list nat) (g : nat -> nat) (vs : list nat) (C : nat) :
  (forall u, u ∈ vs -> vget 0 vcom u < C) ->
  sum_list (map (fun c => sum_list (map g (filter (fun u => vget 0 vcom u = c) vs)))
                (seq 0 C))
  = sum_list (map g vs).
Proof.
  induction vs as [|u vs IH]; intros Hlab.
  - change (sum_list ((fun _ => 0) <$> seq 0 C) = 0).
    rewrite sum_list_fmap_const. lia.
  - rewrite sum_tally_cons by apply NoDup_seq.
    rewrite IH by (intros v Hv; apply Hlab; right; exact Hv).
    destruct (decide (vget 0 vcom u ∈ seq 0 C)) as [|Hn]; [simpl; lia|].
    exfalso. apply Hn, elem_of_seq. specialize (Hlab u ltac:(left)). lia.
Qed.

(** The offsets [<[C := total]> scan] of a list [t] of [C+1] tallies whose
    last is zero are the prefix sums of the tallies. *)
Lemma scan_offsets (g : nat -> nat) (t : list nat) (C : nat) :
  t = g <$> seq 0 (C + 1) -> g C = 0 ->
  let off := <[C := snd (exclusiveScanW t)]> (fst (exclusiveScanW t)) in
  length off = C + 1 /\
  (forall c, c <= C -> vget 0 off c = sum_list (g <$> seq 0 c)) /\
  (forall c, c < C -> vget 0 off (S c) = vget 0 off c + g c).
Proof.
  intros Et HgC off.
  assert (Hlt : length t = C + 1) by (rewrite Et, length_fmap, length_seq; reflexivity).
  assert (Hpre : forall c, c <= C -> vget 0 off c = sum_list (g <$> seq 0 c)).
  { intros c Hc. unfold off, exclusiveScanW. destruct (decide (C = c)) as [<-|Hne].
    - rewrite vget_insert_eq by (rewrite exclusiveScanFrom_length; lia).
      rewrite exclusiveScanFrom_total, Et.
      rewrite Nat.add_1_r, seq_S, fmap_app. simpl.
      rewrite sum_list_snoc, HgC. lia.
    - rewrite vget_insert_ne by exact Hne.
      rewrite exclusiveScanFrom_lookup by lia. rewrite Et, <- fmap_take, take_seq.
      simpl. f_equal. f_equal. f_equal. lia. }
  split; [|split].
  - unfold off, exclusiveScanW. rewrite length_insert, exclusiveScanFrom_length.
    exact Hlt.
  - exact Hpre.
  - intros c Hc. rewrite !Hpre by lia. rewrite seq_S, fmap_app. simpl.
    apply sum_list_snoc.
Qed.

Lemma length_concat_map {A B : Type} (f : A -> list B) (l : list A) :
  length (concat (map f l)) = sum_list (map (fun a => length (f a)) l).
Proof.
  induction l as [|a l IH]; simpl; [reflexivity|].
  rewrite length_app, IH. reflexivity.
Qed.

Section AggregateOffsets.
Context {W G : Type} `{Graph W G}.

Lemma gsize_sum (x : G) : gsize x = sum_list (map (degree x) (vertexKeys x)).
Proof.
  unfold gsize. induction (vertexKeys x) as [|u l IH]; simpl; [reflexivity|].
  rewrite IH. reflexivity.
Qed.

(** The offsets of the aggregated graph: community [c] has room for the
    out-edges of its members, and all of them fit in [x.size()] slots. *)
Lemma aggregate_offsets (x : G) (vcom yoff0 : list nat) (C : nat) :
  length yoff0 = C + 1 ->
  (forall u, u ∈ vertexKeys x -> vget 0 vcom u < C) ->
  let t := louvainCommunityTotalDegreeW yoff0 x vcom in
  let off := <[C := snd (exclusiveScanW t)]> (fst (exclusiveScanW t)) in
  length off = C + 1 /\
  (forall c, c < C ->
     vget 0 off (S c) = vget 0 off c + length (communityEdges x vcom c)) /\
  vget 0 off C = gsize x.
Proof.
  intros Hl Hlab t off.
  set (g := fun c => length (communityEdges x vcom c)).
  assert (Eg : forall c, g c = sum_list (map (degree x) (members x vcom c))).
  { intros c. unfold g, communityEdges. apply length_concat_map. }
  assert (Et : t = g <$> seq 0 (C + 1)).
  { apply list_eq. intros i. rewrite list_lookup_fmap.
    assert (Hlt : length t = C + 1).
    { unfold t, louvainCommunityTotalDegreeW.
      rewrite (length_foldl_write (fun a u => vget 0 a (vget 0 vcom u) + degree x u)
                 (fun u => vget 0 vcom u)).
      unfold fillValueU. rewrite length_replicate. exact Hl. }
    destruct (lt_dec i (C + 1)) as [Hi|Hi].
    - rewrite lookup_seq_lt by exact Hi. simpl.
      rewrite (lookup_vget 0 t i) by lia. f_equal.
      unfold t, louvainCommunityTotalDegreeW.
      rewrite (tally_fold vcom (degree x))
        by (unfold fillValueU; rewrite length_replicate; lia).
      unfold fillValueU. rewrite vget_replicate, Eg. reflexivity.
    - rewrite lookup_seq_ge by lia. apply lookup_ge_None_2. lia. }
  assert (HgC : g C = 0).
  { rewrite Eg. unfold members. rewrite filter_none; [reflexivity|].
    intros u Hu E. specialize (Hlab u Hu). lia. }
  destruct (scan_offsets g t C Et HgC) as (Hlen & Hpre & Hstep).
  fold off in Hlen, Hpre, Hstep.
  split; [exact Hlen|]. split; [exact Hstep|].
  rewrite Hpre by lia. rewrite gsize_sum.
  rewrite <- (sum_tally vcom (degree x) (vertexKeys x) C Hlab).
  f_equal. apply map_ext. intros c. apply Eg.
Qed.

(** Scanning the vertices of a bucket with [SELF] set scans their edges
    in order. *)
Lemma scan_bucket `{Weight W} (x : G) (vcom : list nat) (us : list nat) (s : Scratch W) :
  foldl (fun s u => louvainScanCommunitiesW true s x u vcom) s us
  = scanEdges s vcom (concat (map (edgesOf x) us)).
Proof.
  revert s. induction us as [|u us IH]; intros s; simpl; [reflexivity|].
  rewrite IH. unfold scanEdges. rewrite foldl_app. reflexivity.
Qed.
End AggregateOffsets.

(** ** The aggregation loop *)

Section AggregateLoop.
Context {W G : Type} {HW : Weight W} {HE : ExactWeight W} {HP : PositiveWeight W}
        {HG : Graph W G}.
Variables (x : G) (vcom coff cedg yoff : list nat) (C n ld : nat).
Hypothesis HnC : C <= n.
Hypothesis HldC : C <= ld.
Hypothesis Hlab : forall u, u ∈ vertexKeys x -> vget 0 vcom u < C.
Hypothesis Hpos : forall u e, u ∈ vertexKeys x -> e ∈ edgesOf x u -> wpos (snd e).
Hypothesis Htgt : forall u e, u ∈ vertexKeys x -> e ∈ edgesOf x u -> fst e ∈ vertexKeys x.
Hypothesis Hdeg : forall c, c < C -> csrDegree coff c = length (members x vcom c).
Hypothesis Hbucket : forall c, c < C -> csrEdgeKeys coff cedg c = members x vcom c.
Hypothesis Hyoff : forall c, c < C ->
  vget 0 yoff (S c) = vget 0 yoff c + length (communityEdges x vcom c).

Lemma communityEdges_ok (c : nat) (e : nat * W) :
  e ∈ communityEdges x vcom c -> vget 0 vcom (fst e) < n /\ wpos (snd e).
Proof.
  clear HldC Hdeg Hbucket Hyoff.
  unfold communityEdges. intros He.
  apply list_elem_of_In, in_concat in He as (es & Hes & He).
  apply in_map_iff in Hes as (u & <- & Hu).
  apply list_elem_of_In in Hu, He. unfold members in Hu.
  apply list_elem_of_filter in Hu as [_ Hu]. split.
  - specialize (Hlab _ (Htgt u e Hu He)). lia.
  - apply (Hpos u e Hu He).
Qed.

(** The scratch of community [c] after its scan from a clean scratch. *)
Lemma community_scan (c : nat) :
  scanInv vcom n (communityEdges x vcom c)
    (scanEdges (mkScratch [] (replicate n wzero)) vcom (communityEdges x vcom c)).
Proof.
  apply (scanEdges_inv vcom n (communityEdges x vcom c) []).
  - apply communityEdges_ok.
  - apply scanInv_fresh.
Qed.

Lemma scanInv_clean (es : list (nat * W)) (s : Scratch W) :
  scanInv vcom n es s -> scratchClean s.
Proof.
  intros (_ & _ & _ & _ & _ & Hout & _) d w Hw Hd.
  rewrite <- (vget_lookup wzero _ _ _ Hw). apply Hout. exact Hd.
Qed.

(** One turn of the community loop extends the invariant. *)
Lemma louvainAggregateCommunity_inv (k : nat)
    (st : list nat * list nat * list W * Scratch W) :
  k < C ->
  vget 0 yoff C <= length (snd (fst (fst st))) ->
  vget 0 yoff C <= length (snd (fst st)) ->
  aggInv x vcom yoff n ld k st ->
  let st' := louvainAggregateCommunity x vcom coff cedg yoff st k in
  aggInv x vcom yoff n ld (S k) st' /\
  length (snd (fst (fst st'))) = length (snd (fst (fst st))) /\
  length (snd (fst st')) = length (snd (fst st)).
Proof.
  destruct st as [[[ydeg yedg] ywei] s]. simpl.
  intros Hk Hcap1 Hcap2 (Hclean & Hlen & Hld & Hdone & Htodo). simpl in *.
  unfold louvainAggregateCommunity. simpl.
  pose proof (community_scan k) as Hscan.
  destruct (csrDegree coff k =? 0) eqn:Edeg.
  - (* an empty community *)
    apply Nat.eqb_eq in Edeg. rewrite Hdeg in Edeg by exact Hk.
    apply length_zero_iff_nil in Edeg.
    assert (Ece : communityEdges x vcom k = []).
    { unfold communityEdges. rewrite Edeg. reflexivity. }
    split; [|split; reflexivity].
    unfold aggInv. simpl. repeat split; try assumption.
    + destruct (decide (c = k)) as [->|Hne]; [|apply Hdone; lia].
      rewrite Ece. simpl. apply Htodo. lia.
    + destruct (decide (c = k)) as [->|Hne]; [|apply (Hdone c ltac:(lia)); exact H0].
      rewrite Ece in H0. simpl in H0. discriminate.
    + destruct (decide (c = k)) as [->|Hne]; [|apply (Hdone c ltac:(lia)); exact H0].
      rewrite Ece in H0. simpl in H0. discriminate.
    + intros c Hc. apply Htodo. lia.
  - (* clear, scan the bucket, emit *)
    rewrite (louvainClearScanW_clean s Hclean), Hlen.
    rewrite scan_bucket, Hbucket by exact Hk.
    fold (communityEdges x vcom k).
    set (sc := scanEdges (mkScratch [] (replicate n wzero)) vcom (communityEdges x vcom k)) in *.
    assert (Hsc : scratchClean sc)
      by (apply (scanInv_clean (communityEdges x vcom k)); exact Hscan).
    destruct Hscan as (Hnd & Hlsc & Hle & Hcov & Hin & Hout & Hsum).
    assert (Hz : vget 0 ydeg k = 0) by (apply Htodo; lia).
    assert (Hroom : vget 0 yoff k + length (vcs sc) <= vget 0 yoff (S k)).
    { rewrite Hyoff by exact Hk. lia. }
    assert (Hend : vget 0 yoff (S k) <= vget 0 yoff C).
    { apply (offsets_mono_by yoff (fun c => length (communityEdges x vcom c)) C);
        [exact Hyoff | lia | lia]. }
    destruct (emit_fold yoff k (vget wzero (vcout sc)) (vcs sc) ydeg yedg ywei)
      as (Ed & (El1 & El2) & Hnew & Hold); [lia | lia | lia |].
    rewrite Hz, Nat.add_0_r in Hnew, Hold. rewrite Hz in Ed. simpl in Ed.
    split; [|split; assumption].
    unfold aggInv. simpl. split; [exact Hsc|].
    split; [exact Hlsc|]. split; [rewrite Ed, length_insert; exact Hld|]. split.
    + intros c Hc. destruct (decide (c = k)) as [->|Hne].
      * fold sc. split.
        -- rewrite Ed. apply vget_insert_eq. lia.
        -- intros j d Hj. apply Hnew. exact Hj.
      * assert (Hck : c < k) by lia.
        destruct (Hdone c Hck) as [Hdc Hslots]. split.
        -- rewrite Ed, vget_insert_ne by congruence. exact Hdc.
        -- intros j d Hj.
           assert (Hjl : vget 0 yoff c + j < vget 0 yoff k).
           { apply lookup_lt_Some in Hj.
             destruct (community_scan c) as (_ & _ & Hlec & _).
             assert (vget 0 yoff (S c) <= vget 0 yoff k).
             { apply (offsets_mono_by yoff (fun c => length (communityEdges x vcom c)) C);
                 [exact Hyoff | lia | lia]. }
             rewrite Hyoff in H by lia. lia. }
           destruct (Hold (vget 0 yoff c + j) ltac:(left; exact Hjl)) as [-> ->].
           apply Hslots. exact Hj.
    + intros c Hc. rewrite Ed, vget_insert_ne by lia. apply Htodo. lia.
Qed.

(** The community loop from [k] on carries the invariant to [C]. *)
Lemma louvainAggregateEdges_loop (m k : nat)
    (st : list nat * list nat * list W * Scratch W) :
  k + m = C ->
  vget 0 yoff C <= length (snd (fst (fst st))) ->
  vget 0 yoff C <= length (snd (fst st)) ->
  aggInv x vcom yoff n ld k st ->
  aggInv x vcom yoff n ld C
    (foldl (louvainAggregateCommunity x vcom coff cedg yoff) st (seq k m)).
Proof.
  revert k st. induction m as [|m IH]; intros k st Hkm Hc1 Hc2 Hinv; simpl.
  - replace C with k by lia. exact Hinv.
  - destruct (louvainAggregateCommunity_inv k st ltac:(lia) Hc1 Hc2 Hinv)
      as (Hinv' & El1 & El2).
    apply IH; [lia | rewrite El1; exact Hc1 | rewrite El2; exact Hc2 | exact Hinv'].
Qed.
End AggregateLoop.

(** ** Sums over edges *)

Section EdgeSums.
Context {W : Type} {HW : Weight W} {HE : ExactWeight W}.

Lemma wsum_concat {A B : Type} (w : B -> W) (h : A -> list B) (l : list A) :
  wsum (map w (concat (map h l))) = wsum (map (fun a => wsum (map w (h a))) l).
Proof.
  induction l as [|a l IH]; simpl; [reflexivity|].
  rewrite map_app, wsum_app, wsum_cons, IH. reflexivity.
Qed.

Lemma filter_concat_map {A B : Type} (P : B -> Prop) `{forall b, Decision (P b)}
    (h : A -> list B) (l : list A) :
  filter P (concat (map h l)) = concat (map (fun a => filter P (h a)) l).
Proof.
  induction l as [|a l IH]; simpl; [reflexivity|].
  rewrite filter_app, IH. reflexivity.
Qed.

(** The sum of a term masked by "is [u]" over a list without [u]. *)
Lemma wsum_single_none {A : Type} `{EqDecision A} (t : A -> W) (l : list A) (u : A) :
  u ∉ l -> wsum (map (fun a => if decide (u = a) then t a else wzero) l) = wzero.
Proof.
  intros Hu. rewrite (wsum_map_ext _ (fun _ => wzero)); [apply wsum_zeros|].
  intros a Ha. destruct (decide (u = a)) as [->|]; [contradiction | reflexivity].
Qed.

(** Grouping by label: the sums over the vertices of each label below [C]
    add up to the sum over all vertices. *)
Lemma wsum_by_label (vcom : list nat) (g : nat -> W) (vs : list nat) (C : nat) :
  (forall u, u ∈ vs -> vget 0 vcom u < C) ->
  wsum (map (fun c => wsum (map g (filter (fun u => vget 0 vcom u = c) vs))) (seq 0 C))
  = wsum (map g vs).
Proof.
  intros Hlab.
  rewrite (wsum_map_ext _
             (fun c => wsum (map (fun u => if decide (vget 0 vcom u = c) then g u else wzero) vs))).
  2:{ intros c _. apply (wsum_filter (fun u => vget 0 vcom u = c) g). }
  rewrite (wsum_exchange (fun c u => if decide (vget 0 vcom u = c) then g u else wzero)).
  apply wsum_map_ext. intros u Hu.
  apply wsum_single; [apply NoDup_seq|].
  apply elem_of_seq. specialize (Hlab u Hu). lia.
Qed.

(** The weight into [d] among edges with distinct keys [l] and values
    [f]. *)
Lemma zip_weight (f : nat -> W) (l : list nat) (d : nat) :
  NoDup l ->
  wsum (map snd (filter (fun e : nat * W => fst e = d) (zip l (map f l))))
  = if decide (d ∈ l) then f d else wzero.
Proof.
  induction 1 as [|a l Ha Hnd IH]; simpl.
  - destruct (decide (d ∈ [])) as [Hin|]; [inversion Hin | reflexivity].
  - rewrite filter_cons. simpl. destruct (decide (a = d)) as [->|Hne]; simpl.
    + rewrite wsum_cons, IH.
      destruct (decide (d ∈ l)) as [|_]; [contradiction|].
      destruct (decide (d ∈ d :: l)) as [|Hn]; [apply wadd_zero_r|].
      exfalso. apply Hn. left.
    + rewrite IH. destruct (decide (d ∈ l)) as [Hin|Hnin].
      * destruct (decide (d ∈ a :: l)) as [|Hn]; [reflexivity|].
        exfalso. apply Hn. right. exact Hin.
      * destruct (decide (d ∈ a :: l)) as [Hin|]; [|reflexivity].
        apply elem_of_cons in Hin as [?|?]; [congruence | contradiction].
Qed.

Lemma map_fst_zip {A B : Type} (f : A -> B) (l : list A) : map fst (zip l (map f l)) = l.
Proof. induction l as [|a l IH]; simpl; [reflexivity | rewrite IH; reflexivity]. Qed.

Lemma map_snd_zip {A B : Type} (f : A -> B) (l : list A) :
  map snd (zip l (map f l)) = map f l.
Proof. induction l as [|a l IH]; simpl; [reflexivity | rewrite IH; reflexivity]. Qed.

(** A sum over a duplicate-free list split at one of its entries [u]: the
    entries above [u], the entries below [u], and [u]. *)
Lemma wsum_split_at (f : nat -> W) (l : list nat) (u : nat) :
  NoDup l -> u ∈ l ->
  wsum (map f l)
  = wadd (wsum (map f (filter (fun v => u < v) l)))
         (wadd (wsum (map f (filter (fun v => v < u) l))) (f u)).
Proof.
  intros Hnd Hu.
  rewrite (wsum_filter (fun v => u < v) f), (wsum_filter (fun v => v < u) f).
  rewrite <- (wsum_single (f u) l u Hnd Hu) at 1.
  rewrite <- !wsum_map_add. apply wsum_map_ext. intros v _.
  destruct (decide (u < v)), (decide (v < u)), (decide (u = v)); subst; try lia;
    rewrite ?wadd_zero_l, ?wadd_zero_r; reflexivity.
Qed.
End EdgeSums.

(** ** The aggregated graph *)

Lemma filter_all {A : Type} (P : A -> Prop) `{forall a, Decision (P a)} (l : list A) :
  (forall a, a ∈ l -> P a) -> filter P l = l.
Proof.
  induction l as [|a l IH]; intros Hall; [reflexivity|].
  rewrite filter_cons_True by (apply Hall; left). f_equal.
  apply IH. intros b Hb. apply Hall. right. exact Hb.
Qed.

Lemma vertexKeys_csr {W : Type} (y : DiGraphCsr W) :
  vertexKeys y = seq 0 (length (degrees y)).
Proof.
  unfold vertexKeys. simpl. apply filter_all. intros u Hu.
  apply elem_of_seq in Hu. apply Nat.ltb_lt. lia.
Qed.

Section AggregateFacts.
Context {W G : Type} {HW : Weight W} {HE : ExactWeight W} {HP : PositiveWeight W}
        {HG : Graph W G}.

(** What [louvainAggregateW] builds: the edges of community [c] in [y] are
    the communities its scan touched, each once, with the accumulated
    weights. *)
Lemma louvainAggregateW_edges (x : G) (vcom coff cedg : list nat)
    (y0 : DiGraphCsr W) (s : Scratch W) (C : nat) :
  length coff = C + 1 ->
  (forall u, u ∈ vertexKeys x -> vget 0 vcom u < C) ->
  (forall u e, u ∈ vertexKeys x -> e ∈ edgesOf x u -> wpos (snd e)) ->
  (forall u e, u ∈ vertexKeys x -> e ∈ edgesOf x u -> fst e ∈ vertexKeys x) ->
  (forall c, c < C -> csrDegree coff c = length (members x vcom c)) ->
  (forall c, c < C -> csrEdgeKeys coff cedg c = members x vcom c) ->
  length (offsets y0) = C + 1 -> C <= length (degrees y0) ->
  gsize x <= length (edgeKeys y0) -> gsize x <= length (edgeValues y0) ->
  scratchClean s -> C <= length (vcout s) ->
  let y := fst (louvainAggregateW y0 s x vcom coff cedg) in
  length (degrees y) = length (degrees y0) /\
  forall c, c < C ->
    edgesOf y c
    = zip (vcs (scanEdges (mkScratch [] (replicate (length (vcout s)) wzero)) vcom
                  (communityEdges x vcom c)))
          (map (vget wzero
                  (vcout (scanEdges (mkScratch [] (replicate (length (vcout s)) wzero))
                            vcom (communityEdges x vcom c))))
               (vcs (scanEdges (mkScratch [] (replicate (length (vcout s)) wzero)) vcom
                       (communityEdges x vcom c)))).
Proof.
  intros Hcoff Hlab Hpos Htgt Hdeg Hbucket Hoff0 Hdeg0 Hkeys Hvals Hclean Hn y.
  destruct (aggregate_offsets x vcom (offsets y0) C Hoff0 Hlab) as (Hlen & Hyoff & Htot).
  unfold y, louvainAggregateW, louvainAggregateEdgesW. rewrite Hcoff.
  replace (C + 1 - 1) with C by lia. simpl.
  set (yoff := <[C := _]> _) in *.
  pose proof (louvainAggregateEdges_loop x vcom coff cedg yoff C (length (vcout s))
                (length (degrees y0)) Hn Hdeg0 Hlab Hpos Htgt Hdeg Hbucket Hyoff
                C 0 (fillValueU (degrees y0) 0, edgeKeys y0, edgeValues y0, s)) as Hloop.
  simpl in Hloop. rewrite Htot in Hloop.
  destruct Hloop as (_ & _ & Hld & Hdone & _); [reflexivity | exact Hkeys | exact Hvals | |].
  { unfold aggInv. simpl. repeat split; try assumption; try lia.
    - unfold fillValueU. apply length_replicate.
    - intros c _. unfold fillValueU. apply vget_replicate. }
  split; [exact Hld|].
  intros c Hc. destruct (Hdone c Hc) as [Hd Hslots].
  unfold edgesOf. simpl. rewrite Hd. f_equal.
  - apply vslice_eq. intros k v Hk. apply Hslots. exact Hk.
  - rewrite <- (length_map (vget wzero (vcout (scanEdges
        (mkScratch [] (replicate (length (vcout s)) wzero)) vcom (communityEdges x vcom c))))).
    apply vslice_eq. intros k v Hk.
    change (map ?f ?l) with (f <$> l) in Hk. rewrite list_lookup_fmap in Hk.
    destruct (vcs _ !! k) as [d|] eqn:Ek; [|discriminate].
    simpl in Hk. injection Hk as <-. apply (Hslots k d Ek).
Qed.
End AggregateFacts.

(** ** Weights inside a community of a symmetric graph *)

Section SymmetricFacts.
Context {W G : Type} {HW : Weight W} {HE : ExactWeight W} {HG : Graph W G}.
Variables (x : G) (vcom : list nat).
Hypothesis Htgt : forall u e, u ∈ vertexKeys x -> e ∈ edgesOf x u -> fst e ∈ vertexKeys x.

Lemma NoDup_members (c : nat) : NoDup (members x vcom c).
Proof. apply NoDup_filter, NoDup_vertexKeys. Qed.

Lemma elem_of_members (c u : nat) :
  u ∈ members x vcom c <-> vget 0 vcom u = c /\ u ∈ vertexKeys x.
Proof. unfold members. rewrite list_elem_of_filter. reflexivity. Qed.

(** The weight from [u] into community [d], edge by edge, is the sum of
    [weightTo x u v] over the members [v] of [d]. *)
Lemma link_by_members (u d : nat) :
  u ∈ vertexKeys x ->
  wsum (map snd (filter (fun e => vget 0 vcom (fst e) = d) (edgesOf x u)))
  = wsum (map (weightTo x u) (members x vcom d)).
Proof.
  intros Hu. unfold weightTo.
  rewrite (wsum_map_ext _
             (fun v => wsum (map (fun e : nat * W => if decide (fst e = v) then snd e else wzero)
                                 (edgesOf x u)))).
  2:{ intros v _. apply (wsum_filter (fun e : nat * W => fst e = v) snd). }
  rewrite (wsum_exchange
             (fun v (e : nat * W) => if decide (fst e = v) then snd e else wzero)).
  rewrite (wsum_filter (fun e : nat * W => vget 0 vcom (fst e) = d) snd).
  apply wsum_map_ext. intros e He.
  destruct (decide (vget 0 vcom (fst e) = d)) as [E|N].
  - symmetry. apply (wsum_single (snd e) (members x vcom d) (fst e)).
    + apply NoDup_members.
    + apply elem_of_members. split; [exact E | apply (Htgt u e Hu He)].
  - symmetry. apply (wsum_single_none (fun _ => snd e)).
    intros Hin. apply elem_of_members in Hin. tauto.
Qed.

(** In a symmetric graph the weight from a community into itself is twice
    its internal weight plus its self-loops. *)
Lemma linkWeight_self (c : nat) :
  symmetricGraph x ->
  linkWeight x vcom c c
  = wadd (wadd (internalWeight x vcom c) (internalWeight x vcom c))
         (selfLoopWeight x vcom c).
Proof.
  intros Hsym. unfold linkWeight, communityEdges.
  rewrite filter_concat_map.
  rewrite (wsum_concat snd (fun u => filter (fun e => vget 0 vcom (fst e) = c) (edgesOf x u))).
  set (mc := members x vcom c).
  assert (Hmc : forall u, u ∈ mc -> u ∈ vertexKeys x).
  { intros u Hu. apply elem_of_members in Hu. tauto. }
  rewrite (wsum_map_ext _
             (fun u => wadd (wsum (map (weightTo x u) (filter (fun v => u < v) mc)))
                            (wadd (wsum (map (weightTo x u) (filter (fun v => v < u) mc)))
                                  (weightTo x u u)))).
  2:{ intros u Hu. rewrite link_by_members by (apply Hmc; exact Hu).
      apply wsum_split_at; [apply NoDup_members | exact Hu]. }
  rewrite wsum_map_add, wsum_map_add.
  fold (internalWeight x vcom c). fold (selfLoopWeight x vcom c).
  rewrite wadd_assoc. f_equal. f_equal.
  (* the pairs with the smaller vertex second, read from the other end *)
  unfold internalWeight. fold mc.
  rewrite (wsum_map_ext _
             (fun u => wsum (map (fun v => if decide (v < u) then weightTo x v u else wzero) mc))).
  2:{ intros u Hu. rewrite (wsum_filter (fun v => v < u) (weightTo x u)).
      apply wsum_map_ext. intros v Hv. destruct (decide (v < u)); [|reflexivity].
      apply Hsym; apply Hmc; assumption. }
  rewrite (wsum_exchange (fun u v => if decide (v < u) then weightTo x v u else wzero)).
  apply wsum_map_ext. intros v _.
  symmetry. apply (wsum_filter (fun u => v < u) (weightTo x v)).
Qed.
End SymmetricFacts.

Section AggregateTheorem.
Context {W G : Type} {HW : Weight W} {HE : ExactWeight W} {HP : PositiveWeight W}
        {HG : Graph W G}.

(** C5, as the code has it: for a symmetric graph [x] whose edge weights
    are strictly positive and add without rounding, and labels below [C],
    the graph [y] that [louvainAggregateW] builds from the buckets of
    [louvainCommunityVerticesW] has the [C] communities as vertices and
    the total edge weight of [x]; the weight in [y] from [c] to [d] is the
    sum of the weights of the edges of [x] from [c] into [d], on at most
    one edge; and the self-loop of [c] weighs twice the internal weight of
    [c] plus the self-loops of its members. *)
Theorem louvainAggregateW_weights (x : G) (vcom coff0 cdeg0 cedg0 : list nat)
    (y0 : DiGraphCsr W) (s : Scratch W) (C : nat) :
  symmetricGraph x ->
  (forall u e, u ∈ vertexKeys x -> e ∈ edgesOf x u -> wpos (snd e)) ->
  (forall u e, u ∈ vertexKeys x -> e ∈ edgesOf x u -> fst e ∈ vertexKeys x) ->
  (forall u, u ∈ vertexKeys x -> vget 0 vcom u < C) ->
  length coff0 = C + 1 -> C <= length cdeg0 -> order x <= length cedg0 ->
  length (offsets y0) = C + 1 -> length (degrees y0) = C ->
  gsize x <= length (edgeKeys y0) -> gsize x <= length (edgeValues y0) ->
  scratchClean s -> C <= length (vcout s) ->
  let cv := louvainCommunityVerticesW coff0 cdeg0 cedg0 x vcom in
  let y := fst (louvainAggregateW y0 s x vcom (fst (fst cv)) (snd cv)) in
  span y = C /\
  edgeWeight y = edgeWeight x /\
  (forall c d, c < C -> d < C ->
     weightTo y c d = linkWeight x vcom c d /\ NoDup (map fst (edgesOf y c))) /\
  (forall c, c < C ->
     weightTo y c c
     = wadd (wadd (internalWeight x vcom c) (internalWeight x vcom c))
            (selfLoopWeight x vcom c)).
Proof.
  intros Hsym Hpos Htgt Hlab Hcoff Hcdeg Hcedg Hoff0 Hdeg0 Hkeys Hvals Hclean Hn cv y.
  destruct (louvainCommunityVerticesW_spec x vcom coff0 cdeg0 cedg0 C
              Hcoff Hcdeg Hcedg Hlab) as (Hlen & _ & Hdeg & Hbucket).
  fold cv in Hlen, Hdeg, Hbucket.
  destruct (louvainAggregateW_edges x vcom (fst (fst cv)) (snd cv) y0 s C
              Hlen Hlab Hpos Htgt Hdeg Hbucket Hoff0 ltac:(lia) Hkeys Hvals Hclean Hn)
    as (Hspan & Hedges).
  fold y in Hspan, Hedges.
  set (n := length (vcout s)) in *.
  assert (Hscan : forall c, scanInv vcom n (communityEdges x vcom c)
            (scanEdges (mkScratch [] (replicate n wzero)) vcom (communityEdges x vcom c))).
  { intros c. apply (community_scan x vcom C n Hn Hlab Hpos Htgt). }
  assert (Hto : forall c d, c < C -> d < C -> weightTo y c d = linkWeight x vcom c d).
  { intros c d Hc Hd. unfold weightTo, linkWeight. rewrite Hedges by exact Hc.
    destruct (Hscan c) as (Hnd & _ & _ & _ & _ & Hout & Hsum).
    rewrite zip_weight by exact Hnd. rewrite <- Hsum by lia.
    destruct (decide (d ∈ vcs _)) as [|Hnin]; [reflexivity|].
    symmetry. apply Hout. exact Hnin. }
  split; [change (length (degrees y) = C); lia|]. split; [|split].
  - unfold edgeWeight at 1. rewrite vertexKeys_csr, Hspan, Hdeg0.
    rewrite (wsum_concat snd (edgesOf y)).
    rewrite (wsum_map_ext _
               (fun c => wsum (map (fun u => wsum (map snd (edgesOf x u)))
                                   (filter (fun u => vget 0 vcom u = c) (vertexKeys x))))).
    2:{ intros c Hc. apply elem_of_seq in Hc. rewrite Hedges by lia.
        rewrite map_snd_zip, (scanInv_total vcom n _ _ (Hscan c)).
        unfold communityEdges. apply (wsum_concat snd (edgesOf x)). }
    rewrite (wsum_by_label vcom _ (vertexKeys x) C Hlab).
    unfold edgeWeight. symmetry. apply (wsum_concat snd (edgesOf x)).
  - intros c d Hc Hd. split; [apply Hto; assumption|].
    rewrite Hedges by exact Hc. rewrite map_fst_zip. apply (Hscan c).
  - intros c Hc. rewrite Hto by exact Hc.
    apply linkWeight_self; assumption.
Qed.
End AggregateTheorem.

(** ** The statements on concrete inputs *)

(** Case analysis on a membership [H : u ∈ l] in a list [l] that computes
    to a literal. *)
Ltac list_cases H :=
  repeat (apply elem_of_cons in H as [->|H]);
  try (apply elem_of_nil in H; contradiction).

Lemma vertexKeys_pathZ : vertexKeys pathZ = [0; 1; 2].
Proof. reflexivity. Qed.

Lemma pathZ_symmetric : symmetricGraph pathZ.
Proof.
  intros u v Hu Hv. rewrite vertexKeys_pathZ in Hu, Hv.
  list_cases Hu; list_cases Hv; reflexivity.
Qed.

Lemma pathZ_positive (u : nat) (e : nat * Z) :
  u ∈ vertexKeys pathZ -> e ∈ edgesOf pathZ u -> wpos (snd e).
Proof.
  intros Hu He. rewrite vertexKeys_pathZ in Hu.
  list_cases Hu; simpl in He; list_cases He; reflexivity.
Qed.

Lemma pathZ_targets (u : nat) (e : nat * Z) :
  u ∈ vertexKeys pathZ -> e ∈ edgesOf pathZ u -> fst e ∈ vertexKeys pathZ.
Proof.
  intros Hu He. rewrite vertexKeys_pathZ in *.
  list_cases Hu; simpl in He; list_cases He; simpl;
    repeat (first [left | right]).
Qed.




(** Doubles that compare as different are different. *)
Lemma float_neq (a b : float) : PrimFloat.eqb a b = false -> PrimFloat.eqb a a = true -> a <> b.
Proof. intros Hab Haa E. rewrite <- E in Hab. congruence. Qed.


(** Renumbering the labels 2, 2, 0 of the path 0-1-2. *)
Lemma renumber_labels_contiguous_witness :
  let vcom := [2; 2; 0] in
  let cext := [0; 0; 0] in
  let ex := louvainCommunityExistsW cext pathZ vcom in
  let rn := louvainRenumberCommunitiesW vcom (fst ex) in
  (forall u, u ∈ vertexKeys pathZ -> u < length vcom /\ vget 0 vcom u < length cext) /\
  (ex = ([1; 0; 1], 2) /\ rn = ([1; 1; 0], [0; 1; 1], 2)) /\
  (forall k, k < snd rn <-> exists u, u ∈ vertexKeys pathZ /\ vget 0 (fst (fst rn)) u = k).
Proof.
  intros vcom cext ex rn.
  assert (Hpre : forall u, u ∈ vertexKeys pathZ ->
                   u < length vcom /\ vget 0 vcom u < length cext).
  { intros u Hu. rewrite vertexKeys_pathZ in Hu.
    list_cases Hu; unfold vget; simpl; lia. }
  split; [exact Hpre|]. split; [split; reflexivity|].
  apply (renumber_labels_contiguous pathZ vcom cext Hpre).
Defined.

(** The buckets of the partition {0,1}, {2} of the path 0-1-2. *)
Lemma louvainCommunityVerticesW_partition_witness :
  let vcom := [0; 0; 1] in
  let r := louvainCommunityVerticesW [0; 0; 0] [0; 0] [0; 0; 0] pathZ vcom in
  (forall u, u ∈ vertexKeys pathZ -> vget 0 vcom u < 2) /\
  r = ([0; 2; 3], [2; 1], [0; 1; 2]) /\
  vget 0 (fst (fst r)) 2 = order pathZ /\
  (forall c, c < 2 ->
     vslice (snd r) (vget 0 (fst (fst r)) c)
            (vget 0 (fst (fst r)) (c + 1) - vget 0 (fst (fst r)) c)
     ≡ₚ members pathZ vcom c).
Proof.
  intros vcom r.
  assert (Hlab : forall u, u ∈ vertexKeys pathZ -> vget 0 vcom u < 2).
  { intros u Hu. rewrite vertexKeys_pathZ in Hu.
    list_cases Hu; unfold vget; simpl; lia. }
  split; [exact Hlab|]. split; [reflexivity|].
  destruct (louvainCommunityVerticesW_partition pathZ vcom [0; 0; 0] [0; 0] [0; 0; 0] 2)
    as (Htot & Hperm & _);
    [reflexivity | vm_compute; lia | vm_compute; lia | exact Hlab |].
  split; [exact Htot | exact Hperm].
Defined.

(** Aggregating the partition {0,1}, {2} of the path 0-1-2: the self-loop
    of community 0 weighs 4, twice the weight of the edge 0-1, and the
    edges between the communities weigh 3. *)
Lemma louvainAggregateW_weights_witness :
  let vcom := [0; 0; 1] in
  let cv := louvainCommunityVerticesW [0; 0; 0] [0; 0] [0; 0; 0] pathZ vcom in
  let y0 := respan 2 (csrNew 0%Z 3 (gsize pathZ)) in
  let s := mkScratch [] (replicate 3 0%Z) in
  let y := fst (louvainAggregateW y0 s pathZ vcom (fst (fst cv)) (snd cv)) in
  (symmetricGraph pathZ /\ gsize pathZ <= length (edgeKeys y0) /\ scratchClean s) /\
  y = mkCsr [0; 3; 4] [2; 1] [0; 1; 0; 0] [4; 3; 0; 3]%Z /\
  edgeWeight y = edgeWeight pathZ /\
  (forall c, c < 2 ->
     weightTo y c c
     = wadd (wadd (internalWeight pathZ vcom c) (internalWeight pathZ vcom c))
            (selfLoopWeight pathZ vcom c)).
Proof.
  intros vcom cv y0 s y.
  assert (Hlab : forall u, u ∈ vertexKeys pathZ -> vget 0 vcom u < 2).
  { intros u Hu. rewrite vertexKeys_pathZ in Hu.
    list_cases Hu; unfold vget; simpl; lia. }
  split.
  { split; [apply pathZ_symmetric|].
    split; [vm_compute; lia | exact (scratchClean_fresh 3)]. }
  split; [reflexivity|].
  destruct (louvainAggregateW_weights pathZ vcom [0; 0; 0] [0; 0] [0; 0; 0] y0 s 2)
    as (_ & Hw & _ & Hself);
    [apply pathZ_symmetric | apply pathZ_positive | apply pathZ_targets | exact Hlab
    | reflexivity | vm_compute; lia | vm_compute; lia | reflexivity | reflexivity
    | vm_compute; lia | vm_compute; lia | exact (scratchClean_fresh 3)
    | vm_compute; lia |].
  split; [exact Hw | exact Hself].
Defined.

Lemma vertexKeys_zeroEdgeZ : vertexKeys zeroEdgeZ = [0; 1; 2].
Proof. reflexivity. Qed.

(** A symmetric graph with an edge of weight zero, labels 0, 1, 1: the scan
    of community 0 finds [vcout[1]] zero at the second edge into community
    1 as well and lists the community twice, so [y] has two edges 0-1 of
    weight 5 each way, and the total edge weight 20 where [x] has 10. *)
Lemma louvainAggregateW_zero_weight_edge :
  let vcom := [0; 1; 1] in
  let cv := louvainCommunityVerticesW [0; 0; 0] [0; 0] [0; 0; 0] zeroEdgeZ vcom in
  let y0 := respan 2 (csrNew 0%Z 3 (gsize zeroEdgeZ)) in
  let y := fst (louvainAggregateW y0 (mkScratch [] (replicate 3 0%Z)) zeroEdgeZ vcom
                  (fst (fst cv)) (snd cv)) in
  symmetricGraph zeroEdgeZ /\
  map (vget 0 vcom) (vertexKeys zeroEdgeZ) = [0; 1; 1] /\
  edgesOf y 0 = [(1, 5%Z); (1, 5%Z)] /\
  edgeWeight zeroEdgeZ = 10%Z /\ edgeWeight y = 20%Z /\
  edgeWeight y <> edgeWeight zeroEdgeZ /\
  weightTo y 0 1 <> linkWeight zeroEdgeZ vcom 0 1.
Proof.
  split.
  { intros u v Hu Hv. rewrite vertexKeys_zeroEdgeZ in Hu, Hv.
    list_cases Hu; list_cases Hv; reflexivity. }
  vm_compute. repeat split; discriminate.
Qed.

(** On doubles the aggregated weights round. On the star with the edges
    0-2 and 1-2 of weight 1 and 2-3 of weight 2^53, symmetric and of
    strictly positive weights, with the labels 0, 0, 1, 0: the graph [y]
    weighs 2^54 where [x] weighs 2^54 + 4, and the weight from community 0
    to community 1 is 2^53 + 2 where the weight back, the sum of the same
    three weights in another order, is 2^53. *)
Lemma louvainAggregateW_rounds_on_doubles :
  let vcom := [0; 0; 1; 0] in
  let cv := louvainCommunityVerticesW [0; 0; 0] [0; 0] [0; 0; 0; 0] unevenStar4 vcom in
  let y0 := respan 2 (csrNew 0%float 4 (gsize unevenStar4)) in
  let y := fst (louvainAggregateW y0 (mkScratch [] (replicate 4 0%float)) unevenStar4
                  vcom (fst (fst cv)) (snd cv)) in
  symmetricGraph unevenStar4 /\
  (forall u e, u ∈ vertexKeys unevenStar4 -> e ∈ edgesOf unevenStar4 u -> wpos (snd e)) /\
  edgeWeight unevenStar4 = 0x1.0000000000001p+54%float /\
  edgeWeight y = 0x1p+54%float /\
  edgeWeight y <> edgeWeight unevenStar4 /\
  weightTo y 0 1 = 0x1.0000000000001p+53%float /\
  weightTo y 1 0 = 0x1p+53%float /\
  weightTo y 0 1 <> weightTo y 1 0.
Proof.
  intros vcom cv y0 y.
  assert (Hk : vertexKeys unevenStar4 = [0; 1; 2; 3]) by reflexivity.
  split.
  { intros u v Hu Hv. rewrite Hk in Hu, Hv.
    list_cases Hu; list_cases Hv; vm_compute; reflexivity. }
  split.
  { intros u e Hu He. rewrite Hk in Hu.
    list_cases Hu; simpl in He; list_cases He; vm_compute; reflexivity. }
  split; [vm_compute; reflexivity|]. split; [vm_compute; reflexivity|].
  split; [apply float_neq; vm_compute; reflexivity|].
  split; [vm_compute; reflexivity|]. split; [vm_compute; reflexivity|].
  apply float_neq; vm_compute; reflexivity.
Qed.

(** ** The membership the drivers compose *)

Lemma walkLevels_app (l1 l2 : list PassRecord) (c : nat) :
  walkLevels (l1 ++ l2) c = walkLevels l2 (walkLevels l1 c).
Proof. revert c. induction l1 as [|r l1 IH]; intros c; simpl; [reflexivity | apply IH]. Qed.

Lemma vget_copyValuesW {A : Type} (d : A) (a x : list A) (u : nat) :
  u < length x -> vget d (copyValuesW a x) u = vget d x u.
Proof.
  intros Hu. unfold vget, copyValuesW. rewrite lookup_app_l by exact Hu. reflexivity.
Qed.

Lemma length_copyValuesW {A : Type} (a x : list A) :
  length x = length a -> length (copyValuesW a x) = length a.
Proof. intros Hx. unfold copyValuesW. rewrite length_app, length_drop. lia. Qed.

Lemma length_louvainLookupCommunitiesU (a vcom : list nat) :
  length (louvainLookupCommunitiesU a vcom) = length a.
Proof. unfold louvainLookupCommunitiesU. apply length_map. Qed.

Lemma vget_louvainLookupCommunitiesU (a vcom : list nat) (u : nat) :
  u < length a ->
  vget 0 (louvainLookupCommunitiesU a vcom) u = vget 0 vcom (vget 0 a u).
Proof. intros Hu. unfold louvainLookupCommunitiesU. apply vget_map. exact Hu. Qed.

(** A lookup through a vector whose entry 0 is [K()] commutes with the
    read at every index, as a read beyond the vector gives [K()]. *)
Lemma vget_louvainLookupCommunitiesU_zero (a vcom : list nat) (i : nat) :
  vget 0 vcom 0 = 0 ->
  vget 0 (louvainLookupCommunitiesU a vcom) i = vget 0 vcom (vget 0 a i).
Proof.
  intros H0. destruct (Nat.lt_ge_cases i (length a)) as [Hi|Hi].
  - apply vget_louvainLookupCommunitiesU. exact Hi.
  - rewrite (vget_ge 0 a i Hi), H0. apply vget_ge.
    rewrite length_louvainLookupCommunitiesU. exact Hi.
Qed.

Lemma exclusiveScanW_head (x : list nat) : vget 0 (fst (exclusiveScanW x)) 0 = 0.
Proof. destruct x; reflexivity. Qed.

Lemma length_fst_foldl {A B C : Type} (f : list A * B -> C -> list A * B)
    (l : list C) (s : list A * B) :
  (forall s c, length (fst (f s c)) = length (fst s)) ->
  length (fst (foldl f s l)) = length (fst s).
Proof.
  intros Hf. revert s. induction l as [|c l IH]; intros s; simpl; [reflexivity|].
  rewrite IH. apply Hf.
Qed.

Section MoveLengths.
Context {W G : Type} `{Weight W} `{Modularity W} `{Graph W G}.

Lemma louvainInitializeW_length (vcom : list nat) (ctot : list W) (x : G)
    (vtot : list W) :
  length (fst (louvainInitializeW vcom ctot x vtot)) = length vcom.
Proof.
  unfold louvainInitializeW. rewrite length_fst_foldl; [reflexivity|].
  intros s c. simpl. apply length_insert.
Qed.

Lemma louvainInitializeFromW_length (vcom : list nat) (ctot : list W) (x : G)
    (vtot : list W) (q : list nat) :
  length (fst (louvainInitializeFromW vcom ctot x vtot q)) = length vcom.
Proof.
  unfold louvainInitializeFromW. rewrite length_fst_foldl; [reflexivity|].
  intros s c. simpl. apply length_insert.
Qed.

Lemma louvainMoveVertex_length (x : G) (vtot : list W) (M R : W)
    (st : MoveState W) (u : nat) :
  length (mv_vcom (louvainMoveVertex x vtot M R st u)) = length (mv_vcom st).
Proof.
  unfold louvainMoveVertex.
  destruct (negb (vget false (mv_vaff st) u)); [reflexivity|]. cbv zeta.
  match goal with |- context [if negb ?b then _ else _] => destruct (negb b) end;
    simpl; [apply length_insert | reflexivity].
Qed.

Lemma louvainMoveVertices_length (x : G) (vtot : list W) (M R : W)
    (vs : list nat) (st : MoveState W) :
  length (mv_vcom (foldl (louvainMoveVertex x vtot M R) st vs)) = length (mv_vcom st).
Proof.
  revert st. induction vs as [|u vs IH]; intros st; simpl; [reflexivity|].
  rewrite IH. apply louvainMoveVertex_length.
Qed.

Lemma louvainMoveLoop_length (fuel : nat) (x : G) (vtot : list W) (M R : W) (L : Z)
    (fc : W -> Z -> bool) (l : Z) (st : MoveState W) :
  length (mv_vcom (snd (louvainMoveLoop fuel x vtot M R L fc l st)))
  = length (mv_vcom st).
Proof.
  revert l st. induction fuel as [|fuel IH]; intros l st; simpl; [reflexivity|].
  destruct (l <? L)%Z; [|reflexivity].
  destruct (fc _ l); simpl; [|rewrite IH];
    unfold louvainMoveSweep; rewrite louvainMoveVertices_length; reflexivity.
Qed.

(** [louvainMoveW] keeps the size of [vcom]. *)
Lemma louvainMoveW_length (vcom : list nat) (ctot : list W) (vaff : list bool)
    (s : Scratch W) (x : G) (vtot : list W) (M R : W) (L : Z) (fc : W -> Z -> bool) :
  length (mv_vcom (snd (louvainMoveW vcom ctot vaff s x vtot M R L fc))) = length vcom.
Proof. unfold louvainMoveW. simpl. apply louvainMoveLoop_length. Qed.
End MoveLengths.

Section MembershipFacts.
Context {W G : Type} `{Weight W} `{Modularity W} `{Graph W G}.

(** The state a run starts from has [vcom] and [a] of the size of the
    graph, and an empty log. *)
Lemma louvainSeqInit_lengths (x : G) (q : option (list nat)) (o : LouvainOptions W)
    (fm : list bool -> list bool) :
  let st := fst (louvainSeqInit x q o fm) in
  length (ls_vcom st) = span x /\ length (ls_a st) = span x /\
  ls_p st = 0%Z /\ ls_log st = [].
Proof.
  unfold louvainSeqInit. cbv zeta. cbn [fst ls_vcom ls_a ls_p ls_log].
  split; [|split; [apply length_replicate | split; reflexivity]].
  destruct q as [q|].
  - rewrite louvainInitializeFromW_length. apply length_replicate.
  - rewrite louvainInitializeW_length. apply length_replicate.
Qed.

(** The record a pass of [louvainSeq] logs holds [vcom] as the local mover
    left it. *)
Lemma louvainPass_log {G' : Type} `{Graph W G'} (g : G') (o : LouvainOptions W)
    (M : W) (st : LouvainState W) :
  let mv := louvainMoveW (ls_vcom st) (ls_ctot st) (ls_vaff st) (ls_scratch st)
              g (ls_vtot st) M (resolution o) (maxIterations o)
              (fun el _ => wleb el (ls_E st)) in
  exists ren,
    ls_log (fst (louvainPass g o M st))
    = ls_log st ++ [mkPass (fst mv) (mv_vcom (snd mv)) ren].
Proof.
  intros mv. unfold louvainPass. fold mv.
  destruct ((fst mv <=? 1)%Z || (maxPasses o <=? ls_p st + 1)%Z); simpl.
  - eauto.
  - match goal with |- context [if ?b then _ else _] => destruct b end; simpl; eauto.
Qed.

(** What a pass of [louvainSeq] keeps: the sizes of [vcom] and [a], the
    pass count as the length of the log, and [a] as the composition of the
    logged [vcom] vectors, none of them renumbered. *)
Lemma louvainPass_walk {G' : Type} `{Graph W G'} (g : G') (o : LouvainOptions W)
    (M : W) (st : LouvainState W) (S : nat) :
  length (ls_vcom st) = S -> length (ls_a st) = S ->
  ls_p st = Z.of_nat (length (ls_log st)) ->
  (ls_log st <> [] -> forall u, u < S ->
     vget 0 (ls_a st) u = walkLevels (withoutRenumbering (ls_log st)) u) ->
  let st' := fst (louvainPass g o M st) in
  length (ls_a st') = S /\
  ls_p st' = Z.of_nat (length (ls_log st')) /\
  (forall u, u < S ->
     vget 0 (ls_a st') u = walkLevels (withoutRenumbering (ls_log st')) u).
Proof.
  intros Hv Ha Hp Hw st'.
  destruct (louvainPass_counts g o M st) as (_ & Ep & _).
  destruct (louvainPass_log g o M st) as (ren & Elog).
  pose proof (louvainPass_membership g o M st) as Ea.
  cbv zeta in Ep, Elog, Ea. fold st' in Ep, Elog, Ea.
  pose proof (louvainMoveW_length (ls_vcom st) (ls_ctot st) (ls_vaff st)
                (ls_scratch st) g (ls_vtot st) M (resolution o) (maxIterations o)
                (fun el _ => wleb el (ls_E st))) as Hlv.
  rewrite Hv in Hlv.
  set (mv := louvainMoveW (ls_vcom st) (ls_ctot st) (ls_vaff st) (ls_scratch st)
               g (ls_vtot st) M (resolution o) (maxIterations o)
               (fun el _ => wleb el (ls_E st))) in *.
  split.
  { rewrite Ea. destruct (ls_p st =? 0)%Z.
    - rewrite length_copyValuesW; lia.
    - rewrite length_louvainLookupCommunitiesU. exact Ha. }
  split.
  { rewrite Ep, Elog, Hp, length_app. simpl. lia. }
  intros u Hu. rewrite Elog. unfold withoutRenumbering.
  rewrite map_app, walkLevels_app.
  cbn [map walkLevels pr_vcom pr_renumber]. rewrite Ea.
  destruct (Z.eqb_spec (ls_p st) 0) as [E0|E0].
  - assert (El : ls_log st = []).
    { destruct (ls_log st); [reflexivity | simpl in Hp; lia]. }
    rewrite El. cbn [map walkLevels]. apply vget_copyValuesW. lia.
  - rewrite vget_louvainLookupCommunitiesU by lia.
    rewrite Hw; [reflexivity | | exact Hu].
    intros El. rewrite El in Hp. simpl in Hp. lia.
Qed.

(** Every branch of the pass body leaves [vcom] with the size it had. *)
Lemma louvainPass_length {G' : Type} `{Graph W G'} (g : G') (o : LouvainOptions W)
    (M : W) (st : LouvainState W) :
  length (ls_vcom (fst (louvainPass g o M st))) = length (ls_vcom st).
Proof.
  unfold louvainPass.
  match goal with |- context [if ?b || ?c then _ else _] => destruct (b || c) end;
    [apply louvainMoveW_length|].
  match goal with |- context [if wleb ?a ?b then _ else _] => destruct (wleb a b) end;
    [apply louvainMoveW_length|].
  cbn [fst ls_vcom]. rewrite louvainInitializeW_length.
  unfold fillValueU. rewrite length_replicate.
  unfold louvainRenumberCommunitiesW. cbn [fst].
  rewrite length_louvainLookupCommunitiesU. apply louvainMoveW_length.
Qed.

(** The pass loop of [louvainSeq] keeps [a] the composition of the logged
    [vcom] vectors. *)
Lemma louvainPasses_walk (fuel : nat) (x : G) (o : LouvainOptions W) (M : W)
    (st : LouvainState W) (S : nat) :
  length (ls_vcom st) = S -> length (ls_a st) = S ->
  ls_p st = Z.of_nat (length (ls_log st)) ->
  (ls_log st <> [] -> forall u, u < S ->
     vget 0 (ls_a st) u = walkLevels (withoutRenumbering (ls_log st)) u) ->
  let st' := louvainPasses fuel x o M st in
  ls_log st' <> [] -> forall u, u < S ->
    vget 0 (ls_a st') u = walkLevels (withoutRenumbering (ls_log st')) u.
Proof.
  revert st. induction fuel as [|fuel IH]; intros st Hv Ha Hp Hw; simpl; [exact Hw|].
  destruct (wltb wzero M && (ls_p st <? maxPasses o)%Z); [|exact Hw].
  assert (Hstep : forall r : LouvainState W * bool,
            length (ls_vcom (fst r)) = S ->
            length (ls_a (fst r)) = S /\
            ls_p (fst r) = Z.of_nat (length (ls_log (fst r))) /\
            (forall u, u < S ->
               vget 0 (ls_a (fst r)) u
               = walkLevels (withoutRenumbering (ls_log (fst r))) u) ->
            let st' := if snd r then fst r else louvainPasses fuel x o M (fst r) in
            ls_log st' <> [] -> forall u, u < S ->
              vget 0 (ls_a st') u = walkLevels (withoutRenumbering (ls_log st')) u).
  { intros r Hrv (Hra & Hrp & Hrw). destruct (snd r); simpl.
    - intros _. exact Hrw.
    - apply IH; [exact Hrv | exact Hra | exact Hrp | intros _; exact Hrw]. }
  destruct (ls_p st =? 0)%Z.
  - apply Hstep.
    + rewrite louvainPass_length. exact Hv.
    + apply (louvainPass_walk x o M st S Hv Ha Hp Hw).
  - apply Hstep.
    + rewrite louvainPass_length. exact Hv.
    + apply (louvainPass_walk (ls_y st) o M st S Hv Ha Hp Hw).
Qed.

(** X21: What [louvainSeq] returns, run with [repeat = 1], when a pass ran:
    the membership of a vertex is its label carried through the [vcom] of
    every level as the local mover left it, with no level's renumbering
    applied. *)
Lemma louvainSeq_membership_walk (x : G) (q : option (list nat))
    (o : LouvainOptions W) (fm : list bool -> list bool) (u : nat) :
  u < span x -> louvainSeqLog x q o fm <> [] ->
  vget 0 (membership (louvainSeq x q o fm)) u
  = walkLevels (withoutRenumbering (louvainSeqLog x q o fm)) u.
Proof.
  intros Hu Hlog.
  destruct (louvainSeqInit_lengths x q o fm) as (Hv & Ha & Hp & Hl).
  apply (louvainPasses_walk (Z.to_nat (maxPasses o)) x o
           (wdiv (edgeWeight x) (wofnat 2)) (fst (louvainSeqInit x q o fm)) (span x)).
  - exact Hv.
  - exact Ha.
  - rewrite Hp, Hl. reflexivity.
  - intros Hne. contradiction.
  - exact Hlog.
  - exact Hu.
Qed.

(** What a pass of [louvainOmp] does to the membership: when the body
    leaves the loop, the membership composed after the loop is the walk
    through the logged levels; otherwise [a] is that walk, every level
    renumbered, and [p] is still below [P]. *)
Lemma louvainOmpPass_walk {G' : Type} `{Graph W G'} (g : G') (o : LouvainOptions W)
    (M : W) (st : LouvainState W) (S : nat) :
  length (ls_vcom st) = S -> length (ls_a st) = S ->
  ls_p st = Z.of_nat (length (ls_log st)) ->
  (ls_log st <> [] -> forall u, u < S ->
     vget 0 (ls_a st) u = walkLevels (ls_log st) u) ->
  let r := louvainOmpPass g o M st in
  if snd r then
    forall u, u < S ->
      vget 0 (louvainOmpMembership (fst r)) u = walkLevels (ls_log (fst r)) u
  else
    length (ls_vcom (fst r)) = S /\ length (ls_a (fst r)) = S /\
    ls_p (fst r) = Z.of_nat (length (ls_log (fst r))) /\
    ls_p (fst r) = (ls_p st + 1)%Z /\ (ls_p (fst r) < maxPasses o)%Z /\
    (forall u, u < S -> vget 0 (ls_a (fst r)) u = walkLevels (ls_log (fst r)) u).
Proof.
  intros Hv Ha Hp Hw. unfold louvainOmpPass.
  pose proof (louvainMoveW_length (ls_vcom st) (ls_ctot st) (ls_vaff st)
                (ls_scratch st) g (ls_vtot st) M (resolution o) (maxIterations o)
                (fun el _ => wleb el (ls_E st))) as Hlv.
  rewrite Hv in Hlv.
  set (mv := louvainMoveW (ls_vcom st) (ls_ctot st) (ls_vaff st) (ls_scratch st)
               g (ls_vtot st) M (resolution o) (maxIterations o)
               (fun el _ => wleb el (ls_E st))) in *.
  assert (Hfirst : ls_p st = 0%Z -> ls_log st = []).
  { intros E0. destruct (ls_log st); [reflexivity | simpl in Hp; lia]. }
  assert (Hlater : ls_p st <> 0%Z -> ls_log st <> []).
  { intros E0 El. rewrite El in Hp. simpl in Hp. lia. }
  assert (Hstop : forall cv u, u < S ->
            vget 0 (louvainOmpMembership
                      (mkState (mv_vcom (snd mv)) (ls_vtot st) (mv_ctot (snd mv))
                         (mv_vaff (snd mv)) (ls_a st) (mv_scratch (snd mv)) cv
                         (ls_y st) (ls_z st) (ls_E st)
                         (ls_l st + Z.max (fst mv) 1)%Z (ls_p st + 1)%Z
                         (ls_log st ++ [mkPass (fst mv) (mv_vcom (snd mv)) None]))) u
            = walkLevels (ls_log st ++ [mkPass (fst mv) (mv_vcom (snd mv)) None]) u).
  { intros cv u Hu. unfold louvainOmpMembership. cbn [ls_p ls_a ls_vcom].
    rewrite walkLevels_app. cbn [walkLevels pr_vcom pr_renumber].
    destruct (Z.leb_spec (ls_p st + 1) 1) as [Hle|Hgt].
    - rewrite Hfirst by lia. cbn [walkLevels]. apply vget_copyValuesW. lia.
    - rewrite vget_louvainLookupCommunitiesU by lia.
      rewrite Hw; [reflexivity | apply Hlater; lia | exact Hu]. }
  destruct ((fst mv <=? 1)%Z || (maxPasses o <=? ls_p st + 1)%Z) eqn:Ec.
  { cbn [snd fst]. apply Hstop. }
  match goal with |- context [if wleb ?a ?b then _ else _] => destruct (wleb a b) end.
  { cbn [snd fst]. apply Hstop. }
  apply orb_false_iff in Ec as [_ Ec]. apply Z.leb_gt in Ec.
  unfold louvainRenumberCommunitiesW.
  cbn [snd fst ls_vcom ls_a ls_p ls_log degrees].
  set (cext := fst (exclusiveScanW
                      (fst (louvainCommunityExistsW (degrees (ls_cv st)) g
                              (mv_vcom (snd mv)))))).
  assert (Hl1 : length (louvainLookupCommunitiesU (mv_vcom (snd mv)) cext) = S).
  { rewrite length_louvainLookupCommunitiesU. exact Hlv. }
  split.
  { rewrite louvainInitializeW_length. unfold fillValueU.
    rewrite length_replicate. exact Hl1. }
  split.
  { destruct (ls_p st =? 0)%Z.
    - rewrite length_copyValuesW; lia.
    - rewrite length_louvainLookupCommunitiesU. exact Ha. }
  split; [rewrite Hp, length_app; simpl; lia|].
  split; [reflexivity|]. split; [exact Ec|].
  intros u Hu. rewrite walkLevels_app. cbn [walkLevels pr_vcom pr_renumber].
  destruct (Z.eqb_spec (ls_p st) 0) as [E0|E0].
  - rewrite (Hfirst E0). cbn [walkLevels].
    rewrite vget_copyValuesW by lia.
    apply vget_louvainLookupCommunitiesU. lia.
  - rewrite vget_louvainLookupCommunitiesU by lia.
    rewrite (Hw (Hlater E0) u Hu).
    apply vget_louvainLookupCommunitiesU_zero. apply exclusiveScanW_head.
Qed.

(** The pass loop of [louvainOmp] with the passes left as fuel ends by a
    [break], and the membership composed from the state it ends in is the
    walk through the logged levels. *)
Lemma louvainOmpPasses_walk (fuel : nat) (x : G) (o : LouvainOptions W) (M : W)
    (st : LouvainState W) (S : nat) :
  wltb wzero M = true ->
  Z.of_nat fuel = (maxPasses o - ls_p st)%Z -> 0 < fuel ->
  length (ls_vcom st) = S -> length (ls_a st) = S ->
  ls_p st = Z.of_nat (length (ls_log st)) ->
  (ls_log st <> [] -> forall u, u < S ->
     vget 0 (ls_a st) u = walkLevels (ls_log st) u) ->
  let st' := louvainOmpPasses fuel x o M st in
  forall u, u < S -> vget 0 (louvainOmpMembership st') u = walkLevels (ls_log st') u.
Proof.
  intros HM. revert st.
  induction fuel as [|fuel IH]; intros st Hf Hpos Hv Ha Hp Hw; [lia|].
  simpl. rewrite HM.
  destruct (Z.ltb_spec 0 (maxPasses o)) as [_|HP]; [|lia]. simpl.
  assert (Hstep : forall r : LouvainState W * bool,
            (if snd r then
               forall u, u < S ->
                 vget 0 (louvainOmpMembership (fst r)) u = walkLevels (ls_log (fst r)) u
             else
               length (ls_vcom (fst r)) = S /\ length (ls_a (fst r)) = S /\
               ls_p (fst r) = Z.of_nat (length (ls_log (fst r))) /\
               ls_p (fst r) = (ls_p st + 1)%Z /\ (ls_p (fst r) < maxPasses o)%Z /\
               (forall u, u < S ->
                  vget 0 (ls_a (fst r)) u = walkLevels (ls_log (fst r)) u)) ->
            forall u, u < S ->
              vget 0 (louvainOmpMembership
                        (if snd r then fst r else louvainOmpPasses fuel x o M (fst r))) u
              = walkLevels
                  (ls_log (if snd r then fst r else louvainOmpPasses fuel x o M (fst r))) u).
  { intros r Hr. destruct (snd r); [exact Hr|].
    destruct Hr as (Hrv & Hra & Hrp & Hrn & Hrlt & Hrw).
    apply IH; [lia | lia | exact Hrv | exact Hra | exact Hrp | intros _; exact Hrw]. }
  destruct (ls_p st =? 0)%Z.
  - apply Hstep. apply (louvainOmpPass_walk x o M st S Hv Ha Hp Hw).
  - apply Hstep. apply (louvainOmpPass_walk (ls_y st) o M st S Hv Ha Hp Hw).
Qed.

(** X23: What [louvainOmp] returns, on one thread, when its pass loop is
    entered: the membership of a vertex is its label carried through the
    [vcom] of every level and through the renumbering of every aggregated
    level. *)
Lemma louvainOmp_membership_walk (x : G) (q : option (list nat))
    (o : LouvainOptions W) (fm : list bool -> list bool) (u : nat) :
  wltb wzero (wdiv (edgeWeight x) (wofnat 2)) = true -> (0 < maxPasses o)%Z ->
  u < span x ->
  vget 0 (membership (louvainOmp x q o fm)) u = walkLevels (louvainOmpLog x q o fm) u.
Proof.
  intros HM HP Hu.
  destruct (louvainSeqInit_lengths x q o fm) as (Hv & Ha & Hp & Hl).
  apply (louvainOmpPasses_walk (Z.to_nat (maxPasses o)) x o
           (wdiv (edgeWeight x) (wofnat 2)) (fst (louvainSeqInit x q o fm)) (span x)).
  - exact HM.
  - rewrite Hp. lia.
  - lia.
  - exact Hv.
  - exact Ha.
  - rewrite Hp, Hl. reflexivity.
  - intros Hne. contradiction.
  - exact Hu.
Qed.
End MembershipFacts.

(** ** The vertex weights *)

(** A fold that rewrites entry [u] from its current value, over
    duplicate-free indices. *)
Lemma vget_foldl_update {A : Type} (d : A) (F : nat -> A -> A) (vs : list nat)
    (a : list A) (i : nat) :
  NoDup vs -> i < length a ->
  vget d (foldl (fun o u => <[u := F u (vget d o u)]> o) a vs) i
  = if decide (i ∈ vs) then F i (vget d a i) else vget d a i.
Proof.
  intros Hnd. revert a. induction Hnd as [|u vs Hu Hnd IH]; intros a Hi; simpl.
  - destruct (decide (i ∈ [])) as [Hin|_]; [inversion Hin | reflexivity].
  - rewrite IH by (rewrite length_insert; exact Hi).
    destruct (decide (i = u)) as [->|Hne].
    + destruct (decide (u ∈ vs)) as [|_]; [contradiction|].
      rewrite vget_insert_eq by exact Hi.
      destruct (decide (u ∈ u :: vs)) as [|Hn]; [reflexivity|].
      exfalso. apply Hn. left.
    + rewrite vget_insert_ne by congruence.
      destruct (decide (i ∈ vs)) as [Hin|Hnin].
      * destruct (decide (i ∈ u :: vs)) as [|Hn]; [reflexivity|].
        exfalso. apply Hn. right. exact Hin.
      * destruct (decide (i ∈ u :: vs)) as [Hin|]; [|reflexivity].
        apply elem_of_cons in Hin as [?|?]; [congruence | contradiction].
Qed.

Lemma lookup_foldl_update {A : Type} (h : list A -> nat -> A) (vs : list nat)
    (a : list A) (i : nat) :
  i ∉ vs -> foldl (fun o u => <[u := h o u]> o) a vs !! i = a !! i.
Proof.
  revert a. induction vs as [|u vs IH]; intros a Hi; simpl; [reflexivity|].
  rewrite IH by (intros Hin; apply Hi; right; exact Hin).
  apply list_lookup_insert_ne. intros ->. apply Hi. left.
Qed.

Section VertexWeights.
Context {W G : Type} `{Weight W} `{Graph W G}.

(** The edge loop of [louvainVertexWeightsW] on vertex [u]: the weights
    are added to [vtot[u]] in edge order. *)
Lemma vertex_weight_fold (u : nat) (es : list (nat * W)) (vt : list W) :
  u < length vt ->
  foldl (fun vt e => <[u := wadd (vget wzero vt u) (snd e)]> vt) vt es
  = <[u := foldl wadd (vget wzero vt u) (map snd es)]> vt.
Proof.
  revert vt. induction es as [|e es IH]; intros vt Hu; simpl.
  - symmetry. apply list_insert_id. apply lookup_vget. exact Hu.
  - rewrite IH by (rewrite length_insert; exact Hu).
    rewrite vget_insert_eq by exact Hu. apply list_insert_insert_eq.
Qed.

(** [louvainVertexWeightsW] as one write per vertex. *)
Lemma louvainVertexWeightsW_writes (x : G) (vtot : list W) :
  span x <= length vtot ->
  louvainVertexWeightsW vtot x
  = foldl (fun o u => <[u := foldl wadd (vget wzero o u) (map snd (edgesOf x u))]> o)
          vtot (vertexKeys x).
Proof.
  intros HS. unfold louvainVertexWeightsW.
  assert (Hgen : forall vs vt, (forall u, u ∈ vs -> u < length vt) ->
            foldl (fun vt u =>
                     foldl (fun vt e => <[u := wadd (vget wzero vt u) (snd e)]> vt)
                           vt (edgesOf x u)) vt vs
            = foldl (fun o u =>
                       <[u := foldl wadd (vget wzero o u) (map snd (edgesOf x u))]> o)
                    vt vs).
  { induction vs as [|u vs IH]; intros vt Hvs; simpl; [reflexivity|].
    rewrite vertex_weight_fold by (apply Hvs; left).
    apply IH. intros v Hv. rewrite length_insert. apply Hvs. right. exact Hv. }
  apply Hgen. intros u Hu. apply vertexKeys_lt in Hu. lia.
Qed.

Lemma louvainVertexWeightsW_vget (x : G) (vtot : list W) (u : nat) :
  span x <= length vtot -> u ∈ vertexKeys x ->
  vget wzero (louvainVertexWeightsW vtot x) u
  = foldl wadd (vget wzero vtot u) (map snd (edgesOf x u)).
Proof.
  intros HS Hu. rewrite louvainVertexWeightsW_writes by exact HS.
  rewrite (vget_foldl_update wzero (fun u v => foldl wadd v (map snd (edgesOf x u))))
    by (apply NoDup_vertexKeys || (apply vertexKeys_lt in Hu; lia)).
  destruct (decide (u ∈ vertexKeys x)); [reflexivity | contradiction].
Qed.

(** X1: [louvainVertexWeightsW] adds to [vtot[u]], for each vertex [u] of [x],
    the weights of the out-edges of [u] in edge order, so that a
    value-initialised [vtot[u]] becomes their sum, on any weight type; the
    entries of the other indices are not written. *)
Theorem louvainVertexWeightsW_sums (x : G) (vtot : list W) :
  span x <= length vtot ->
  let vtot' := louvainVertexWeightsW vtot x in
  length vtot' = length vtot /\
  (forall u, u ∈ vertexKeys x ->
     vget wzero vtot' u = foldl wadd (vget wzero vtot u) (map snd (edgesOf x u)) /\
     (vget wzero vtot u = wzero -> vget wzero vtot' u = wsum (map snd (edgesOf x u)))) /\
  (forall i, i ∉ vertexKeys x -> vtot' !! i = vtot !! i).
Proof.
  intros HS vtot'. unfold vtot'. split; [|split].
  - rewrite louvainVertexWeightsW_writes by exact HS.
    apply (length_foldl_write
             (fun o u => foldl wadd (vget wzero o u) (map snd (edgesOf x u)))
             (fun u => u)).
  - intros u Hu. pose proof (louvainVertexWeightsW_vget x vtot u HS Hu) as Hval.
    split; [exact Hval|]. intros Hz. rewrite Hval, Hz. reflexivity.
  - intros i Hi. rewrite louvainVertexWeightsW_writes by exact HS.
    apply (lookup_foldl_update
             (fun o u => foldl wadd (vget wzero o u) (map snd (edgesOf x u)))).
    exact Hi.
Qed.
End VertexWeights.

Section VertexWeightsExact.
Context {W G : Type} `{ExactWeight W} `{Graph W G}.

(** X2: From value-initialised vertex weights, [louvainVertexWeightsW] gives
    weights that add up, over the vertices, to the total edge weight of the
    graph, twice the [M] of the driver, when additions do not round. *)
Theorem louvainVertexWeightsW_total (x : G) (S : nat) :
  span x <= S ->
  wsum (map (vget wzero (louvainVertexWeightsW (replicate S wzero) x)) (vertexKeys x))
  = edgeWeight x.
Proof.
  intros HS. unfold edgeWeight. rewrite (wsum_concat snd (edgesOf x)).
  apply wsum_map_ext. intros u Hu.
  rewrite louvainVertexWeightsW_vget by (rewrite ?length_replicate; assumption).
  rewrite vget_replicate. reflexivity.
Qed.
End VertexWeightsExact.

(** ** The community weights computed afresh *)

Section CommunityWeightsFacts.
Context {W G : Type} `{ExactWeight W} `{Graph W G}.

(** X3: [louvainCommunityWeightsW] adds to [ctot[c]] the vertex weights of the
    members of community [c], when additions do not round; and it writes to
    [ctot] what [louvainInitializeFromW] writes for the partition [vcom]. *)
Theorem louvainCommunityWeightsW_sums (x : G) (vcom : list nat) (vtot ctot : list W) :
  (forall u, u ∈ vertexKeys x -> vget 0 vcom u < length ctot) ->
  let ctot' := louvainCommunityWeightsW ctot x vcom vtot in
  length ctot' = length ctot /\
  (forall c, c < length ctot ->
     vget wzero ctot' c = wadd (vget wzero ctot c) (communityWeight x vcom vtot c)) /\
  (forall vcom0, ctot' = snd (louvainInitializeFromW vcom0 ctot x vtot vcom)).
Proof.
  intros Hlab ctot'. unfold ctot', louvainCommunityWeightsW. cbv zeta.
  split; [|split].
  - apply (length_foldl_write
             (fun ct u => wadd (vget wzero ct (vget 0 vcom u)) (vget wzero vtot u))
             (fun u => vget 0 vcom u)).
  - intros c Hc. rewrite accumulate_weights by exact Hc.
    rewrite communityWeight_masked. reflexivity.
  - intros vcom0. unfold louvainInitializeFromW.
    rewrite (foldl_pair (fun vc u => <[u := vget 0 vcom u]> vc)
               (fun ct u => <[vget 0 vcom u := wadd (vget wzero ct (vget 0 vcom u))
                                                   (vget wzero vtot u)]> ct)).
    reflexivity.
Qed.
End CommunityWeightsFacts.

(** ** Scanning the neighbours of a vertex *)

Section ScanFacts.
Context {W G : Type} `{Weight W} `{Graph W G}.

(** The edges [louvainScanCommunitiesW<SELF>] scans from [u]: all of them
    with [SELF] set, and otherwise those that are not self-loops. *)
Lemma louvainScanCommunitiesW_edges (SELF : bool) (s : Scratch W) (x : G) (u : nat)
    (vcom : list nat) :
  louvainScanCommunitiesW SELF s x u vcom
  = scanEdges s vcom
      (if SELF then edgesOf x u else filter (fun e => fst e <> u) (edgesOf x u)).
Proof.
  unfold louvainScanCommunitiesW, scanEdges. destruct SELF; [reflexivity|].
  revert s. induction (edgesOf x u) as [|e es IH]; intros s; [reflexivity|].
  rewrite filter_cons. simpl foldl at 1.
  destruct (decide (fst e <> u)) as [Hne|Heq].
  - simpl. rewrite <- IH. f_equal. unfold louvainScanCommunityW. simpl.
    destruct (Nat.eqb_spec u (fst e)) as [E|_]; [congruence | reflexivity].
  - rewrite <- IH. f_equal. unfold louvainScanCommunityW. simpl.
    destruct (Nat.eqb_spec u (fst e)) as [_|N]; [reflexivity|].
    exfalso. apply Heq. congruence.
Qed.

(** A scan lists only communities of the targets of the edges scanned. *)
Lemma scanEdges_listed (vcom : list nat) (es : list (nat * W)) (s : Scratch W)
    (c : nat) :
  c ∈ vcs (scanEdges s vcom es) ->
  c ∈ vcs s \/ exists e, e ∈ es /\ vget 0 vcom (fst e) = c.
Proof.
  revert s. induction es as [|e es IH]; intros s Hc; [left; exact Hc|].
  apply IH in Hc as [Hc|(e' & He' & E)].
  - unfold louvainScanCommunityW in Hc. simpl in Hc.
    destruct (wtruthy _); [left; exact Hc|].
    apply elem_of_app in Hc as [Hc|Hc]; [left; exact Hc|].
    apply list_elem_of_singleton in Hc. right. exists e. split; [left | congruence].
  - right. exists e'. split; [right; exact He' | exact E].
Qed.
End ScanFacts.

Section ScanTotals.
Context {W G : Type} {HW : Weight W} {HE : ExactWeight W} {HP : PositiveWeight W}
        {HG : Graph W G}.

(** X5: The scan of the local-moving phase: after [louvainClearScanW] and
    [louvainScanCommunitiesW] on vertex [u], for edges of positive weight that
    add without rounding, [vcs] lists exactly the communities that an edge of
    [u] other than a self-loop leads to, each once, and [vcout[d]] is the
    total weight of those edges into community [d]. *)
Theorem louvainScanCommunitiesW_totals (x : G) (u : nat) (vcom : list nat)
    (s0 : Scratch W) :
  scratchClean s0 ->
  (forall e, e ∈ edgesOf x u -> fst e <> u ->
     vget 0 vcom (fst e) < length (vcout s0) /\ wpos (snd e)) ->
  let s := louvainScanCommunitiesW false (louvainClearScanW s0) x u vcom in
  NoDup (vcs s) /\
  (forall d, d ∈ vcs s <->
     exists e, e ∈ edgesOf x u /\ fst e <> u /\ vget 0 vcom (fst e) = d) /\
  (forall d, d < length (vcout s0) ->
     vget wzero (vcout s) d
     = wsum (map snd (filter (fun e => vget 0 vcom (fst e) = d)
                        (filter (fun e => fst e <> u) (edgesOf x u))))).
Proof.
  intros Hclean Hes s. unfold s.
  rewrite louvainScanCommunitiesW_edges, (louvainClearScanW_clean s0 Hclean).
  set (n := length (vcout s0)).
  set (es := filter (fun e => fst e <> u) (edgesOf x u)).
  assert (Hinv : scanInv vcom n es (scanEdges (mkScratch [] (replicate n wzero)) vcom es)).
  { apply (scanEdges_inv vcom n es [] _).
    - intros e He. apply list_elem_of_filter in He as [Hne He]. apply Hes; assumption.
    - apply scanInv_fresh. }
  destruct Hinv as (Hnd & _ & _ & Hcov & Hin & _ & Hsum).
  split; [exact Hnd|]. split; [|exact Hsum].
  intros d. split.
  - intros Hd. apply scanEdges_listed in Hd as [Hd|(e & He & E)]; [inversion Hd|].
    apply list_elem_of_filter in He as [Hne He]. exists e. tauto.
  - intros (e & He & Hne & <-). apply Hcov. apply list_elem_of_filter. tauto.
Qed.
End ScanTotals.

(** ** The scorer's choice *)

Section ChooseShape.
Context {W : Type} `{Weight W} `{Modularity W}.

(** The best pair of the scorer's loop is the initial one or a candidate
    scanned, other than [d], with its delta-modularity. *)
Lemma chooseStep_fold (u d : nat) (vtot ctot vcout : list W) (M R : W)
    (all cs : list nat) (best : nat * W) :
  (forall c, c ∈ cs -> c ∈ all) ->
  (best = (0, wzero) \/
   (fst best ∈ all /\ fst best <> d /\
    snd best = deltaModularity (vget wzero vcout (fst best)) (vget wzero vcout d)
                 (vget wzero vtot u) (vget wzero ctot (fst best)) (vget wzero ctot d) M R)) ->
  let r := foldl (chooseStep false u d vtot ctot vcout M R) best cs in
  r = (0, wzero) \/
  (fst r ∈ all /\ fst r <> d /\
   snd r = deltaModularity (vget wzero vcout (fst r)) (vget wzero vcout d)
             (vget wzero vtot u) (vget wzero ctot (fst r)) (vget wzero ctot d) M R).
Proof.
  revert best. induction cs as [|c cs IH]; intros best Hcs Hbest; [exact Hbest|].
  simpl. apply IH; [intros c' Hc'; apply Hcs; right; exact Hc'|].
  unfold chooseStep. simpl.
  destruct (Nat.eqb_spec c d) as [_|Hne]; [exact Hbest|].
  destruct (wltb (snd best) _); [|exact Hbest].
  right. simpl. split; [apply Hcs; left | split; [exact Hne | reflexivity]].
Qed.

(** X7: [louvainChooseCommunity] returns [(K(), W())] or else a community
    that the scan listed and that is not the community [d] of [u], together
    with the delta-modularity of moving [u] there; on any weight type. *)
Theorem louvainChooseCommunity_candidate (u : nat) (vcom : list nat)
    (vtot ctot : list W) (s : Scratch W) (M R : W) :
  let d := vget 0 vcom u in
  let r := louvainChooseCommunity false u vcom vtot ctot s M R in
  r = (0, wzero) \/
  (fst r ∈ vcs s /\ fst r <> d /\
   snd r = deltaModularity (vget wzero (vcout s) (fst r)) (vget wzero (vcout s) d)
             (vget wzero vtot u) (vget wzero ctot (fst r)) (vget wzero ctot d) M R).
Proof.
  intros d r. unfold r, louvainChooseCommunity. fold d.
  apply (chooseStep_fold u d vtot ctot (vcout s) M R (vcs s) (vcs s) (0, wzero)).
  - intros c Hc. exact Hc.
  - left. reflexivity.
Qed.
End ChooseShape.

Section ChooseBest.
Context {W : Type} {HW : Weight W} {HO : OrderedWeight W} {HM : Modularity W}.

Lemma wltb_raise (a b c : W) : wltb a b = true -> wltb a c = false -> wltb b c = false.
Proof.
  intros Hab Hac. destruct (wltb b c) eqn:Hbc; [|reflexivity].
  rewrite (wltb_trans a b c Hab Hbc) in Hac. discriminate.
Qed.

(** The gain kept by the scorer's loop is above or equal to [W()] and to
    the delta-modularity of every candidate seen. *)
Lemma chooseStep_max (u d : nat) (vtot ctot vcout : list W) (M R : W)
    (cs seen : list nat) (best : nat * W) :
  let delta := fun c => deltaModularity (vget wzero vcout c) (vget wzero vcout d)
                          (vget wzero vtot u) (vget wzero ctot c) (vget wzero ctot d) M R in
  wltb (snd best) wzero = false ->
  (best = (0, wzero) \/ wpos (snd best)) ->
  (forall c, c ∈ seen -> c <> d -> wltb (snd best) (delta c) = false) ->
  let r := foldl (chooseStep false u d vtot ctot vcout M R) best cs in
  wltb (snd r) wzero = false /\ (r = (0, wzero) \/ wpos (snd r)) /\
  (forall c, c ∈ seen ++ cs -> c <> d -> wltb (snd r) (delta c) = false).
Proof.
  intros delta. revert seen best.
  induction cs as [|c cs IH]; intros seen best H0 Hpos Hseen; simpl.
  - rewrite app_nil_r. auto.
  - replace (seen ++ c :: cs) with ((seen ++ [c]) ++ cs)
      by (rewrite <- app_assoc; reflexivity).
    assert (Estep : chooseStep false u d vtot ctot vcout M R best c
                    = if c =? d then best
                      else if wltb (snd best) (delta c) then (c, delta c) else best)
      by reflexivity.
    rewrite Estep. clear Estep.
    destruct (Nat.eqb_spec c d) as [->|Hne].
    { apply IH; [exact H0 | exact Hpos|].
      intros c' Hc' Hc'd. apply elem_of_app in Hc' as [Hc'|Hc'].
      - apply Hseen; assumption.
      - apply list_elem_of_singleton in Hc'. congruence. }
    destruct (wltb (snd best) (delta c)) eqn:Hlt.
    + apply IH; simpl.
      * apply (wltb_raise _ _ _ Hlt H0).
      * right. destruct Hpos as [E|Hp].
        -- unfold wpos. rewrite E in Hlt. exact Hlt.
        -- apply (wltb_trans _ _ _ Hp Hlt).
      * intros c' Hc' Hc'd. apply elem_of_app in Hc' as [Hc'|Hc'].
        -- apply (wltb_raise _ _ _ Hlt). apply Hseen; assumption.
        -- apply list_elem_of_singleton in Hc'. subst c'. apply wltb_irrefl.
    + apply IH; [exact H0 | exact Hpos|].
      intros c' Hc' Hc'd. apply elem_of_app in Hc' as [Hc'|Hc'].
      * apply Hseen; assumption.
      * apply list_elem_of_singleton in Hc'. subst c'. exact Hlt.
Qed.

(** X8: On ordered weights [louvainChooseCommunity] returns the largest gain:
    no candidate other than the community of [u] has a delta-modularity above
    the gain returned, and the gain is [W()], with the community [K()], or
    strictly positive. *)
Theorem louvainChooseCommunity_best (u : nat) (vcom : list nat)
    (vtot ctot : list W) (s : Scratch W) (M R : W) :
  let d := vget 0 vcom u in
  let r := louvainChooseCommunity false u vcom vtot ctot s M R in
  (forall c, c ∈ vcs s -> c <> d ->
     wltb (snd r)
       (deltaModularity (vget wzero (vcout s) c) (vget wzero (vcout s) d)
          (vget wzero vtot u) (vget wzero ctot c) (vget wzero ctot d) M R) = false) /\
  (r = (0, wzero) \/ wpos (snd r)).
Proof.
  intros d r.
  destruct (chooseStep_max u d vtot ctot (vcout s) M R (vcs s) [] (0, wzero))
    as (_ & Hpos & Hmax).
  - apply wltb_irrefl.
  - left. reflexivity.
  - intros c Hc. inversion Hc.
  - split; [exact Hmax | exact Hpos].
Qed.
End ChooseBest.

(** ** Moving a vertex and moving it back *)

Section RoundTrip.
Context {W G : Type} `{ExactWeight W} `{Graph W G}.

(** X9: On consistent tables, moving a vertex [u] to a community [c] and then
    back to the community it came from restores [vcom] and [ctot], when
    additions do not round. *)
Theorem louvainChangeCommunityW_round_trip (x : G) (S : nat) (vtot : list W)
    (vcom : list nat) (ctot : list W) (u c : nat) :
  tablesOk x S vtot vcom ctot -> u ∈ vertexKeys x -> c < S ->
  let r := louvainChangeCommunityW vcom ctot u c vtot in
  louvainChangeCommunityW (fst r) (snd r) u (vget 0 vcom u) vtot = (vcom, ctot).
Proof.
  intros Hok Hu Hc r.
  pose proof Hok as (HS & Hlv & Hlc & Hlab & Hsum).
  assert (Hd : vget 0 vcom u < S) by (apply Hlab; exact Hu).
  assert (HuS : u < length vcom) by (apply vertexKeys_lt in Hu; lia).
  pose proof (louvainChangeCommunityW_ok x S vtot vcom ctot u c Hok Hu Hc) as Hok1.
  fold r in Hok1.
  pose proof (louvainChangeCommunityW_ok x S vtot (fst r) (snd r) u (vget 0 vcom u)
                Hok1 Hu Hd) as (_ & _ & Hlc2 & _ & Hsum2).
  set (r2 := louvainChangeCommunityW (fst r) (snd r) u (vget 0 vcom u) vtot) in *.
  assert (Ev : fst r2 = vcom).
  { unfold r2, r, louvainChangeCommunityW. simpl.
    rewrite list_insert_insert_eq. apply list_insert_id.
    apply lookup_vget. exact HuS. }
  rewrite (surjective_pairing r2). f_equal; [exact Ev|].
  apply list_eq. intros i. destruct (lt_dec i S) as [Hi|Hi].
  - rewrite (lookup_vget wzero (snd r2) i) by lia.
    rewrite (lookup_vget wzero ctot i) by lia.
    f_equal. rewrite Hsum2, Ev, Hsum by exact Hi. reflexivity.
  - rewrite !lookup_ge_None_2 by lia. reflexivity.
Qed.
End RoundTrip.

(** ** The local-moving phase *)

Section MoveCounts.
Context {W G : Type} `{Weight W} `{Modularity W} `{Graph W G}.

(** The loop of [louvainMoveW] ends with [l] between its start and
    [L]. *)
Lemma louvainMoveLoop_bounds (fuel : nat) (x : G) (vtot : list W) (M R : W) (L : Z)
    (fc : W -> Z -> bool) (l : Z) (st : MoveState W) :
  (l <= fst (louvainMoveLoop fuel x vtot M R L fc l st) <= Z.max l L)%Z.
Proof.
  revert l st. induction fuel as [|fuel IH]; intros l st; simpl; [lia|].
  destruct (Z.ltb_spec l L) as [Hlt|Hge]; [|simpl; lia].
  destruct (fc _ l); simpl; [lia|].
  specialize (IH (l + 1)%Z (louvainMoveSweep x vtot M R st)). lia.
Qed.

Lemma louvainMoveW_range (vcom : list nat) (ctot : list W) (vaff : list bool)
    (s : Scratch W) (x : G) (vtot : list W) (M R : W) (L : Z) (fc : W -> Z -> bool) :
  (0 <= fst (louvainMoveW vcom ctot vaff s x vtot M R L fc) <= Z.max 0 L)%Z.
Proof.
  unfold louvainMoveW. cbv zeta. cbn [fst].
  pose proof (louvainMoveLoop_bounds (Z.to_nat L) x vtot M R L fc 0
                (mkMove vcom ctot vaff s wzero)) as Hb.
  destruct ((1 <? _)%Z || _); lia.
Qed.

(** X10: What [louvainMoveW] returns lies between 0 and [L]; it is 1 only when
    the one iteration done left a nonzero [el]; and with [L <= 0] no iteration
    is done: 0 is returned and every vector is as it was. *)
Theorem louvainMoveW_iterations (vcom : list nat) (ctot : list W) (vaff : list bool)
    (s : Scratch W) (x : G) (vtot : list W) (M R : W) (L : Z) (fc : W -> Z -> bool) :
  let r := louvainMoveW vcom ctot vaff s x vtot M R L fc in
  (0 <= fst r <= Z.max 0 L)%Z /\
  (fst r = 1%Z -> wtruthy (mv_el (snd r)) = true) /\
  ((L <= 0)%Z -> r = (0%Z, mkMove vcom ctot vaff s wzero)).
Proof.
  intros r. split; [apply louvainMoveW_range|].
  unfold r, louvainMoveW. cbv zeta. cbn [fst snd].
  set (lp := louvainMoveLoop (Z.to_nat L) x vtot M R L fc 0
               (mkMove vcom ctot vaff s wzero)) in *.
  split.
  - destruct (Z.ltb_spec 1 (fst lp)) as [Hlt|Hge]; simpl.
    + intros E. lia.
    + destruct (wtruthy (mv_el (snd lp))); [reflexivity | discriminate].
  - intros HL. unfold lp. replace (Z.to_nat L) with 0 by lia. simpl.
    rewrite wtruthy_zero. reflexivity.
Qed.

(** A vertex that is not flagged is skipped. *)
Lemma louvainMoveVertices_unaffected (x : G) (vtot : list W) (M R : W)
    (vs : list nat) (st : MoveState W) :
  (forall u, u ∈ vs -> vget false (mv_vaff st) u = false) ->
  foldl (louvainMoveVertex x vtot M R) st vs = st.
Proof.
  induction vs as [|u vs IH]; intros Hvs; simpl; [reflexivity|].
  assert (Eu : louvainMoveVertex x vtot M R st u = st).
  { unfold louvainMoveVertex. rewrite (Hvs u) by left. reflexivity. }
  rewrite Eu. apply IH. intros v Hv. apply Hvs. right. exact Hv.
Qed.

Lemma louvainMoveLoop_unaffected (fuel : nat) (x : G) (vtot : list W) (M R : W)
    (L : Z) (fc : W -> Z -> bool) (l : Z) (vcom : list nat) (ctot : list W)
    (vaff : list bool) (s : Scratch W) :
  (forall u, u ∈ vertexKeys x -> vget false vaff u = false) ->
  snd (louvainMoveLoop fuel x vtot M R L fc l (mkMove vcom ctot vaff s wzero))
  = mkMove vcom ctot vaff s wzero.
Proof.
  intros Hno. revert l. induction fuel as [|fuel IH]; intros l; simpl; [reflexivity|].
  destruct (l <? L)%Z; [|reflexivity].
  assert (Es : louvainMoveSweep x vtot M R (mkMove vcom ctot vaff s wzero)
               = mkMove vcom ctot vaff s wzero).
  { unfold louvainMoveSweep. simpl. apply louvainMoveVertices_unaffected. exact Hno. }
  rewrite Es. destruct (fc _ l); [reflexivity | apply IH].
Qed.

(** X11: When no vertex of the graph is flagged as affected, [louvainMoveW]
    changes neither [vcom] nor [ctot] nor the flags nor the scratch, whatever
    the number of iterations it runs, and it does not return 1. *)
Theorem louvainMoveW_unaffected (vcom : list nat) (ctot : list W) (vaff : list bool)
    (s : Scratch W) (x : G) (vtot : list W) (M R : W) (L : Z) (fc : W -> Z -> bool) :
  (forall u, u ∈ vertexKeys x -> vget false vaff u = false) ->
  let r := louvainMoveW vcom ctot vaff s x vtot M R L fc in
  snd r = mkMove vcom ctot vaff s wzero /\ fst r <> 1%Z.
Proof.
  intros Hno r. unfold r, louvainMoveW. cbv zeta. cbn [fst snd].
  rewrite (louvainMoveLoop_unaffected _ x vtot M R L fc 0 vcom ctot vaff s Hno).
  split; [reflexivity|]. cbn [mv_el]. rewrite wtruthy_zero, orb_false_r.
  destruct (Z.ltb_spec 1 (fst (louvainMoveLoop (Z.to_nat L) x vtot M R L fc 0
                                 (mkMove vcom ctot vaff s wzero)))); lia.
Qed.
End MoveCounts.

Section MoveTables.
Context {W G : Type} {HW : Weight W} {HE : ExactWeight W} {HM : Modularity W}
        {HG : Graph W G}.
Variables (x : G) (S : nat) (vtot : list W) (M R : W).
Hypothesis Htgt : forall u e, u ∈ vertexKeys x -> e ∈ edgesOf x u -> fst e ∈ vertexKeys x.

(** The vertex step keeps the tables consistent: the community it moves
    [u] to is the label of a neighbour. *)
Lemma louvainMoveVertex_ok (st : MoveState W) (u : nat) :
  u ∈ vertexKeys x ->
  tablesOk x S vtot (mv_vcom st) (mv_ctot st) ->
  tablesOk x S vtot (mv_vcom (louvainMoveVertex x vtot M R st u))
                    (mv_ctot (louvainMoveVertex x vtot M R st u)).
Proof.
  intros Hu Hok. unfold louvainMoveVertex.
  destruct (negb (vget false (mv_vaff st) u)); [exact Hok|]. cbv zeta.
  set (s2 := louvainScanCommunitiesW false (louvainClearScanW (mv_scratch st)) x u
               (mv_vcom st)).
  set (ce := louvainChooseCommunity false u (mv_vcom st) vtot (mv_ctot st) s2 M R).
  destruct (Nat.eqb_spec (fst ce) 0) as [E0|N0]; simpl; [exact Hok|].
  apply louvainChangeCommunityW_ok; [exact Hok | exact Hu|].
  destruct (chooseStep_fold u (vget 0 (mv_vcom st) u) vtot (mv_ctot st) (vcout s2) M R
              (vcs s2) (vcs s2) (0, wzero)) as [E|(Hin & _)].
  - intros c Hc. exact Hc.
  - left. reflexivity.
  - fold (louvainChooseCommunity false u (mv_vcom st) vtot (mv_ctot st) s2 M R) in E.
    fold ce in E. rewrite E in N0. contradiction.
  - fold (louvainChooseCommunity false u (mv_vcom st) vtot (mv_ctot st) s2 M R) in Hin.
    fold ce in Hin. unfold s2 in Hin.
    rewrite louvainScanCommunitiesW_edges in Hin.
    apply scanEdges_listed in Hin as [Hin|(e & He & <-)]; [inversion Hin|].
    apply list_elem_of_filter in He as [_ He].
    destruct Hok as (_ & _ & _ & Hlab & _). apply Hlab. apply (Htgt u e Hu He).
Qed.

Lemma louvainMoveVertices_ok (vs : list nat) (st : MoveState W) :
  (forall u, u ∈ vs -> u ∈ vertexKeys x) ->
  tablesOk x S vtot (mv_vcom st) (mv_ctot st) ->
  tablesOk x S vtot (mv_vcom (foldl (louvainMoveVertex x vtot M R) st vs))
                    (mv_ctot (foldl (louvainMoveVertex x vtot M R) st vs)).
Proof.
  revert st. induction vs as [|u vs IH]; intros st Hvs Hok; simpl; [exact Hok|].
  apply IH; [intros v Hv; apply Hvs; right; exact Hv|].
  apply louvainMoveVertex_ok; [apply Hvs; left | exact Hok].
Qed.

Lemma louvainMoveLoop_ok (fuel : nat) (L : Z) (fc : W -> Z -> bool) (l : Z)
    (st : MoveState W) :
  tablesOk x S vtot (mv_vcom st) (mv_ctot st) ->
  tablesOk x S vtot (mv_vcom (snd (louvainMoveLoop fuel x vtot M R L fc l st)))
                    (mv_ctot (snd (louvainMoveLoop fuel x vtot M R L fc l st))).
Proof.
  revert l st. induction fuel as [|fuel IH]; intros l st Hok; simpl; [exact Hok|].
  destruct (l <? L)%Z; [|exact Hok].
  assert (Hs : tablesOk x S vtot (mv_vcom (louvainMoveSweep x vtot M R st))
                                 (mv_ctot (louvainMoveSweep x vtot M R st))).
  { unfold louvainMoveSweep. apply louvainMoveVertices_ok; [auto | exact Hok]. }
  destruct (fc _ l); [exact Hs | apply IH; exact Hs].
Qed.

(** X12: The local-moving phase keeps the community tables consistent: from
    tables in which [ctot[c]] is the sum of [vtot[u]] over the members of [c],
    [louvainMoveW] ends, for any scorer, convergence test and iteration limit,
    with tables that are consistent again, on a graph whose edges lead to its
    vertices and when additions do not round. *)
Theorem louvainMoveW_keeps_tables (vcom : list nat) (ctot : list W)
    (vaff : list bool) (s : Scratch W) (L : Z) (fc : W -> Z -> bool) :
  tablesOk x S vtot vcom ctot ->
  let r := snd (louvainMoveW vcom ctot vaff s x vtot M R L fc) in
  tablesOk x S vtot (mv_vcom r) (mv_ctot r) /\
  wsum (mv_ctot r) = wsum (map (vget wzero vtot) (vertexKeys x)).
Proof.
  intros Hok r.
  assert (Hr : tablesOk x S vtot (mv_vcom r) (mv_ctot r)).
  { unfold r, louvainMoveW. cbv zeta. cbn [snd]. apply louvainMoveLoop_ok. exact Hok. }
  split; [exact Hr|]. apply (tablesOk_total x S vtot (mv_vcom r) (mv_ctot r) Hr).
Qed.
End MoveTables.

(** ** Community sizes and degrees *)

(** A vector of length [n] whose entry [i] is [f i]. *)
Lemma list_eq_fmap_seq (a : list nat) (f : nat -> nat) (n : nat) :
  length a = n -> (forall i, i < n -> vget 0 a i = f i) -> a = f <$> seq 0 n.
Proof.
  intros Hl Hf. apply list_eq. intros i. rewrite list_lookup_fmap.
  destruct (lt_dec i n) as [Hi|Hi].
  - rewrite lookup_seq_lt by exact Hi. simpl. rewrite <- Hf by exact Hi.
    apply lookup_vget. lia.
  - rewrite lookup_seq_ge by lia. apply lookup_ge_None_2. lia.
Qed.

(** Adding [g u] modulo [m] to the entry of the label of each vertex:
    the loops of the counting routines on a counter type of [m] values. *)
Lemma tally_fold_wrap (m : nat) (vcom : list nat) (g : nat -> nat) (vs : list nat)
    (a : list nat) (c : nat) :
  c < length a -> vget 0 a c < m ->
  vget 0 (foldl (fun a u => <[vget 0 vcom u := (vget 0 a (vget 0 vcom u) + g u) mod m]> a)
                a vs) c
  = (vget 0 a c + sum_list (map g (filter (fun u => vget 0 vcom u = c) vs))) mod m.
Proof.
  revert a. induction vs as [|u vs IH]; intros a Hc Hm; simpl.
  - rewrite Nat.add_0_r. symmetry. apply Nat.mod_small. exact Hm.
  - rewrite filter_cons. destruct (decide (vget 0 vcom u = c)) as [->|Hne].
    + rewrite IH.
      * rewrite vget_insert_eq by exact Hc. simpl.
        rewrite Nat.Div0.add_mod_idemp_l. f_equal. lia.
      * rewrite length_insert. exact Hc.
      * rewrite vget_insert_eq by exact Hc. apply Nat.mod_upper_bound. lia.
    + rewrite IH.
      * rewrite vget_insert_ne by exact Hne. reflexivity.
      * rewrite length_insert. exact Hc.
      * rewrite vget_insert_ne by exact Hne. exact Hm.
Qed.

Lemma sum_list_map_ones {A : Type} (l : list A) : sum_list (map (fun _ => 1) l) = length l.
Proof. induction l as [|a l IH]; simpl; [reflexivity | rewrite IH; reflexivity]. Qed.

Lemma pow2_pos (bits : nat) : 0 < 2 ^ bits.
Proof. induction bits as [|b IH]; simpl; lia. Qed.

Section CommunitySizes.
Context {W G : Type} `{Graph W G}.

Lemma members_length_le (x : G) (vcom : list nat) (c : nat) :
  length (members x vcom c) <= order x.
Proof. unfold members, order. apply length_filter. Qed.

Lemma members_degree_le (x : G) (vcom : list nat) (c : nat) :
  sum_list (map (degree x) (members x vcom c)) <= gsize x.
Proof.
  rewrite gsize_sum. unfold members.
  induction (vertexKeys x) as [|u l IH]; [reflexivity|].
  rewrite filter_cons. destruct (decide (vget 0 vcom u = c)); simpl; lia.
Qed.

(** X14: [louvainCountCommunityVerticesW] on an unsigned counter type of
    [bits] bits leaves in [a[c]] the number of vertices of [x] with label
    [c] modulo [2^bits], whatever [a] held before; when the order of [x]
    is below [2^bits] no counter wraps: [a[c]] is that number, as counted
    without a bound, and the counts add up to the order of [x]. *)
Theorem louvainCountCommunityVerticesW_sizes (bits : nat) (a : list nat) (x : G)
    (vcom : list nat) :
  (forall u, u ∈ vertexKeys x -> vget 0 vcom u < length a) ->
  let a' := Unsigned.louvainCountCommunityVerticesW bits a x vcom in
  length a' = length a /\
  (forall c, c < length a -> vget 0 a' c = length (members x vcom c) mod 2 ^ bits) /\
  (order x < 2 ^ bits ->
   a' = louvainCountCommunityVerticesW a x vcom /\
   (forall c, c < length a -> vget 0 a' c = length (members x vcom c)) /\
   sum_list a' = order x).
Proof.
  intros Hlab a'.
  assert (Hlen : length a' = length a).
  { unfold a', Unsigned.louvainCountCommunityVerticesW.
    rewrite (length_foldl_write
               (fun a u => Unsigned.wrap bits (vget 0 a (vget 0 vcom u) + 1))
               (fun u => vget 0 vcom u)).
    unfold fillValueU. apply length_replicate. }
  assert (Hval : forall c, c < length a ->
            vget 0 a' c = length (members x vcom c) mod 2 ^ bits).
  { intros c Hc. unfold a', Unsigned.louvainCountCommunityVerticesW, Unsigned.wrap.
    rewrite (tally_fold_wrap (2 ^ bits) vcom (fun _ => 1)).
    - unfold fillValueU. rewrite vget_replicate, sum_list_map_ones. reflexivity.
    - unfold fillValueU. rewrite length_replicate. exact Hc.
    - unfold fillValueU. rewrite vget_replicate. apply pow2_pos. }
  split; [exact Hlen|]. split; [exact Hval|]. intros Hfit.
  assert (Hval' : forall c, c < length a -> vget 0 a' c = length (members x vcom c)).
  { intros c Hc. rewrite Hval by exact Hc. apply Nat.mod_small.
    pose proof (members_length_le x vcom c). lia. }
  assert (Ea : a' = (fun c => length (members x vcom c)) <$> seq 0 (length a)).
  { apply list_eq_fmap_seq; assumption. }
  split; [|split; [exact Hval'|]].
  - rewrite Ea. symmetry. apply list_eq_fmap_seq.
    + unfold louvainCountCommunityVerticesW.
      rewrite (length_foldl_write (fun a u => S (vget 0 a (vget 0 vcom u)))
                 (fun u => vget 0 vcom u)).
      unfold fillValueU. apply length_replicate.
    + intros c Hc. unfold louvainCountCommunityVerticesW.
      rewrite count_fold by (unfold fillValueU; rewrite length_replicate; exact Hc).
      unfold fillValueU. rewrite vget_replicate. reflexivity.
  - rewrite Ea. unfold order. apply (sum_counts vcom (vertexKeys x) (length a) Hlab).
Qed.

(** X15: [louvainCommunityTotalDegreeW] on an unsigned counter type of
    [bits] bits leaves in [a[c]] the sum of the degrees of the vertices of
    [x] with label [c] modulo [2^bits], whatever [a] held before; when the
    number of edges of [x] is below [2^bits] no counter wraps: [a[c]] is
    that sum, as added without a bound, and the entries add up to the
    number of edges of [x]. *)
Theorem louvainCommunityTotalDegreeW_degrees (bits : nat) (a : list nat) (x : G)
    (vcom : list nat) :
  (forall u, u ∈ vertexKeys x -> vget 0 vcom u < length a) ->
  let a' := Unsigned.louvainCommunityTotalDegreeW bits a x vcom in
  length a' = length a /\
  (forall c, c < length a ->
     vget 0 a' c = sum_list (map (degree x) (members x vcom c)) mod 2 ^ bits) /\
  (gsize x < 2 ^ bits ->
   a' = louvainCommunityTotalDegreeW a x vcom /\
   (forall c, c < length a ->
      vget 0 a' c = sum_list (map (degree x) (members x vcom c))) /\
   sum_list a' = gsize x).
Proof.
  intros Hlab a'.
  assert (Hlen : length a' = length a).
  { unfold a', Unsigned.louvainCommunityTotalDegreeW.
    rewrite (length_foldl_write
               (fun a u => Unsigned.wrap bits (vget 0 a (vget 0 vcom u) + degree x u))
               (fun u => vget 0 vcom u)).
    unfold fillValueU. apply length_replicate. }
  assert (Hval : forall c, c < length a ->
            vget 0 a' c = sum_list (map (degree x) (members x vcom c)) mod 2 ^ bits).
  { intros c Hc. unfold a', Unsigned.louvainCommunityTotalDegreeW, Unsigned.wrap.
    rewrite (tally_fold_wrap (2 ^ bits) vcom (degree x)).
    - unfold fillValueU. rewrite vget_replicate. reflexivity.
    - unfold fillValueU. rewrite length_replicate. exact Hc.
    - unfold fillValueU. rewrite vget_replicate. apply pow2_pos. }
  split; [exact Hlen|]. split; [exact Hval|]. intros Hfit.
  assert (Hval' : forall c, c < length a ->
            vget 0 a' c = sum_list (map (degree x) (members x vcom c))).
  { intros c Hc. rewrite Hval by exact Hc. apply Nat.mod_small.
    pose proof (members_degree_le x vcom c). lia. }
  assert (Ea : a' = (fun c => sum_list (map (degree x) (members x vcom c)))
                    <$> seq 0 (length a)).
  { apply list_eq_fmap_seq; assumption. }
  split; [|split; [exact Hval'|]].
  - rewrite Ea. symmetry. apply list_eq_fmap_seq.
    + unfold louvainCommunityTotalDegreeW.
      rewrite (length_foldl_write (fun a u => vget 0 a (vget 0 vcom u) + degree x u)
                 (fun u => vget 0 vcom u)).
      unfold fillValueU. apply length_replicate.
    + intros c Hc. unfold louvainCommunityTotalDegreeW.
      rewrite (tally_fold vcom (degree x))
        by (unfold fillValueU; rewrite length_replicate; exact Hc).
      unfold fillValueU. rewrite vget_replicate. reflexivity.
  - rewrite Ea, gsize_sum.
    apply (sum_tally vcom (degree x) (vertexKeys x) (length a) Hlab).
Qed.
End CommunitySizes.

(** ** The aggregated graph as the next level *)

Section LinkSymmetry.
Context {W G : Type} {HW : Weight W} {HE : ExactWeight W} {HG : Graph W G}.
Variables (x : G) (vcom : list nat).
Hypothesis Htgt : forall u e, u ∈ vertexKeys x -> e ∈ edgesOf x u -> fst e ∈ vertexKeys x.

(** The weight from community [c] into community [d], member by
    member. *)
Lemma linkWeight_by_members (c d : nat) :
  linkWeight x vcom c d
  = wsum (map (fun u => wsum (map (weightTo x u) (members x vcom d))) (members x vcom c)).
Proof.
  unfold linkWeight, communityEdges. rewrite filter_concat_map.
  rewrite (wsum_concat snd (fun u => filter (fun e => vget 0 vcom (fst e) = d) (edgesOf x u))).
  apply wsum_map_ext. intros u Hu.
  apply (link_by_members x vcom Htgt). apply elem_of_members in Hu. tauto.
Qed.

(** In a symmetric graph the weight from [c] into [d] is the weight from
    [d] into [c]. *)
Lemma linkWeight_sym (c d : nat) :
  symmetricGraph x -> linkWeight x vcom c d = linkWeight x vcom d c.
Proof.
  intros Hsym. rewrite !linkWeight_by_members.
  rewrite (wsum_exchange (fun u v => weightTo x u v)).
  apply wsum_map_ext. intros v Hv. apply wsum_map_ext. intros u Hu.
  apply Hsym.
  - apply elem_of_members in Hu. tauto.
  - apply elem_of_members in Hv. tauto.
Qed.
End LinkSymmetry.

Section AggregatedGraph.
Context {W G : Type} {HW : Weight W} {HE : ExactWeight W} {HP : PositiveWeight W}
        {HG : Graph W G}.
Variables (x : G) (vcom coff0 cdeg0 cedg0 : list nat) (y0 : DiGraphCsr W)
          (s : Scratch W) (C : nat).
Hypothesis Hpos : forall u e, u ∈ vertexKeys x -> e ∈ edgesOf x u -> wpos (snd e).
Hypothesis Htgt : forall u e, u ∈ vertexKeys x -> e ∈ edgesOf x u -> fst e ∈ vertexKeys x.
Hypothesis Hlab : forall u, u ∈ vertexKeys x -> vget 0 vcom u < C.
Hypothesis Hcoff : length coff0 = C + 1.
Hypothesis Hcdeg : C <= length cdeg0.
Hypothesis Hcedg : order x <= length cedg0.
Hypothesis Hoff0 : length (offsets y0) = C + 1.
Hypothesis Hdeg0 : length (degrees y0) = C.
Hypothesis Hkeys : gsize x <= length (edgeKeys y0).
Hypothesis Hvals : gsize x <= length (edgeValues y0).
Hypothesis Hclean : scratchClean s.
Hypothesis Hn : C <= length (vcout s).

(** The graph [louvainAggregateW] builds from the buckets of
    [louvainCommunityVerticesW]: its vertices are the communities, and the
    edges of [c] are the communities the scan of [c] listed, with the
    weights accumulated, which add up to the weights of the edges of the
    members of [c]. *)
Lemma aggregated_edges :
  let cv := louvainCommunityVerticesW coff0 cdeg0 cedg0 x vcom in
  let y := fst (louvainAggregateW y0 s x vcom (fst (fst cv)) (snd cv)) in
  vertexKeys y = seq 0 C /\
  (forall c d, c < C -> d < C -> weightTo y c d = linkWeight x vcom c d) /\
  (forall c, c < C ->
     wsum (map snd (edgesOf y c)) = wsum (map snd (communityEdges x vcom c))) /\
  (forall c, c < C ->
     vget 0 (offsets y) (S c)
     = vget 0 (offsets y) c + length (communityEdges x vcom c) /\
     degree y c <= length (communityEdges x vcom c)) /\
  vget 0 (offsets y) C = gsize x.
Proof.
  intros cv y.
  destruct (louvainCommunityVerticesW_spec x vcom coff0 cdeg0 cedg0 C
              Hcoff Hcdeg Hcedg Hlab) as (Hlen & _ & Hdeg & Hbucket).
  fold cv in Hlen, Hdeg, Hbucket.
  destruct (louvainAggregateW_edges x vcom (fst (fst cv)) (snd cv) y0 s C
              Hlen Hlab Hpos Htgt Hdeg Hbucket Hoff0 ltac:(lia) Hkeys Hvals Hclean Hn)
    as (Hspan & Hedges).
  fold y in Hspan, Hedges.
  set (n := length (vcout s)) in *.
  assert (Hscan : forall c, scanInv vcom n (communityEdges x vcom c)
            (scanEdges (mkScratch [] (replicate n wzero)) vcom (communityEdges x vcom c))).
  { intros c. apply (community_scan x vcom C n Hn Hlab Hpos Htgt). }
  destruct (aggregate_offsets x vcom (offsets y0) C Hoff0 Hlab) as (_ & Hstep & Htot).
  assert (Eoff : offsets y
                 = <[C := snd (exclusiveScanW (louvainCommunityTotalDegreeW (offsets y0) x vcom))]>
                     (fst (exclusiveScanW (louvainCommunityTotalDegreeW (offsets y0) x vcom)))).
  { unfold y, louvainAggregateW. rewrite Hlen.
    replace (C + 1 - 1) with C by lia. reflexivity. }
  split; [|split; [|split; [|split]]].
  - rewrite vertexKeys_csr, Hspan, Hdeg0. reflexivity.
  - intros c d Hc Hd. unfold weightTo, linkWeight. rewrite Hedges by exact Hc.
    destruct (Hscan c) as (Hnd & _ & _ & _ & _ & Hout & Hsum).
    rewrite zip_weight by exact Hnd. rewrite <- Hsum by lia.
    destruct (decide (d ∈ vcs _)) as [|Hnin]; [reflexivity|].
    symmetry. apply Hout. exact Hnin.
  - intros c Hc. rewrite Hedges by exact Hc.
    rewrite map_snd_zip. apply (scanInv_total vcom n _ _ (Hscan c)).
  - intros c Hc. split; [rewrite Eoff; apply Hstep; exact Hc|].
    unfold degree. rewrite Hedges by exact Hc.
    rewrite <- (length_map fst), map_fst_zip. apply (Hscan c).
  - rewrite Eoff. exact Htot.
Qed.

(** X18: Aggregation keeps the graph symmetric: the graph that
    [louvainAggregateW] builds from a symmetric graph with positive weights
    that add without rounding is symmetric, as the next pass of the
    local-moving phase takes it to be. *)
Theorem louvainAggregateW_symmetric :
  symmetricGraph x ->
  let cv := louvainCommunityVerticesW coff0 cdeg0 cedg0 x vcom in
  let y := fst (louvainAggregateW y0 s x vcom (fst (fst cv)) (snd cv)) in
  symmetricGraph y.
Proof.
  intros Hsym cv y c d Hc Hd.
  destruct aggregated_edges as (Hkeys' & Hto & _). fold cv y in Hkeys', Hto.
  rewrite Hkeys' in Hc, Hd. apply elem_of_seq in Hc, Hd.
  rewrite !Hto by lia. apply (linkWeight_sym x vcom Htgt). exact Hsym.
Qed.

(** X19: The vertex weights of the next level: [louvainVertexWeightsW] on the
    aggregated graph gives each community the sum of the vertex weights of its
    members in [x]. *)
Theorem louvainAggregateW_vertex_weights (S S' : nat) :
  span x <= S -> C <= S' ->
  let cv := louvainCommunityVerticesW coff0 cdeg0 cedg0 x vcom in
  let y := fst (louvainAggregateW y0 s x vcom (fst (fst cv)) (snd cv)) in
  let vtot := louvainVertexWeightsW (replicate S wzero) x in
  forall c, c < C ->
    vget wzero (louvainVertexWeightsW (replicate S' wzero) y) c
    = communityWeight x vcom vtot c.
Proof.
  intros HS HS' cv y vtot c Hc.
  destruct aggregated_edges as (Hkeys' & _ & Hsum & _). fold cv y in Hkeys', Hsum.
  assert (Hspan : span y = C).
  { pose proof (vertexKeys_csr y) as E. rewrite Hkeys' in E.
    apply (f_equal length) in E. rewrite !length_seq in E. symmetry. exact E. }
  rewrite louvainVertexWeightsW_vget.
  2:{ rewrite length_replicate, Hspan. exact HS'. }
  2:{ rewrite Hkeys'. apply elem_of_seq. lia. }
  rewrite vget_replicate. change (foldl wadd wzero ?l) with (wsum l).
  rewrite Hsum by exact Hc. unfold communityEdges, communityWeight.
  rewrite (wsum_concat snd (edgesOf x)).
  apply wsum_map_ext. intros u Hu. apply elem_of_members in Hu as [_ Hu].
  unfold vtot. rewrite louvainVertexWeightsW_vget
    by (rewrite ?length_replicate; assumption).
  rewrite vget_replicate. reflexivity.
Qed.

(** X20: The edges of the aggregated graph fit its slices: the slice of
    community [c] has room for the out-edges of the members of [c], the edges
    written for [c] stay within it, and all slices fit in the [x.size()] slots
    of the edge buffers. *)
Theorem louvainAggregateW_fits :
  let cv := louvainCommunityVerticesW coff0 cdeg0 cedg0 x vcom in
  let y := fst (louvainAggregateW y0 s x vcom (fst (fst cv)) (snd cv)) in
  (forall c, c < C ->
     vget 0 (offsets y) c + degree y c <= vget 0 (offsets y) (c + 1) /\
     vget 0 (offsets y) (c + 1) <= vget 0 (offsets y) C) /\
  vget 0 (offsets y) C = gsize x /\
  vget 0 (offsets y) C <= length (edgeKeys y0).
Proof.
  intros cv y.
  destruct aggregated_edges as (_ & _ & _ & Hoff & Htot). fold cv y in Hoff, Htot.
  split; [|split; [exact Htot | rewrite Htot; exact Hkeys]].
  intros c Hc. destruct (Hoff c Hc) as [Estep Hdeg].
  rewrite Nat.add_1_r. split; [lia|].
  apply (offsets_mono_by (offsets y) (fun c => length (communityEdges x vcom c)) C);
    [intros c' Hc'; apply (Hoff c' Hc') | lia | lia].
Qed.
End AggregatedGraph.

(** ** Singleton initialisation *)

Section InitializeFacts.
Context {W G : Type} `{Weight W} `{Graph W G}.

Lemma louvainInitializeW_split (vcom : list nat) (ctot : list W) (x : G)
    (vtot : list W) :
  louvainInitializeW vcom ctot x vtot
  = (foldl (fun vc u => <[u := u]> vc) vcom (vertexKeys x),
     foldl (fun ct u => <[u := vget wzero vtot u]> ct) ctot (vertexKeys x)).
Proof.
  unfold louvainInitializeW.
  apply (foldl_pair (fun vc u => <[u := u]> vc)
           (fun ct u => <[u := vget wzero vtot u]> ct)).
Qed.

Lemma louvainInitializeW_vcom (vcom : list nat) (ctot : list W) (x : G)
    (vtot : list W) (u : nat) :
  u ∈ vertexKeys x -> u < length vcom ->
  vget 0 (fst (louvainInitializeW vcom ctot x vtot)) u = u.
Proof.
  intros Hu Hl. rewrite louvainInitializeW_split. simpl.
  rewrite (vget_foldl_write 0 (fun u => u)) by exact Hl.
  destruct (decide (u ∈ vertexKeys x)); [reflexivity | contradiction].
Qed.

Lemma louvainInitializeFromW_vcom (vcom : list nat) (ctot : list W) (x : G)
    (vtot : list W) (q : list nat) (u : nat) :
  u ∈ vertexKeys x -> u < length vcom ->
  vget 0 (fst (louvainInitializeFromW vcom ctot x vtot q)) u = vget 0 q u.
Proof.
  intros Hu Hl. unfold louvainInitializeFromW.
  rewrite (foldl_pair (fun vc u => <[u := vget 0 q u]> vc)
             (fun ct u => <[vget 0 q u := wadd (vget wzero ct (vget 0 q u))
                                             (vget wzero vtot u)]> ct)).
  simpl. rewrite (vget_foldl_write 0 (fun u => vget 0 q u)) by exact Hl.
  destruct (decide (u ∈ vertexKeys x)); [reflexivity | contradiction].
Qed.

(** X4: [louvainInitializeW] makes every vertex of [x] its own community, with
    the weight of the vertex as the weight of the community, and writes no
    entry of an index that is not a vertex; on any weight type. *)
Theorem louvainInitializeW_singletons (vcom : list nat) (ctot : list W) (x : G)
    (vtot : list W) :
  span x <= length vcom -> span x <= length ctot ->
  let r := louvainInitializeW vcom ctot x vtot in
  (length (fst r) = length vcom /\ length (snd r) = length ctot) /\
  (forall u, u ∈ vertexKeys x ->
     vget 0 (fst r) u = u /\ vget wzero (snd r) u = vget wzero vtot u) /\
  (forall i, i ∉ vertexKeys x -> fst r !! i = vcom !! i /\ snd r !! i = ctot !! i).
Proof.
  intros Hv Hc r. unfold r. split; [|split].
  - rewrite louvainInitializeW_split. simpl. split.
    + apply (length_foldl_write (fun _ u => u) (fun u => u)).
    + apply (length_foldl_write (fun _ u => vget wzero vtot u) (fun u => u)).
  - intros u Hu. pose proof (vertexKeys_lt x u Hu) as Hlt. split.
    + apply louvainInitializeW_vcom; [exact Hu | lia].
    + rewrite louvainInitializeW_split. simpl.
      rewrite (vget_foldl_write wzero (fun u => vget wzero vtot u)) by lia.
      destruct (decide (u ∈ vertexKeys x)); [reflexivity | contradiction].
  - intros i Hi. rewrite louvainInitializeW_split. simpl. split.
    + apply (lookup_foldl_update (fun _ u => u)). exact Hi.
    + apply (lookup_foldl_update (fun _ u => vget wzero vtot u)). exact Hi.
Qed.
End InitializeFacts.

(** ** The counters and the size of the result *)

(** Counts between 0 and [B] contribute between one and [max(1, B)]
    each. *)
Lemma sumCounts_bounds (ms : list Z) (B : Z) :
  Forall (fun m => (0 <= m <= B)%Z) ms ->
  (Z.of_nat (length ms) <= sumCounts (fun m => Z.max m 1) ms
   <= Z.of_nat (length ms) * Z.max 1 B)%Z.
Proof.
  induction 1 as [|m ms Hm _ IH]; simpl; [lia|].
  destruct IH as [IH1 IH2]. split; [lia|].
  replace (Z.of_nat (S (length ms)) * Z.max 1 B)%Z
    with (Z.max 1 B + Z.of_nat (length ms) * Z.max 1 B)%Z by lia.
  lia.
Qed.

Section ResultBounds.
Context {W G : Type} `{Weight W} `{Modularity W} `{Graph W G}.

Lemma louvainMoverCounts_bounds (fuel : nat) (x : G) (o : LouvainOptions W) (M : W)
    (st : LouvainState W) :
  length (louvainMoverCounts fuel x o M st) <= fuel /\
  Forall (fun m => (0 <= m <= Z.max 0 (maxIterations o))%Z)
         (louvainMoverCounts fuel x o M st).
Proof.
  revert st. induction fuel as [|fuel IH]; intros st; simpl.
  { split; [lia | constructor]. }
  destruct (wltb wzero M && (ls_p st <? maxPasses o)%Z); simpl;
    [|split; [lia | constructor]].
  assert (Hm : (0 <= louvainPassMove x o M st <= Z.max 0 (maxIterations o))%Z).
  { unfold louvainPassMove. destruct (ls_p st =? 0)%Z; apply louvainMoveW_range. }
  match goal with |- context [if ?b then [] else _] => destruct b end; simpl.
  - split; [lia | constructor; [exact Hm | constructor]].
  - match goal with |- context [louvainMoverCounts fuel x o M ?s] =>
      destruct (IH s) as [IHl IHr] end.
    split; [lia | constructor; [exact Hm | exact IHr]].
Qed.

(** The pass loop of [louvainSeq] keeps the size of [a]. *)
Lemma louvainPasses_lengths (fuel : nat) (x : G) (o : LouvainOptions W) (M : W)
    (st : LouvainState W) (S : nat) :
  length (ls_vcom st) = S -> length (ls_a st) = S ->
  length (ls_a (louvainPasses fuel x o M st)) = S.
Proof.
  revert st. induction fuel as [|fuel IH]; intros st Hv Ha; simpl; [exact Ha|].
  destruct (wltb wzero M && (ls_p st <? maxPasses o)%Z); [|exact Ha].
  assert (Hstep : forall r : LouvainState W * bool,
            length (ls_vcom (fst r)) = S -> length (ls_a (fst r)) = S ->
            length (ls_a (if snd r then fst r else louvainPasses fuel x o M (fst r))) = S).
  { intros r Hrv Hra. destruct (snd r); [exact Hra | apply IH; assumption]. }
  assert (Hpass : forall (G' : Type) (HG' : Graph W G') (g : G'),
            length (ls_vcom (fst (louvainPass g o M st))) = S /\
            length (ls_a (fst (louvainPass g o M st))) = S).
  { intros G' HG' g. split; [rewrite louvainPass_length; exact Hv|].
    rewrite louvainPass_membership.
    pose proof (louvainMoveW_length (ls_vcom st) (ls_ctot st) (ls_vaff st)
                  (ls_scratch st) g (ls_vtot st) M (resolution o) (maxIterations o)
                  (fun el _ => wleb el (ls_E st))) as Hlv.
    destruct (ls_p st =? 0)%Z.
    - rewrite length_copyValuesW; lia.
    - rewrite length_louvainLookupCommunitiesU. exact Ha. }
  destruct (ls_p st =? 0)%Z.
  - apply Hstep; apply Hpass.
  - apply Hstep; apply Hpass.
Qed.

(** X22: The result of [louvainSeq], run with [repeat = 1]: the membership
    has one entry per vertex id below the span; the number of passes is at
    most [maxPasses], and at least one when [M > 0] and [maxPasses > 0];
    and the iterations reported are at least one and at most
    [max(1, maxIterations)] per pass. *)
Theorem louvainSeq_result_bounds (x : G) (q : option (list nat))
    (o : LouvainOptions W) (fm : list bool -> list bool) :
  let r := louvainSeq x q o fm in
  length (membership r) = span x /\
  (0 <= passes r <= Z.max 0 (maxPasses o))%Z /\
  (passes r <= iterations r <= passes r * Z.max 1 (maxIterations o))%Z /\
  (wltb wzero (wdiv (edgeWeight x) (wofnat 2)) = true -> (0 < maxPasses o)%Z ->
   (1 <= passes r)%Z).
Proof.
  intros r.
  destruct (louvainSeqInit_lengths x q o fm) as (Hv & Ha & Hp & Hl).
  destruct (louvainPasses_counts (Z.to_nat (maxPasses o)) x o
              (wdiv (edgeWeight x) (wofnat 2)) (fst (louvainSeqInit x q o fm)))
    as (El & Ep & _).
  change (ls_l (fst (louvainSeqInit x q o fm))) with 0%Z in El.
  rewrite Hp in Ep.
  destruct (louvainMoverCounts_bounds (Z.to_nat (maxPasses o)) x o
              (wdiv (edgeWeight x) (wofnat 2)) (fst (louvainSeqInit x q o fm)))
    as (Hlen & Hrange).
  pose proof (sumCounts_bounds _ _ Hrange) as Hsum.
  unfold r, louvainSeq, louvainSeqRun. cbv zeta. cbn [membership passes iterations fst snd].
  split; [|split; [|split]].
  - apply louvainPasses_lengths; assumption.
  - rewrite Ep. lia.
  - rewrite Ep, El.
    replace (Z.max 1 (maxIterations o)) with (Z.max 1 (Z.max 0 (maxIterations o))) by lia.
    lia.
  - intros HM HP. rewrite Ep.
    destruct (Z.to_nat (maxPasses o)) as [|fuel] eqn:Ef; [lia|]. simpl.
    rewrite HM. destruct (Z.ltb_spec 0 (maxPasses o)); [|lia].
    cbn [andb length]. lia.
Qed.
End ResultBounds.

(** ** The parallel driver when no pass runs *)

Section OmpNoPass.
Context {W G : Type} `{Weight W} `{Modularity W} `{Graph W G}.

Lemma louvainOmpPasses_none (fuel : nat) (x : G) (o : LouvainOptions W) (M : W)
    (st : LouvainState W) :
  wltb wzero M = false \/ (maxPasses o <= 0)%Z ->
  louvainOmpPasses fuel x o M st = st.
Proof.
  intros Hno. destruct fuel as [|fuel]; simpl; [reflexivity|].
  destruct Hno as [HM|HP].
  - rewrite HM. reflexivity.
  - destruct (Z.ltb_spec 0 (maxPasses o)); [lia|]. rewrite andb_false_r. reflexivity.
Qed.

(** X24: When [M > 0] or [P > 0] fails, [louvainOmp], on one thread, runs no
    pass and returns the initial partition: every vertex in its own community,
    or in the community [q] gives it; with 0 iterations and 0 passes. *)
Theorem louvainOmp_no_pass (x : G) (q : option (list nat)) (o : LouvainOptions W)
    (fm : list bool -> list bool) :
  wltb wzero (wdiv (edgeWeight x) (wofnat 2)) = false \/ (maxPasses o <= 0)%Z ->
  let r := louvainOmp x q o fm in
  iterations r = 0%Z /\ passes r = 0%Z /\ length (membership r) = span x /\
  (forall u, u ∈ vertexKeys x ->
     vget 0 (membership r) u = match q with Some q => vget 0 q u | None => u end).
Proof.
  intros Hno r. unfold r, louvainOmp, louvainOmpRun. cbv zeta.
  cbn [iterations passes membership fst snd].
  rewrite (louvainOmpPasses_none _ x o _ _ Hno).
  destruct (louvainSeqInit_lengths x q o fm) as (Hv & Ha & Hp & _).
  split; [reflexivity|]. split; [exact Hp|].
  unfold louvainOmpMembership. rewrite Hp.
  change (0 <=? 1)%Z with true. cbv iota.
  split; [rewrite length_copyValuesW; lia|].
  intros u Hu. pose proof (vertexKeys_lt x u Hu) as Hlt.
  rewrite vget_copyValuesW by lia.
  unfold louvainSeqInit. cbv zeta. cbn [fst ls_vcom].
  destruct q as [q|].
  - apply louvainInitializeFromW_vcom; [exact Hu | rewrite length_replicate; exact Hlt].
  - apply louvainInitializeW_vcom; [exact Hu | rewrite length_replicate; exact Hlt].
Qed.
End OmpNoPass.

(** ** The order of the weights *)

#[export] Instance ZOrderedWeight : OrderedWeight Z.
Proof.
  split; simpl.
  - intros a. apply Z.ltb_irrefl.
  - intros a b c Hab Hbc. apply Z.ltb_lt in Hab, Hbc. apply Z.ltb_lt. lia.
Qed.

(** The comparison of IEEE doubles is transitive on [Lt], whatever the
    operands, NaN and the infinities included. *)
Lemma SFcompare_Lt_trans (a b c : spec_float) :
  SFcompare a b = Some Lt -> SFcompare b c = Some Lt -> SFcompare a c = Some Lt.
Proof.
  destruct a as [sa|sa| |sa ma ea], b as [sb|sb| |sb mb eb], c as [sc|sc| |sc mc ec];
    simpl; try discriminate; try (destruct sa, sb; discriminate);
    try (destruct sb, sc; discriminate);
    try (destruct sa; discriminate); try (destruct sb; discriminate);
    try (destruct sc; discriminate);
    try (destruct sa, sb, sc; simpl; congruence).
  destruct sa, sb, sc; simpl; try congruence;
    destruct (Z.compare_spec ea eb), (Z.compare_spec eb ec), (Z.compare_spec ea ec);
    try congruence; try lia; subst;
    fold (Pos.compare ma mb); fold (Pos.compare mb mc); fold (Pos.compare ma mc);
    destruct (Pos.compare_spec ma mb), (Pos.compare_spec mb mc), (Pos.compare_spec ma mc);
    simpl; try congruence; try lia.
Qed.

Lemma SFcompare_irrefl (a : spec_float) : SFcompare a a <> Some Lt.
Proof.
  destruct a as [sa|sa| |sa ma ea]; simpl; try discriminate.
  - destruct sa; discriminate.
  - destruct sa; rewrite Z.compare_refl; fold (Pos.compare ma ma);
      rewrite Pos.compare_refl; discriminate.
Qed.

(** The [<] of IEEE doubles is irreflexive and transitive. *)
#[export] Instance FloatOrderedWeight : OrderedWeight float.
Proof.
  split; simpl.
  - intros a. rewrite ltb_spec. unfold SFltb.
    pose proof (SFcompare_irrefl (Prim2SF a)).
    destruct (SFcompare (Prim2SF a) (Prim2SF a)) as [[]|]; congruence.
  - intros a b c. rewrite !ltb_spec. unfold SFltb.
    pose proof (SFcompare_Lt_trans (Prim2SF a) (Prim2SF b) (Prim2SF c)) as Ht.
    destruct (SFcompare (Prim2SF a) (Prim2SF b)) as [[]|]; try discriminate.
    destruct (SFcompare (Prim2SF b) (Prim2SF c)) as [[]|]; try discriminate.
    intros _ _. rewrite Ht; reflexivity.
Qed.

(** ** Clearing the scratch *)

Section ClearFacts.
Context {W : Type} `{Weight W}.

(** X6: [louvainClearScanW] empties [vcs] and resets the entries of [vcout]
    that [vcs] listed, and no other: an entry that was not listed keeps its
    value, zero or not. *)
Theorem louvainClearScanW_frame (s : Scratch W) :
  let s' := louvainClearScanW s in
  vcs s' = [] /\ length (vcout s') = length (vcout s) /\
  (forall c, c ∈ vcs s -> vget wzero (vcout s') c = wzero) /\
  (forall i, i ∉ vcs s -> vcout s' !! i = vcout s !! i).
Proof.
  intros s'. unfold s', louvainClearScanW. simpl.
  split; [reflexivity|]. split; [apply length_foldl_insert|]. split.
  - intros c Hc. unfold vget. rewrite lookup_foldl_insert.
    destruct (decide (c ∈ vcs s)) as [_|Hn]; [|contradiction].
    destruct (vcout s !! c); reflexivity.
  - intros i Hi. rewrite lookup_foldl_insert.
    destruct (decide (i ∈ vcs s)) as [|_]; [contradiction | reflexivity].
Qed.
End ClearFacts.

(** ** The labels the local-moving phase uses *)

Section MoveLabels.
Context {W G : Type} `{Weight W} `{Modularity W} `{Graph W G}.
Variables (x : G) (vtot : list W) (M R : W) (labels : list nat).
Hypothesis Htgt : forall u e, u ∈ vertexKeys x -> e ∈ edgesOf x u -> fst e ∈ vertexKeys x.

Lemma louvainMoveVertex_labels (st : MoveState W) (u : nat) :
  u ∈ vertexKeys x -> span x <= length (mv_vcom st) ->
  (forall v, v ∈ vertexKeys x -> vget 0 (mv_vcom st) v ∈ labels) ->
  forall v, v ∈ vertexKeys x ->
    vget 0 (mv_vcom (louvainMoveVertex x vtot M R st u)) v ∈ labels.
Proof.
  intros Hu HS Hlab. unfold louvainMoveVertex.
  destruct (negb (vget false (mv_vaff st) u)); [exact Hlab|]. cbv zeta.
  set (s2 := louvainScanCommunitiesW false (louvainClearScanW (mv_scratch st)) x u
               (mv_vcom st)).
  set (ce := louvainChooseCommunity false u (mv_vcom st) vtot (mv_ctot st) s2 M R).
  destruct (Nat.eqb_spec (fst ce) 0) as [E0|N0]; simpl; [exact Hlab|].
  assert (Hc : fst ce ∈ labels).
  { destruct (chooseStep_fold u (vget 0 (mv_vcom st) u) vtot (mv_ctot st) (vcout s2) M R
                (vcs s2) (vcs s2) (0, wzero)) as [E|(Hin & _)].
    - intros c Hc. exact Hc.
    - left. reflexivity.
    - fold (louvainChooseCommunity false u (mv_vcom st) vtot (mv_ctot st) s2 M R) in E.
      fold ce in E. rewrite E in N0. contradiction.
    - fold (louvainChooseCommunity false u (mv_vcom st) vtot (mv_ctot st) s2 M R) in Hin.
      fold ce in Hin. unfold s2 in Hin.
      rewrite louvainScanCommunitiesW_edges in Hin.
      apply scanEdges_listed in Hin as [Hin|(e & He & <-)]; [inversion Hin|].
      apply list_elem_of_filter in He as [_ He].
      apply Hlab. apply (Htgt u e Hu He). }
  intros v Hv. destruct (decide (u = v)) as [<-|Hne].
  - rewrite vget_insert_eq by (apply vertexKeys_lt in Hu; lia). exact Hc.
  - rewrite vget_insert_ne by exact Hne. apply Hlab. exact Hv.
Qed.

Lemma louvainMoveVertices_labels (vs : list nat) (st : MoveState W) :
  (forall u, u ∈ vs -> u ∈ vertexKeys x) -> span x <= length (mv_vcom st) ->
  (forall v, v ∈ vertexKeys x -> vget 0 (mv_vcom st) v ∈ labels) ->
  forall v, v ∈ vertexKeys x ->
    vget 0 (mv_vcom (foldl (louvainMoveVertex x vtot M R) st vs)) v ∈ labels.
Proof.
  revert st. induction vs as [|u vs IH]; intros st Hvs HS Hlab; simpl; [exact Hlab|].
  apply IH.
  - intros v Hv. apply Hvs. right. exact Hv.
  - rewrite louvainMoveVertex_length. exact HS.
  - apply louvainMoveVertex_labels; [apply Hvs; left | exact HS | exact Hlab].
Qed.

Lemma louvainMoveLoop_labels (fuel : nat) (L : Z) (fc : W -> Z -> bool) (l : Z)
    (st : MoveState W) :
  span x <= length (mv_vcom st) ->
  (forall v, v ∈ vertexKeys x -> vget 0 (mv_vcom st) v ∈ labels) ->
  forall v, v ∈ vertexKeys x ->
    vget 0 (mv_vcom (snd (louvainMoveLoop fuel x vtot M R L fc l st))) v ∈ labels.
Proof.
  revert l st. induction fuel as [|fuel IH]; intros l st HS Hlab; simpl; [exact Hlab|].
  destruct (l <? L)%Z; [|exact Hlab].
  assert (Hs : forall v, v ∈ vertexKeys x ->
             vget 0 (mv_vcom (louvainMoveSweep x vtot M R st)) v ∈ labels).
  { unfold louvainMoveSweep. apply louvainMoveVertices_labels; auto. }
  assert (Hl : span x <= length (mv_vcom (louvainMoveSweep x vtot M R st))).
  { unfold louvainMoveSweep. rewrite louvainMoveVertices_length. exact HS. }
  destruct (fc _ l); [exact Hs | apply IH; assumption].
Qed.
End MoveLabels.

Section MoveLabelsTheorem.
Context {W G : Type} `{Weight W} `{Modularity W} `{Graph W G}.

(** X13: The local-moving phase creates no community: on a graph whose edges
    lead to its vertices, every vertex ends [louvainMoveW] with a label that
    some vertex had at the start, whatever the weights, the scorer and the
    convergence test; and [vcom] keeps its size. *)
Theorem louvainMoveW_labels (vcom : list nat) (ctot : list W) (vaff : list bool)
    (s : Scratch W) (x : G) (vtot : list W) (M R : W) (L : Z) (fc : W -> Z -> bool) :
  (forall u e, u ∈ vertexKeys x -> e ∈ edgesOf x u -> fst e ∈ vertexKeys x) ->
  span x <= length vcom ->
  let r := snd (louvainMoveW vcom ctot vaff s x vtot M R L fc) in
  length (mv_vcom r) = length vcom /\
  (forall u, u ∈ vertexKeys x ->
     vget 0 (mv_vcom r) u ∈ map (vget 0 vcom) (vertexKeys x)).
Proof.
  intros Htgt HS r. split; [apply louvainMoveW_length|].
  unfold r, louvainMoveW. cbv zeta. cbn [snd].
  apply (louvainMoveLoop_labels x vtot M R _ Htgt).
  - exact HS.
  - intros v Hv. simpl. change (vget 0 vcom v ∈ vget 0 vcom <$> vertexKeys x).
    apply list_elem_of_fmap_2. exact Hv.
Qed.
End MoveLabelsTheorem.

(** ** Renumbering labels that are contiguous already *)

(** The prefix sums of flags that are all set count the flags. *)
Lemma sum_list_take_ones (fl : list nat) (k : nat) :
  (forall i, i < k -> vget 0 fl i = 1) -> sum_list (take k fl) = k.
Proof.
  induction k as [|k IH]; intros Hone; [rewrite take_0; reflexivity|].
  rewrite sum_list_take_S, IH, Hone by (intros; try apply Hone; lia). lia.
Qed.

Section RenumberFixed.
Context {W G : Type} `{Graph W G}.

(** X17: Renumbering is the identity on labels that are contiguous already:
    when the labels of the vertices are exactly the range [0, C),
    [louvainCommunityExistsW] followed by [louvainRenumberCommunitiesW]
    returns [C] and leaves the label of every vertex as it was. *)
Theorem louvainRenumberCommunitiesW_fixed (x : G) (vcom cext : list nat) (C : nat) :
  (forall u, u ∈ vertexKeys x -> u < length vcom /\ vget 0 vcom u < C) ->
  (forall c, c < C -> exists u, u ∈ vertexKeys x /\ vget 0 vcom u = c) ->
  C <= length cext ->
  let ex := louvainCommunityExistsW cext x vcom in
  let rn := louvainRenumberCommunitiesW vcom (fst ex) in
  snd ex = C /\ snd rn = C /\
  (forall u, u ∈ vertexKeys x -> vget 0 (fst (fst rn)) u = vget 0 vcom u).
Proof.
  intros Hpre Hcov HC ex rn.
  destruct (louvainCommunityExistsW_flags cext x vcom) as (Hlen & Hcount & Hflag).
  { intros u Hu. specialize (Hpre u Hu). lia. }
  fold ex in Hlen, Hcount, Hflag.
  assert (Hone : forall c, c < C -> vget 0 (fst ex) c = 1).
  { intros c Hc. rewrite Hflag by lia.
    destruct (decide (c ∈ map (vget 0 vcom) (vertexKeys x))) as [|Hn]; [reflexivity|].
    exfalso. apply Hn. destruct (Hcov c Hc) as (u & Hu & <-).
    change (vget 0 vcom u ∈ vget 0 vcom <$> vertexKeys x).
    apply list_elem_of_fmap_2. exact Hu. }
  assert (Hzero : forall c, C <= c -> vget 0 (fst ex) c = 0).
  { intros c Hc. destruct (lt_dec c (length cext)) as [Hl|Hl].
    - rewrite Hflag by exact Hl.
      destruct (decide (c ∈ map (vget 0 vcom) (vertexKeys x))) as [Hin|]; [|reflexivity].
      change (c ∈ vget 0 vcom <$> vertexKeys x) in Hin.
      apply list_elem_of_fmap in Hin as (u & -> & Hu). specialize (Hpre u Hu). lia.
    - apply vget_ge. lia. }
  assert (Hsum : sum_list (fst ex) = C).
  { rewrite <- (take_drop C (fst ex)), sum_list_with_app.
    rewrite (sum_list_take_ones _ _ Hone).
    assert (Hd : sum_list (drop C (fst ex)) = 0).
    { assert (Hall : forall v, v ∈ drop C (fst ex) -> v = 0).
      { intros v Hv. apply list_elem_of_lookup in Hv as (i & Hi).
        rewrite lookup_drop in Hi. rewrite <- (Hzero (C + i)) by lia.
        symmetry. apply vget_lookup. exact Hi. }
      induction (drop C (fst ex)) as [|v l IH]; [reflexivity|]. simpl.
      rewrite (Hall v) by left. apply IH. intros w Hw. apply Hall. right. exact Hw. }
    change (sum_list_with id (drop C (fst ex))) with (sum_list (drop C (fst ex))).
    lia. }
  split; [congruence|]. split.
  { unfold rn, louvainRenumberCommunitiesW, exclusiveScanW. simpl.
    rewrite exclusiveScanFrom_total. lia. }
  intros u Hu. destruct (Hpre u Hu) as [Hul Huc].
  unfold rn, louvainRenumberCommunitiesW, louvainLookupCommunitiesU, exclusiveScanW. simpl.
  rewrite vget_map by exact Hul.
  rewrite exclusiveScanFrom_lookup by lia.
  rewrite sum_list_take_ones; [lia|]. intros i Hi. apply Hone. lia.
Qed.
End RenumberFixed.

(** ** The order within the buckets *)

Section BucketOrder.
Context {W G : Type} `{Graph W G}.

(** X16: The buckets of [louvainCommunityVerticesW] are sorted: the slice of
    community [c] lists the vertices with label [c] in increasing order, and
    [csrDegree] of [c] is their number. *)
Theorem louvainCommunityVerticesW_sorted (x : G) (vcom coff cdeg cedg : list nat)
    (C : nat) :
  length coff = C + 1 -> C <= length cdeg -> order x <= length cedg ->
  (forall u, u ∈ vertexKeys x -> vget 0 vcom u < C) ->
  let r := louvainCommunityVerticesW coff cdeg cedg x vcom in
  forall c, c < C ->
    csrEdgeKeys (fst (fst r)) (snd r) c
    = filter (fun u => vget 0 vcom u = c) (vertexKeys x) /\
    csrDegree (fst (fst r)) c
    = length (filter (fun u => vget 0 vcom u = c) (vertexKeys x)) /\
    (forall i j u v, i < j ->
       csrEdgeKeys (fst (fst r)) (snd r) c !! i = Some u ->
       csrEdgeKeys (fst (fst r)) (snd r) c !! j = Some v -> u < v).
Proof.
  intros Hcoff Hcdeg Hcedg Hlab r c Hc.
  destruct (louvainCommunityVerticesW_spec x vcom coff cdeg cedg C
              Hcoff Hcdeg Hcedg Hlab) as (_ & _ & Hdeg & Hbucket).
  fold r in Hdeg, Hbucket.
  split; [apply (Hbucket c Hc)|]. split; [apply (Hdeg c Hc)|].
  rewrite (Hbucket c Hc). unfold members, vertexKeys.
  intros i j u v Hij Hu Hv.
  assert (Hsorted : forall (P : nat -> Prop) (HP : forall n, Decision (P n)) (l : list nat),
            (forall i j a b, i < j -> l !! i = Some a -> l !! j = Some b -> a < b) ->
            forall i j a b, i < j -> filter P l !! i = Some a ->
                            filter P l !! j = Some b -> a < b).
  { intros P HP l. induction l as [|n l IH]; intros Hl i' j' a b Hij' Ha Hb.
    - rewrite filter_nil in Ha. discriminate.
    - assert (Htl : forall i j a b, i < j -> l !! i = Some a -> l !! j = Some b -> a < b).
      { intros i0 j0 a0 b0 H0 Ha0 Hb0. apply (Hl (S i0) (S j0)); [lia | exact Ha0 | exact Hb0]. }
      rewrite filter_cons in Ha, Hb. destruct (decide (P n)) as [Hn|Hn].
      + destruct i' as [|i'], j' as [|j']; try lia.
        * simpl in Ha, Hb. injection Ha as <-.
          apply list_elem_of_lookup_2, list_elem_of_filter in Hb as [_ Hb].
          apply list_elem_of_lookup in Hb as (k & Hk).
          apply (Hl 0 (S k)); [lia | reflexivity | exact Hk].
        * simpl in Ha, Hb. apply (IH Htl i' j'); [lia | exact Ha | exact Hb].
      + apply (IH Htl i' j'); assumption. }
  assert (Hseq : forall i j a b, i < j -> seq 0 (span x) !! i = Some a ->
                   seq 0 (span x) !! j = Some b -> a < b).
  { intros i0 j0 a b H0 Ha Hb. apply lookup_seq in Ha as [-> _].
    apply lookup_seq in Hb as [-> _]. lia. }
  apply (Hsorted _ _ _ (Hsorted _ _ _ Hseq) i j u v Hij Hu Hv).
Qed.
End BucketOrder.

(** ** The further statements on concrete inputs *)

Lemma pathZ_labels (u : nat) : u ∈ vertexKeys pathZ -> vget 0 [0; 0; 1] u < 2.
Proof.
  intros Hu. rewrite vertexKeys_pathZ in Hu. list_cases Hu; unfold vget; simpl; lia.
Qed.

(** The vertex weights of the path 0-1-2. *)
Lemma louvainVertexWeightsW_sums_witness :
  span pathZ <= length [0; 0; 0]%Z /\
  louvainVertexWeightsW [0; 0; 0]%Z pathZ = [2; 5; 3]%Z /\
  (forall u, u ∈ vertexKeys pathZ ->
     vget wzero (louvainVertexWeightsW [0; 0; 0]%Z pathZ) u
     = wsum (map snd (edgesOf pathZ u))).
Proof.
  split; [simpl; lia|]. split; [reflexivity|].
  destruct (louvainVertexWeightsW_sums pathZ [0; 0; 0]%Z) as (_ & Hv & _);
    [simpl; lia|].
  intros u Hu. apply (Hv u Hu). rewrite vertexKeys_pathZ in Hu.
  list_cases Hu; reflexivity.
Defined.

(** The vertex weights of the path 0-1-2 add up to its edge weight 10. *)
Lemma louvainVertexWeightsW_total_witness :
  span pathZ <= 3 /\ edgeWeight pathZ = 10%Z /\
  wsum (map (vget wzero (louvainVertexWeightsW (replicate 3 wzero) pathZ))
            (vertexKeys pathZ))
  = edgeWeight pathZ.
Proof.
  split; [simpl; lia|]. split; [reflexivity|].
  apply (louvainVertexWeightsW_total pathZ 3). simpl. lia.
Defined.

(** The community weights of the partition {0,1}, {2} of the path 0-1-2,
    added to a table that held 0, 0, 0. *)
Lemma louvainCommunityWeightsW_sums_witness :
  let vcom := [0; 0; 1] in
  let vtot := [2; 5; 3]%Z in
  let ctot := [0; 0; 0]%Z in
  (forall u, u ∈ vertexKeys pathZ -> vget 0 vcom u < length ctot) /\
  louvainCommunityWeightsW ctot pathZ vcom vtot = [7; 3; 0]%Z /\
  (forall c, c < length ctot ->
     vget wzero (louvainCommunityWeightsW ctot pathZ vcom vtot) c
     = wadd (vget wzero ctot c) (communityWeight pathZ vcom vtot c)).
Proof.
  intros vcom vtot ctot.
  assert (Hlab : forall u, u ∈ vertexKeys pathZ -> vget 0 vcom u < length ctot).
  { intros u Hu. apply pathZ_labels in Hu. simpl. unfold vcom. lia. }
  split; [exact Hlab|]. split; [reflexivity|].
  apply (louvainCommunityWeightsW_sums pathZ vcom vtot ctot Hlab).
Defined.

(** The scan of vertex 1 of the path 0-1-2 under the partition {0,1},
    {2}. *)
Lemma louvainScanCommunitiesW_totals_witness :
  let vcom := [0; 0; 1] in
  let s0 := mkScratch [] (replicate 3 0%Z) in
  let s := louvainScanCommunitiesW false (louvainClearScanW s0) pathZ 1 vcom in
  scratchClean s0 /\
  s = mkScratch [0; 1] [2; 3; 0]%Z /\
  NoDup (vcs s) /\
  (forall d, d < 3 ->
     vget wzero (vcout s) d
     = wsum (map snd (filter (fun e => vget 0 vcom (fst e) = d)
                        (filter (fun e => fst e <> 1) (edgesOf pathZ 1))))).
Proof.
  intros vcom s0 s. split; [exact (scratchClean_fresh 3)|]. split; [reflexivity|].
  destruct (louvainScanCommunitiesW_totals pathZ 1 vcom s0) as (Hnd & _ & Hsum).
  - exact (scratchClean_fresh 3).
  - intros e He _. simpl in He. list_cases He; split; (vm_compute; lia) || reflexivity.
  - split; [exact Hnd | exact Hsum].
Defined.

(** The scorer on the heavy triangle, on doubles: for vertex 1 the one
    candidate is community 0, and no candidate has a gain above the one
    returned. *)
Lemma louvainChooseCommunity_best_witness :
  let vtot := louvainVertexWeightsW (replicate 3 wzero) heavyTriangle in
  let vc := louvainInitializeFromW (replicate 3 0) (replicate 3 wzero)
              heavyTriangle vtot [0; 1; 0] in
  let M := wdiv (edgeWeight heavyTriangle) (wofnat 2) in
  let s := louvainScanCommunitiesW false
             (louvainClearScanW (mkScratch [] (replicate 3 wzero)))
             heavyTriangle 1 (fst vc) in
  let r := louvainChooseCommunity false 1 (fst vc) vtot (snd vc) s M 1%float in
  vcs s = [0] /\ fst r = 0 /\
  (forall c, c ∈ vcs s -> c <> vget 0 (fst vc) 1 ->
     wltb (snd r)
       (deltaModularity (vget wzero (vcout s) c) (vget wzero (vcout s) (vget 0 (fst vc) 1))
          (vget wzero vtot 1) (vget wzero (snd vc) c)
          (vget wzero (snd vc) (vget 0 (fst vc) 1)) M 1%float) = false) /\
  (r = (0, wzero) \/ wpos (snd r)).
Proof.
  intros vtot vc M s r. split; [reflexivity|]. split; [reflexivity|].
  exact (louvainChooseCommunity_best 1 (fst vc) vtot (snd vc) s M 1%float).
Defined.

(** On the path 0-1-2 with singleton communities, moving vertex 0 to
    community 1 and back restores the tables. *)
Lemma louvainChangeCommunityW_round_trip_witness :
  let vtot := [2; 5; 3]%Z in
  let r0 := louvainInitializeW (replicate 3 0) (replicate 3 0%Z) pathZ vtot in
  let r := louvainChangeCommunityW (fst r0) (snd r0) 0 1 vtot in
  tablesOk pathZ 3 vtot (fst r0) (snd r0) /\
  r = ([1; 1; 2], [0; 7; 3]%Z) /\
  louvainChangeCommunityW (fst r) (snd r) 0 (vget 0 (fst r0) 0) vtot = (fst r0, snd r0).
Proof.
  intros vtot r0 r.
  assert (Hok : tablesOk pathZ 3 vtot (fst r0) (snd r0)).
  { refine (louvainInitializeW_ok pathZ 3 vtot _). simpl. lia. }
  split; [exact Hok|]. split; [reflexivity|].
  apply (louvainChangeCommunityW_round_trip pathZ 3 vtot (fst r0) (snd r0) 0 1 Hok).
  - rewrite vertexKeys_pathZ. left.
  - lia.
Defined.

(** The local-moving phase on the path 0-1-2 with no vertex flagged. *)
Lemma louvainMoveW_unaffected_witness :
  let vaff := [false; false; false] in
  let r := louvainMoveW [0; 1; 2] [2; 5; 3]%Z vaff (mkScratch [] (replicate 3 0%Z))
             pathZ [2; 5; 3]%Z 5%Z 1%Z 20%Z (fun el _ => wleb el 0%Z) in
  (forall u, u ∈ vertexKeys pathZ -> vget false vaff u = false) /\
  snd r = mkMove [0; 1; 2] [2; 5; 3]%Z vaff (mkScratch [] (replicate 3 0%Z)) wzero /\
  fst r <> 1%Z.
Proof.
  intros vaff r.
  assert (Hno : forall u, u ∈ vertexKeys pathZ -> vget false vaff u = false).
  { intros u Hu. rewrite vertexKeys_pathZ in Hu. list_cases Hu; reflexivity. }
  split; [exact Hno|].
  apply (louvainMoveW_unaffected [0; 1; 2] [2; 5; 3]%Z vaff
           (mkScratch [] (replicate 3 0%Z)) pathZ [2; 5; 3]%Z 5%Z 1%Z 20%Z
           (fun el _ => wleb el 0%Z) Hno).
Defined.

(** The local-moving phase on the path 0-1-2 from singleton communities,
    with the integer scorer: the three vertices end in community 2, whose
    weight is 10. *)
Lemma louvainMoveW_keeps_tables_witness :
  let vtot := [2; 5; 3]%Z in
  let r0 := louvainInitializeW (replicate 3 0) (replicate 3 0%Z) pathZ vtot in
  let r := snd (louvainMoveW (fst r0) (snd r0) [true; true; true]
                  (mkScratch [] (replicate 3 0%Z)) pathZ vtot 5%Z 1%Z 20%Z
                  (fun el _ => wleb el 0%Z)) in
  tablesOk pathZ 3 vtot (fst r0) (snd r0) /\
  (mv_vcom r = [2; 2; 2] /\ mv_ctot r = [0; 0; 10]%Z) /\
  tablesOk pathZ 3 vtot (mv_vcom r) (mv_ctot r) /\
  wsum (mv_ctot r) = wsum (map (vget wzero vtot) (vertexKeys pathZ)).
Proof.
  intros vtot r0 r.
  assert (Hok : tablesOk pathZ 3 vtot (fst r0) (snd r0)).
  { refine (louvainInitializeW_ok pathZ 3 vtot _). simpl. lia. }
  split; [exact Hok|]. split; [split; reflexivity|].
  apply (louvainMoveW_keeps_tables pathZ 3 vtot 5%Z 1%Z pathZ_targets (fst r0) (snd r0)
           [true; true; true] (mkScratch [] (replicate 3 0%Z)) 20%Z
           (fun el _ => wleb el 0%Z) Hok).
Defined.

(** The labels after the local-moving phase on the path 0-1-2 are among
    the labels 0, 1, 2 it started from. *)
Lemma louvainMoveW_labels_witness :
  let r := snd (louvainMoveW [0; 1; 2] [2; 5; 3]%Z [true; true; true]
                  (mkScratch [] (replicate 3 0%Z)) pathZ [2; 5; 3]%Z 5%Z 1%Z 20%Z
                  (fun el _ => wleb el 0%Z)) in
  span pathZ <= length [0; 1; 2] /\
  mv_vcom r = [2; 2; 2] /\
  (forall u, u ∈ vertexKeys pathZ ->
     vget 0 (mv_vcom r) u ∈ map (vget 0 [0; 1; 2]) (vertexKeys pathZ)).
Proof.
  intros r. split; [simpl; lia|]. split; [reflexivity|].
  apply (louvainMoveW_labels [0; 1; 2] [2; 5; 3]%Z [true; true; true]
           (mkScratch [] (replicate 3 0%Z)) pathZ [2; 5; 3]%Z 5%Z 1%Z 20%Z
           (fun el _ => wleb el 0%Z) pathZ_targets).
  simpl. lia.
Defined.

(** The community sizes of the partition {0,1}, {2} of the path 0-1-2 on
    counters of 8 bits, in a vector that held 7, 7, 7; and 300 vertices
    in one community, which such counters count as 44. *)
Lemma louvainCountCommunityVerticesW_sizes_witness :
  let vcom := [0; 0; 1] in
  let a' := Unsigned.louvainCountCommunityVerticesW 8 [7; 7; 7] pathZ vcom in
  (forall u, u ∈ vertexKeys pathZ -> vget 0 vcom u < length [7; 7; 7]) /\
  order pathZ < 2 ^ 8 /\
  a' = [2; 1; 0] /\
  Unsigned.louvainCountCommunityVerticesW 8 [7; 7] isolated300 (replicate 300 0)
  = [44; 0] /\
  (forall c, c < 3 -> vget 0 a' c = length (members pathZ vcom c) mod 2 ^ 8) /\
  a' = louvainCountCommunityVerticesW [7; 7; 7] pathZ vcom /\
  sum_list a' = order pathZ.
Proof.
  intros vcom a'.
  assert (Hlab : forall u, u ∈ vertexKeys pathZ -> vget 0 vcom u < length [7; 7; 7]).
  { intros u Hu. apply pathZ_labels in Hu. simpl. unfold vcom. lia. }
  assert (Hfit : order pathZ < 2 ^ 8) by (vm_compute; lia).
  split; [exact Hlab|]. split; [exact Hfit|]. split; [reflexivity|].
  split; [vm_compute; reflexivity|].
  destruct (louvainCountCommunityVerticesW_sizes 8 [7; 7; 7] pathZ vcom Hlab)
    as (_ & Hval & Hbound).
  destruct (Hbound Hfit) as (Eq & _ & Hsum).
  split; [exact Hval|]. split; [exact Eq | exact Hsum].
Defined.

(** The community degrees of the partition {0,1}, {2} of the path 0-1-2
    on counters of 8 bits; on counters of one bit the degree 3 of the
    community {0,1} wraps to 1. *)
Lemma louvainCommunityTotalDegreeW_degrees_witness :
  let vcom := [0; 0; 1] in
  let a' := Unsigned.louvainCommunityTotalDegreeW 8 [7; 7; 7] pathZ vcom in
  (forall u, u ∈ vertexKeys pathZ -> vget 0 vcom u < length [7; 7; 7]) /\
  gsize pathZ < 2 ^ 8 /\
  a' = [3; 1; 0] /\
  Unsigned.louvainCommunityTotalDegreeW 1 [7; 7; 7] pathZ vcom = [1; 1; 0] /\
  (forall c, c < 3 ->
     vget 0 a' c = sum_list (map (degree pathZ) (members pathZ vcom c)) mod 2 ^ 8) /\
  a' = louvainCommunityTotalDegreeW [7; 7; 7] pathZ vcom /\
  sum_list a' = gsize pathZ.
Proof.
  intros vcom a'.
  assert (Hlab : forall u, u ∈ vertexKeys pathZ -> vget 0 vcom u < length [7; 7; 7]).
  { intros u Hu. apply pathZ_labels in Hu. simpl. unfold vcom. lia. }
  assert (Hfit : gsize pathZ < 2 ^ 8) by (vm_compute; lia).
  split; [exact Hlab|]. split; [exact Hfit|]. split; [reflexivity|].
  split; [reflexivity|].
  destruct (louvainCommunityTotalDegreeW_degrees 8 [7; 7; 7] pathZ vcom Hlab)
    as (_ & Hval & Hbound).
  destruct (Hbound Hfit) as (Eq & _ & Hsum).
  split; [exact Hval|]. split; [exact Eq | exact Hsum].
Defined.

(** Singleton initialisation of the path 0-1-2 over tables that held
    other values. *)
Lemma louvainInitializeW_singletons_witness :
  let r := louvainInitializeW [9; 9; 9; 9] [1; 1; 1; 1]%Z pathZ [2; 5; 3]%Z in
  (span pathZ <= length [9; 9; 9; 9] /\ span pathZ <= length [1; 1; 1; 1]%Z) /\
  r = ([0; 1; 2; 9], [2; 5; 3; 1]%Z) /\
  (forall u, u ∈ vertexKeys pathZ ->
     vget 0 (fst r) u = u /\ vget wzero (snd r) u = vget wzero [2; 5; 3]%Z u).
Proof.
  intros r. split; [simpl; lia|]. split; [reflexivity|].
  destruct (louvainInitializeW_singletons [9; 9; 9; 9] [1; 1; 1; 1]%Z pathZ [2; 5; 3]%Z)
    as (_ & Hv & _); [simpl; lia | simpl; lia | exact Hv].
Defined.

(** Renumbering the labels 0, 0, 1 of the path 0-1-2, which are
    contiguous already. *)
Lemma louvainRenumberCommunitiesW_fixed_witness :
  let vcom := [0; 0; 1] in
  let ex := louvainCommunityExistsW [5; 5; 5] pathZ vcom in
  let rn := louvainRenumberCommunitiesW vcom (fst ex) in
  (forall c, c < 2 -> exists u, u ∈ vertexKeys pathZ /\ vget 0 vcom u = c) /\
  rn = ([0; 0; 1], [0; 1; 2], 2) /\
  snd ex = 2 /\ snd rn = 2 /\
  (forall u, u ∈ vertexKeys pathZ -> vget 0 (fst (fst rn)) u = vget 0 vcom u).
Proof.
  intros vcom ex rn.
  assert (Hcov : forall c, c < 2 -> exists u, u ∈ vertexKeys pathZ /\ vget 0 vcom u = c).
  { intros c Hc. rewrite vertexKeys_pathZ. destruct c as [|[|c]]; [| |lia].
    - exists 0. split; [left | reflexivity].
    - exists 2. split; [right; right; left | reflexivity]. }
  split; [exact Hcov|]. split; [reflexivity|].
  apply (louvainRenumberCommunitiesW_fixed pathZ vcom [5; 5; 5] 2).
  - intros u Hu. split; [|apply pathZ_labels; exact Hu].
    apply vertexKeys_lt in Hu. simpl in *. lia.
  - exact Hcov.
  - simpl. lia.
Defined.

(** The buckets of the partition {0,2}, {1} of the path 0-1-2. *)
Lemma louvainCommunityVerticesW_sorted_witness :
  let vcom := [0; 1; 0] in
  let r := louvainCommunityVerticesW [0; 0; 0] [0; 0] [0; 0; 0] pathZ vcom in
  (forall u, u ∈ vertexKeys pathZ -> vget 0 vcom u < 2) /\
  r = ([0; 2; 3], [2; 1], [0; 2; 1]) /\
  csrEdgeKeys (fst (fst r)) (snd r) 0
  = filter (fun u => vget 0 vcom u = 0) (vertexKeys pathZ).
Proof.
  intros vcom r.
  assert (Hlab : forall u, u ∈ vertexKeys pathZ -> vget 0 vcom u < 2).
  { intros u Hu. rewrite vertexKeys_pathZ in Hu.
    list_cases Hu; unfold vget; simpl; lia. }
  split; [exact Hlab|]. split; [reflexivity|].
  destruct (louvainCommunityVerticesW_sorted pathZ vcom [0; 0; 0] [0; 0] [0; 0; 0] 2)
    with (c := 0) as (Hb & _);
    [reflexivity | vm_compute; lia | vm_compute; lia | exact Hlab | lia | exact Hb].
Defined.

(** The graph aggregated from the partition {0,1}, {2} of the path 0-1-2
    is symmetric. *)
Lemma louvainAggregateW_symmetric_witness :
  let vcom := [0; 0; 1] in
  let cv := louvainCommunityVerticesW [0; 0; 0] [0; 0] [0; 0; 0] pathZ vcom in
  let y0 := respan 2 (csrNew 0%Z 3 (gsize pathZ)) in
  let s := mkScratch [] (replicate 3 0%Z) in
  let y := fst (louvainAggregateW y0 s pathZ vcom (fst (fst cv)) (snd cv)) in
  (symmetricGraph pathZ /\ gsize pathZ <= length (edgeKeys y0) /\ scratchClean s) /\
  y = mkCsr [0; 3; 4] [2; 1] [0; 1; 0; 0] [4; 3; 0; 3]%Z /\
  symmetricGraph y.
Proof.
  intros vcom cv y0 s y.
  split.
  { split; [apply pathZ_symmetric|].
    split; [vm_compute; lia | exact (scratchClean_fresh 3)]. }
  split; [reflexivity|].
  apply (louvainAggregateW_symmetric pathZ vcom [0; 0; 0] [0; 0] [0; 0; 0] y0 s 2);
    [apply pathZ_positive | apply pathZ_targets | apply pathZ_labels
    | reflexivity | vm_compute; lia | vm_compute; lia | reflexivity | reflexivity
    | vm_compute; lia | vm_compute; lia | exact (scratchClean_fresh 3)
    | vm_compute; lia | apply pathZ_symmetric].
Defined.

(** The vertex weights of the graph aggregated from the partition {0,1},
    {2} of the path 0-1-2 are the community weights 7 and 3. *)
Lemma louvainAggregateW_vertex_weights_witness :
  let vcom := [0; 0; 1] in
  let cv := louvainCommunityVerticesW [0; 0; 0] [0; 0] [0; 0; 0] pathZ vcom in
  let y0 := respan 2 (csrNew 0%Z 3 (gsize pathZ)) in
  let s := mkScratch [] (replicate 3 0%Z) in
  let y := fst (louvainAggregateW y0 s pathZ vcom (fst (fst cv)) (snd cv)) in
  let vtot := louvainVertexWeightsW (replicate 3 wzero) pathZ in
  (gsize pathZ <= length (edgeKeys y0) /\ scratchClean s) /\
  louvainVertexWeightsW (replicate 2 wzero) y = [7; 3]%Z /\
  (forall c, c < 2 ->
     vget wzero (louvainVertexWeightsW (replicate 2 wzero) y) c
     = communityWeight pathZ vcom vtot c).
Proof.
  intros vcom cv y0 s y vtot.
  split; [split; [vm_compute; lia | exact (scratchClean_fresh 3)]|].
  split; [reflexivity|].
  apply (louvainAggregateW_vertex_weights pathZ vcom [0; 0; 0] [0; 0] [0; 0; 0] y0 s 2);
    [apply pathZ_positive | apply pathZ_targets | apply pathZ_labels
    | reflexivity | vm_compute; lia | vm_compute; lia | reflexivity | reflexivity
    | vm_compute; lia | vm_compute; lia | exact (scratchClean_fresh 3)
    | vm_compute; lia | vm_compute; lia | lia].
Defined.

(** The slices of the graph aggregated from the partition {0,1}, {2} of
    the path 0-1-2: community 0 has room for three edges and holds two. *)
Lemma louvainAggregateW_fits_witness :
  let vcom := [0; 0; 1] in
  let cv := louvainCommunityVerticesW [0; 0; 0] [0; 0] [0; 0; 0] pathZ vcom in
  let y0 := respan 2 (csrNew 0%Z 3 (gsize pathZ)) in
  let s := mkScratch [] (replicate 3 0%Z) in
  let y := fst (louvainAggregateW y0 s pathZ vcom (fst (fst cv)) (snd cv)) in
  (gsize pathZ <= length (edgeKeys y0) /\ scratchClean s) /\
  (offsets y = [0; 3; 4] /\ degree y 0 = 2 /\ degree y 1 = 1) /\
  (forall c, c < 2 ->
     vget 0 (offsets y) c + degree y c <= vget 0 (offsets y) (c + 1) /\
     vget 0 (offsets y) (c + 1) <= vget 0 (offsets y) 2) /\
  vget 0 (offsets y) 2 = gsize pathZ.
Proof.
  intros vcom cv y0 s y.
  split; [split; [vm_compute; lia | exact (scratchClean_fresh 3)]|].
  split; [repeat split; reflexivity|].
  destruct (louvainAggregateW_fits pathZ vcom [0; 0; 0] [0; 0] [0; 0; 0] y0 s 2)
    as (Hfit & Htot & _);
    [apply pathZ_positive | apply pathZ_targets | apply pathZ_labels
    | reflexivity | vm_compute; lia | vm_compute; lia | reflexivity | reflexivity
    | vm_compute; lia | vm_compute; lia | exact (scratchClean_fresh 3)
    | vm_compute; lia |].
  split; [exact Hfit | exact Htot].
Defined.

(** On the three triangles the membership [louvainSeq] returns for vertex
    3 is the walk through the [vcom] vectors of the two passes with no
    renumbering, which is 0. *)
Lemma louvainSeq_membership_walk_witness :
  let fm := fun v : list bool => fillValueU v true in
  (3 < span triangles3 /\ louvainSeqLog triangles3 None defaultOptions fm <> []) /\
  walkLevels (withoutRenumbering (louvainSeqLog triangles3 None defaultOptions fm)) 3 = 0 /\
  vget 0 (membership (louvainSeq triangles3 None defaultOptions fm)) 3
  = walkLevels (withoutRenumbering (louvainSeqLog triangles3 None defaultOptions fm)) 3.
Proof.
  intros fm.
  assert (Hlog : louvainSeqLog triangles3 None defaultOptions fm <> []).
  { vm_compute. discriminate. }
  split; [split; [vm_compute; lia | exact Hlog]|].
  split; [vm_compute; reflexivity|].
  apply (louvainSeq_membership_walk triangles3 None defaultOptions fm 3);
    [vm_compute; lia | exact Hlog].
Defined.

(** On the three triangles the membership [louvainOmp] returns, on one
    thread, for vertex 3 is the walk through the two levels, which is
    1. *)
Lemma louvainOmp_membership_walk_witness :
  let fm := fun v : list bool => fillValueU v true in
  (wltb wzero (wdiv (edgeWeight triangles3) (wofnat 2)) = true /\
   (0 < maxPasses defaultOptions)%Z /\ 3 < span triangles3) /\
  walkLevels (louvainOmpLog triangles3 None defaultOptions fm) 3 = 1 /\
  vget 0 (membership (louvainOmp triangles3 None defaultOptions fm)) 3
  = walkLevels (louvainOmpLog triangles3 None defaultOptions fm) 3.
Proof.
  intros fm.
  split; [split; [reflexivity | split; [reflexivity | vm_compute; lia]]|].
  split; [vm_compute; reflexivity|].
  apply (louvainOmp_membership_walk triangles3 None defaultOptions fm 3);
    [reflexivity | reflexivity | vm_compute; lia].
Defined.

(** On two isolated vertices [louvainOmp], on one thread, runs no pass
    and returns the identity. *)
Lemma louvainOmp_no_pass_witness :
  let fm := fun v : list bool => fillValueU v true in
  let r := louvainOmp isolated2 None defaultOptions fm in
  wltb wzero (wdiv (edgeWeight isolated2) (wofnat 2)) = false /\
  membership r = [0; 1] /\
  iterations r = 0%Z /\ passes r = 0%Z /\ length (membership r) = span isolated2 /\
  (forall u, u ∈ vertexKeys isolated2 -> vget 0 (membership r) u = u).
Proof.
  intros fm r. split; [reflexivity|]. split; [reflexivity|].
  apply (louvainOmp_no_pass isolated2 None defaultOptions fm). left. reflexivity.
Defined.

(** ** The two drivers pass by pass *)

Section DriversAgree.
Context {W G : Type} `{Weight W} `{Modularity W} `{Graph W G}.

(** The pass bodies of the two drivers differ in the membership only. *)
Lemma louvainPass_louvainOmpPass {G' : Type} `{Graph W G'} (g : G')
    (o : LouvainOptions W) (M : W) (st st' : LouvainState W) :
  forgetMembership st = forgetMembership st' ->
  forgetMembership (fst (louvainPass g o M st))
  = forgetMembership (fst (louvainOmpPass g o M st')) /\
  snd (louvainPass g o M st) = snd (louvainOmpPass g o M st').
Proof.
  intros E.
  destruct st as [v1 t1 c1 f1 a1 s1 cv1 y1 z1 E1 l1 p1 g1].
  destruct st' as [v2 t2 c2 f2 a2 s2 cv2 y2 z2 E2 l2 p2 g2].
  unfold forgetMembership in E. simpl in E.
  injection E as -> -> -> -> -> -> -> -> -> -> -> ->.
  unfold louvainPass, louvainOmpPass. cbn [ls_vcom ls_vtot ls_ctot ls_vaff ls_a
    ls_scratch ls_cv ls_y ls_z ls_E ls_l ls_p ls_log].
  match goal with |- context [if ?b || ?c then _ else _] => destruct (b || c) end;
    [split; reflexivity|].
  match goal with |- context [if wleb ?a ?b then _ else _] => destruct (wleb a b) end;
    split; reflexivity.
Qed.

(** A pass that does not leave the loop ends with [p] below [P]. *)
Lemma louvainPass_continues {G' : Type} `{Graph W G'} (g : G') (o : LouvainOptions W)
    (M : W) (st : LouvainState W) :
  snd (louvainPass g o M st) = false -> (ls_p st + 1 < maxPasses o)%Z.
Proof.
  unfold louvainPass.
  match goal with |- context [if ?b || ?c then _ else _] => destruct b end;
    [simpl; discriminate|].
  destruct (Z.leb_spec (maxPasses o) (ls_p st + 1)); simpl; [discriminate | lia].
Qed.

(** The pass loops of the two drivers go through the same states, the
    membership apart. *)
Lemma louvainPasses_louvainOmpPasses (fuel : nat) (x : G) (o : LouvainOptions W)
    (M : W) (st st' : LouvainState W) :
  forgetMembership st = forgetMembership st' ->
  (ls_p st = 0 \/ 0 <= ls_p st < maxPasses o)%Z ->
  forgetMembership (louvainPasses fuel x o M st)
  = forgetMembership (louvainOmpPasses fuel x o M st').
Proof.
  revert st st'. induction fuel as [|fuel IH]; intros st st' E Hp; simpl; [exact E|].
  assert (Ep : ls_p st' = ls_p st).
  { apply (f_equal ls_p) in E. simpl in E. congruence. }
  assert (Ey : ls_y st' = ls_y st).
  { apply (f_equal ls_y) in E. simpl in E. congruence. }
  assert (Ec : (ls_p st <? maxPasses o)%Z = (0 <? maxPasses o)%Z).
  { destruct Hp as [->|Hp]; [reflexivity|].
    destruct (Z.ltb_spec (ls_p st) (maxPasses o)), (Z.ltb_spec 0 (maxPasses o)); lia. }
  rewrite Ec, Ep, Ey.
  destruct (wltb wzero M && (0 <? maxPasses o)%Z); [|exact E].
  assert (Hstep : forall (r r' : LouvainState W * bool),
            forgetMembership (fst r) = forgetMembership (fst r') ->
            snd r = snd r' -> ls_p (fst r) = (ls_p st + 1)%Z ->
            (snd r = false -> (ls_p st + 1 < maxPasses o)%Z) ->
            forgetMembership (if snd r then fst r else louvainPasses fuel x o M (fst r))
            = forgetMembership
                (if snd r' then fst r' else louvainOmpPasses fuel x o M (fst r'))).
  { intros r r' Er Es Erp Hcont. rewrite <- Es. destruct (snd r); [exact Er|].
    apply IH; [exact Er|]. right. rewrite Erp. specialize (Hcont eq_refl). lia. }
  destruct (ls_p st =? 0)%Z.
  - destruct (louvainPass_louvainOmpPass x o M st st' E) as [Er Es].
    apply Hstep; [exact Er | exact Es | apply (louvainPass_counts x o M st)
                 | apply louvainPass_continues].
  - destruct (louvainPass_louvainOmpPass (ls_y st) o M st st' E) as [Er Es].
    apply Hstep; [exact Er | exact Es | apply (louvainPass_counts (ls_y st) o M st)
                 | apply louvainPass_continues].
Qed.

Lemma louvainSeqRun_louvainOmpRun (x : G) (q : option (list nat))
    (o : LouvainOptions W) (fm : list bool -> list bool) :
  forgetMembership (fst (louvainSeqRun x q o fm))
  = forgetMembership (fst (louvainOmpRun x q o fm)) /\
  snd (louvainSeqRun x q o fm) = snd (louvainOmpRun x q o fm).
Proof.
  unfold louvainSeqRun, louvainOmpRun. cbv zeta. cbn [fst snd].
  split; [|reflexivity].
  apply louvainPasses_louvainOmpPasses; [reflexivity | left; reflexivity].
Qed.

Lemma withoutRenumbering_none (log : list PassRecord) :
  Forall (fun r => pr_renumber r = None) log -> withoutRenumbering log = log.
Proof.
  induction 1 as [|r log Hr _ IH]; [reflexivity|].
  unfold withoutRenumbering in *. simpl. rewrite IH. f_equal.
  destruct r as [m v rn]. simpl in *. rewrite Hr. reflexivity.
Qed.

(** X26: When a run aggregates no pass, the two drivers return the same
    membership: if at least one pass ran and no pass of the log was
    renumbered, [louvainSeq] and [louvainOmp], on one thread, agree on every
    vertex id below the span. *)
Theorem louvainSeq_louvainOmp_agree (x : G) (q : option (list nat))
    (o : LouvainOptions W) (fm : list bool -> list bool) (u : nat) :
  louvainSeqLog x q o fm <> [] ->
  Forall (fun r => pr_renumber r = None) (louvainSeqLog x q o fm) ->
  u < span x ->
  vget 0 (membership (louvainSeq x q o fm)) u
  = vget 0 (membership (louvainOmp x q o fm)) u.
Proof.
  intros Hne Hnone Hu.
  destruct (louvainSeqInit_lengths x q o fm) as (Hv & Ha & Hp & Hl).
  destruct (louvainSeqRun_louvainOmpRun x q o fm) as [E _].
  apply (f_equal ls_log) in E. simpl in E.
  change (louvainSeqLog x q o fm = louvainOmpLog x q o fm) in E.
  set (M := wdiv (edgeWeight x) (wofnat 2)).
  assert (Hrun : wltb wzero M = true /\ (0 < maxPasses o)%Z).
  { destruct (wltb wzero M) eqn:HM, (Z.ltb_spec 0 (maxPasses o)) as [HP|HP];
      try (split; [reflexivity | exact HP]); exfalso; apply Hne;
      unfold louvainSeqLog, louvainSeqRun; cbv zeta; cbn [fst]; fold M.
    - replace (Z.to_nat (maxPasses o)) with 0 by lia. exact Hl.
    - destruct (Z.to_nat (maxPasses o)); simpl; [exact Hl|]. rewrite HM. exact Hl.
    - destruct (Z.to_nat (maxPasses o)); simpl; [exact Hl|]. rewrite HM. exact Hl. }
  destruct Hrun as [HM HP].
  transitivity (walkLevels (louvainSeqLog x q o fm) u).
  - rewrite <- (withoutRenumbering_none _ Hnone) at 1.
    apply (louvainPasses_walk (Z.to_nat (maxPasses o)) x o M
             (fst (louvainSeqInit x q o fm)) (span x));
      [exact Hv | exact Ha | rewrite Hp, Hl; reflexivity
      | intros Hn; contradiction | exact Hne | exact Hu].
  - rewrite E. symmetry.
    apply (louvainOmpPasses_walk (Z.to_nat (maxPasses o)) x o M
             (fst (louvainSeqInit x q o fm)) (span x));
      [exact HM | rewrite Hp; lia | lia | exact Hv | exact Ha
      | rewrite Hp, Hl; reflexivity | intros Hn; contradiction | exact Hu].
Qed.
End DriversAgree.

(** A single vertex with a self-loop: the one pass is not aggregated and
    both drivers return community 0. *)
Lemma louvainSeq_louvainOmp_agree_witness :
  let fm := fun v : list bool => fillValueU v true in
  (louvainSeqLog selfLoop1 None defaultOptions fm = [mkPass 0 [0] None] /\
   0 < span selfLoop1) /\
  vget 0 (membership (louvainSeq selfLoop1 None defaultOptions fm)) 0
  = vget 0 (membership (louvainOmp selfLoop1 None defaultOptions fm)) 0.
Proof.
  intros fm.
  assert (Hlog : louvainSeqLog selfLoop1 None defaultOptions fm = [mkPass 0 [0] None]).
  { vm_compute. reflexivity. }
  split; [split; [exact Hlog | simpl; lia]|].
  apply (louvainSeq_louvainOmp_agree selfLoop1 None defaultOptions fm 0).
  - rewrite Hlog. discriminate.
  - rewrite Hlog. constructor; [reflexivity | constructor].
  - simpl. lia.
Defined.
